(** * go-wordle-solving: a shallow embedding and its verified properties

    The sources embedded here are
    - [api/wordle.go] and its later revision (package [handler]): [getHint],
      [calculateHints], [calculateBitvecs], [lookupBitvec],
      [AvgNumCandidates], [MaxNumCandidates], [findBestGuess], [main],
      [Hint.String], [Hint.ColoredWord];
    - [bitvector.go] (type [Bitvector]) and the [handler] package's [Bitvec];
    - [hint/hint.go]: [hint.New];
    - [precompute.go]: [LetterInfo] and its methods,
      [GenerateAllLetterInfos], the loop of [PrecomputeMain] that fills
      [hashToIndex];
    - the demo program: [AnalyzeWordle], [WordSatisfiesConstraints],
      [FilterWords], [TestLetterConstraint], [BuildPrecomputedConstraints]
      and the closure [validWordsFunc] of [DemoMain];
    - [utils.go]: [MinBy];
    - [wordle_solver.cu]: the device function [getHint].

    Conventions.  A Go [string] is a sequence of bytes: [s[i]] reads a
    byte, and [range] over a string decodes UTF-8, yielding the byte offset
    and the code point of every rune.  A Go [int] that counts or indexes is
    a [nat] (the program never leaves the 64-bit range); a [uint8] or
    [uint64] is a [Z] with its wrap-around written out, a [rune] a [Z].  A
    run-time panic is an explicit [Panic] result.  Goroutines that write
    to data of their own are run one after the other; goroutines that
    share a variable are run under a schedule, which is a parameter of the
    function that starts them. *)

From Stdlib Require Import ZArith Lia Ascii.
From stdpp Require Import gmap strings list fin_maps sorting.


#[global] Arguments Nat.div : simpl never.
#[global] Arguments Nat.modulo : simpl never.

(** ** Go run time: panics as an error monad *)

Inductive runtime_error : Set :=
| IndexOutOfRange
| NilDereference
| WaitGroupMisuse.

Inductive result (A : Type) : Type :=
| Ok (a : A)
| Panic (e : runtime_error).
Arguments Ok {A} a.
Arguments Panic {A} e.

#[global] Instance result_ret : MRet result := λ A a, Ok a.
#[global] Instance result_bind : MBind result := λ A B f m,
  match m with
  | Ok a => f a
  | Panic e => Panic e
  end.
#[global] Instance result_fmap : FMap result := λ A B f m,
  match m with
  | Ok a => Ok (f a)
  | Panic e => Panic e
  end.

#[global] Instance runtime_error_eq_dec : EqDecision runtime_error.
Proof. solve_decision. Defined.
#[global] Instance result_eq_dec `{EqDecision A} : EqDecision (result A).
Proof. solve_decision. Defined.

Definition is_Ok {A} (r : result A) : bool :=
  match r with Ok _ => true | Panic _ => false end.

(** [s[i]] on a slice, array or string: panics out of range. *)
Definition load {A} (l : list A) (i : nat) : result A :=
  match l !! i with
  | Some x => Ok x
  | None => Panic IndexOutOfRange
  end.

(** [s[i] = x] on a slice or array: panics out of range. *)
Definition store {A} (l : list A) (i : nat) (x : A) : result (list A) :=
  if decide (i < length l) then Ok (<[i:=x]> l) else Panic IndexOutOfRange.

(** [for i, x := range l { s = body i x s }], starting at index [i]. *)
Fixpoint for_range {A St} (body : nat → A → St → result St)
    (i : nat) (l : list A) (s : St) : result St :=
  match l with
  | [] => Ok s
  | x :: l' => s' ← body i x s; for_range body (S i) l' s'
  end.

(** [for _, x := range l { s = body x s }]. *)
Definition for_each {A St} (body : A → St → result St)
    (l : list A) (s : St) : result St :=
  for_range (λ _, body) 0 l s.

(** [for k, v := range m] over a map whose entries the body updates in
    place; Go leaves the order open, and the entries are independent. *)
Definition for_map `{Countable K} {A} (body : K → A → result A)
    (m : gmap K A) : result (gmap K A) :=
  map_fold (λ k a acc, m' ← acc; a' ← body k a; Ok (<[k := a']> m'))
           (Ok ∅) m.

Definition uint8 (z : Z) : Z := (z mod 256)%Z.

(** ** Go strings: bytes and runes *)

(** The bytes of a Go string. *)
Definition bytes (s : string) : list ascii := String.list_ascii_of_string s.

(** The value of a byte. *)
Definition byte_val (c : ascii) : Z := Z.of_nat (nat_of_ascii c).

(** [utf8.RuneError], the rune that stands for a malformed sequence. *)
Definition RuneError : Z := 0xFFFD%Z.

(** A continuation byte of UTF-8: [locb <= b && b <= hicb]. *)
Definition continuation (b : Z) : bool := (0x80 <=? b)%Z && (b <=? 0xBF)%Z.

(** The rune at the head of a string and the number of bytes it takes, as
    [range] over a string reads it (a byte below [utf8.RuneSelf] directly,
    the others through the run time's [decoderune]): a well-formed
    sequence of two, three or four bytes gives its code point, provided
    the code point needs that many bytes, is no surrogate and is at most
    [0x10FFFF]; every other byte gives [RuneError] and is stepped over
    alone. *)
Definition decoderune (s : list Z) : Z * nat :=
  match s with
  | [] => (RuneError, 1)
  | s0 :: t =>
      if (s0 <? 0x80)%Z then (s0, 1)
      else if (0xC0 <=? s0)%Z && (s0 <? 0xE0)%Z then
        match t with
        | s1 :: _ =>
            let r := Z.lor (Z.shiftl (Z.land s0 0x1F) 6) (Z.land s1 0x3F) in
            if continuation s1 && (0x7F <? r)%Z then (r, 2)
            else (RuneError, 1)
        | _ => (RuneError, 1)
        end
      else if (0xE0 <=? s0)%Z && (s0 <? 0xF0)%Z then
        match t with
        | s1 :: s2 :: _ =>
            let r := Z.lor (Z.lor (Z.shiftl (Z.land s0 0x0F) 12)
                                  (Z.shiftl (Z.land s1 0x3F) 6))
                           (Z.land s2 0x3F) in
            if continuation s1 && continuation s2 && (0x7FF <? r)%Z
               && negb ((0xD800 <=? r)%Z && (r <=? 0xDFFF)%Z)
            then (r, 3)
            else (RuneError, 1)
        | _ => (RuneError, 1)
        end
      else if (0xF0 <=? s0)%Z && (s0 <? 0xF8)%Z then
        match t with
        | s1 :: s2 :: s3 :: _ =>
            let r := Z.lor (Z.lor (Z.lor (Z.shiftl (Z.land s0 0x07) 18)
                                         (Z.shiftl (Z.land s1 0x3F) 12))
                                  (Z.shiftl (Z.land s2 0x3F) 6))
                           (Z.land s3 0x3F) in
            if continuation s1 && continuation s2 && continuation s3
               && (0xFFFF <? r)%Z && (r <=? 0x10FFFF)%Z
            then (r, 4)
            else (RuneError, 1)
        | _ => (RuneError, 1)
        end
      else (RuneError, 1)
  end.

(** [for i, ch := range s { st = body i ch st }] over a string: [i] is the
    byte offset at which the rune [ch] starts.  The loop walks the bytes
    from offset [i]; [skip] is the number of bytes of the last rune that
    are still to be stepped over. *)
Fixpoint range_string_from {St} (body : nat → Z → St → result St)
    (i skip : nat) (s : list ascii) (st : St) : result St :=
  match s with
  | [] => Ok st
  | _ :: s' =>
      match skip with
      | S skip' => range_string_from body (S i) skip' s' st
      | O =>
          let '(ch, size) := decoderune (byte_val <$> s) in
          st' ← body i ch st;
          range_string_from body (S i) (size - 1) s' st'
      end
  end.

Definition range_string {St} (body : nat → Z → St → result St)
    (s : list ascii) (st : St) : result St :=
  range_string_from body 0 0 s st.

(** The runes of a string, in the order in which [range] yields them. *)
Fixpoint runes_from (skip : nat) (s : list ascii) : list Z :=
  match s with
  | [] => []
  | _ :: s' =>
      match skip with
      | S skip' => runes_from skip' s'
      | O =>
          let '(ch, size) := decoderune (byte_val <$> s) in
          ch :: runes_from (size - 1) s'
      end
  end.

Definition runes (s : list ascii) : list Z := runes_from 0 s.

(** [strings.ContainsRune(s, r)]: whether the code point [r] is within
    [s].  The argument is a rune that [range] has yielded: a code point,
    found where its bytes stand in [s], or [RuneError], which the library
    finds wherever [range] over [s] would yield it. *)
Definition ContainsRune (s : list ascii) (r : Z) : bool :=
  bool_decide (r ∈ runes s).

(** ** Feedback codec: [getHint] ([api/wordle.go]) *)

(** The body of the first loop of [getHint], [for i, ch := range guess]:
    [i] is a byte offset, [ch] a rune, [answer[i]] a byte that is compared
    with [byte(ch)], the low eight bits of the rune; [charHints] is the
    [[5]uint8] array. *)
Definition getHint_body (answer : list ascii)
    (i : nat) (ch : Z) (charHints : list Z) : result (list Z) :=
  a_i ← load answer i;
  if decide (byte_val a_i = uint8 ch) then store charHints i 2%Z
  else if ContainsRune answer ch then store charHints i 1%Z
  else Ok charHints.

Definition getHint_charHints (guess answer : string) : result (list Z) :=
  range_string (getHint_body (bytes answer)) (bytes guess) (replicate 5 0%Z).

(** The second loop: [ret = (ret * 3) + d] on a [uint8]. *)
Definition getHint_encode (charHints : list Z) : Z :=
  foldl (λ ret d, uint8 (ret * 3 + d)) 0%Z charHints.

Definition getHint (guess answer : string) : result Z :=
  getHint_encode <$> getHint_charHints guess answer.

(** [Hint.ColoredWord]: the loop that turns a hint back into its digits,
    [for i := 4; i >= 0; i-- { digits[i] = int(hintValue % 3); hintValue /= 3 }]. *)
Definition ColoredWord_digits (h : Z) : list Z :=
  fst (foldl (λ '(digits, hintValue) i,
                (<[i := (hintValue mod 3)%Z]> digits, (hintValue / 3)%Z))
             (replicate 5 0%Z, h) [4; 3; 2; 1; 0]).

(** [strconv.FormatUint(h, 3)] as a list of digits, most significant
    first; a [uint64] has at most 41 digits in base 3. *)
Fixpoint FormatUint3_go (fuel : nat) (h : Z) (acc : list Z) : list Z :=
  match fuel with
  | O => acc
  | S fuel' =>
      if (h <? 3)%Z then h :: acc
      else FormatUint3_go fuel' (h / 3)%Z ((h mod 3)%Z :: acc)
  end.
Definition FormatUint3 (h : Z) : list Z := FormatUint3_go 41 h [].

(** [fmt.Sprintf("%05s", s)]: the digits padded on the left with zeros to
    width 5.  [Hint.String] then replaces each digit by a coloured square. *)
Definition String_digits (h : Z) : list Z :=
  let s := FormatUint3 h in replicate (5 - length s) 0%Z ++ s.

(** The positions of letter [c] in [guess] that carry a non-zero tag
    (Present = 1 or Correct = 2). *)
Definition tagged (c : ascii) (guess : list ascii) (tags : list Z) : nat :=
  length (filter (λ p, p.1 = c ∧ p.2 ≠ 0%Z) (zip guess tags)).

Definition occurrences (c : ascii) (w : list ascii) : nat :=
  length (filter (λ x, x = c) w).


(** ** Bitsets: [Bitvector] ([bitvector.go]) and [Bitvec] (package [handler])

    Both types pack bits into [uint64] words, [Bytes], and keep the number
    of set bits in [Count]; their methods have the same bodies, shared here
    on the word list. *)

(** [bits.OnesCount64]: the number of set bits among bits 0..63. *)
Definition OnesCount64 (x : Z) : nat :=
  length (filter (λ i, Z.testbit x (Z.of_nat i) = true) (seq 0 64)).

(** [numBytes := (size + 63) / 64; make([]uint64, numBytes)] *)
Definition words_New (size : nat) : list Z := replicate ((size + 63) / 64) 0%Z.

(** The body of [Set]: [1 << bitIndex] has [bitIndex < 64] and does not
    overflow a [uint64]. *)
Definition words_Set (Bytes : list Z) (Count : nat) (index : nat)
    : result (list Z * nat) :=
  let byteIndex := index / 64 in
  let bitIndex := index mod 64 in
  w ← load Bytes byteIndex;
  if (Z.land w (Z.shiftl 1 (Z.of_nat bitIndex)) =? 0)%Z then
    Bytes' ← store Bytes byteIndex (Z.lor w (Z.shiftl 1 (Z.of_nat bitIndex)));
    Ok (Bytes', S Count)
  else Ok (Bytes, Count).

Definition words_Get (Bytes : list Z) (index : nat) : result bool :=
  let byteIndex := index / 64 in
  let bitIndex := index mod 64 in
  w ← load Bytes byteIndex;
  Ok (negb (Z.land w (Z.shiftl 1 (Z.of_nat bitIndex)) =? 0)%Z).

(** The loop of [And]; every [i] it visits is below [minLen], so both
    reads are in range. *)
Definition words_And (bv other : list Z) : list Z * nat :=
  let minLen := length other `min` length bv in
  foldl (λ '(Bytes, Count) i,
           let w := Z.land (bv !!! i) (other !!! i) in
           (<[i := w]> Bytes, Count + OnesCount64 w))
        (replicate minLen 0%Z, 0) (seq 0 minLen).

Module Bitvector.

Record t := mk { Bytes : list Z; Count : nat }.

Definition New (size : nat) : t := {| Bytes := words_New size; Count := 0 |}.

Definition Set_ (bv : t) (index : nat) : result t :=
  '(Bytes', Count') ← words_Set (Bytes bv) (Count bv) index;
  Ok {| Bytes := Bytes'; Count := Count' |}.

Definition Get (bv : t) (index : nat) : result bool :=
  words_Get (Bytes bv) index.

Definition And (bv other : t) : t :=
  let '(Bytes', Count') := words_And (Bytes bv) (Bytes other) in
  {| Bytes := Bytes'; Count := Count' |}.

Definition GetCount (bv : t) : nat := Count bv.

(** Modelled from the spec: [GetSetIndices] is called by [DemoMain] but
    its body is not among the sources; as its name and its use say, it
    lists the indices of the set bits in increasing order. *)
Definition GetSetIndices (bv : t) : list nat :=
  filter (λ i, words_Get (Bytes bv) i = Ok true) (seq 0 (64 * length (Bytes bv))).

End Bitvector.

Module Bitvec.

Record t := mk { Bytes : list Z; Size : nat; Count : nat }.

Definition New (size : nat) : t :=
  {| Bytes := words_New size; Size := size; Count := 0 |}.

Definition Set_ (bv : t) (index : nat) : result t :=
  '(Bytes', Count') ← words_Set (Bytes bv) (Count bv) index;
  Ok {| Bytes := Bytes'; Size := Size bv; Count := Count' |}.

Definition Get (bv : t) (index : nat) : result bool :=
  words_Get (Bytes bv) index.

(** The result is built without a [Size], which stays 0. *)
Definition And (bv other : t) : t :=
  let '(Bytes', Count') := words_And (Bytes bv) (Bytes other) in
  {| Bytes := Bytes'; Size := 0; Count := Count' |}.

End Bitvec.

(** Bit [i] of a word list, false past its end. *)
Definition bit (Bytes : list Z) (i : nat) : bool :=
  match Bytes !! (i / 64) with
  | Some w => Z.testbit w (Z.of_nat (i mod 64))
  | None => false
  end.

(** The number of set bits of a word list. *)
Definition popcount (Bytes : list Z) : nat := sum_list_with OnesCount64 Bytes.

(** ** Candidate index ([api/wordle.go])

    The package variables [guesses], [answers] and [guessesMap] are passed
    explicitly.  A [Hint] is a [uint8] feedback code.  The goroutines of
    [calculateHints] and [calculateBitvecs] each own the maps of one guess,
    so running them one after the other gives the same [guessesMap]. *)

Record HintInfo := { freq : nat; bitvec : Bitvec.t }.

Record GuessInfo := {
  answerHints : gmap string Z;
  hintsMap : gmap Z HintInfo
}.

(** The body of the goroutine's loop over [answers]. *)
Definition calculateHints_answer (answers : list string) (guess : string)
    (answer : string) (gi : GuessInfo) : result GuessInfo :=
  hint ← getHint guess answer;
  let answerHints' := <[answer := hint]> (answerHints gi) in
  let hintsMap' :=
    match hintsMap gi !! hint with
    | Some info =>
        <[hint := {| freq := S (freq info); bitvec := bitvec info |}]> (hintsMap gi)
    | None =>
        <[hint := {| freq := 1; bitvec := Bitvec.New (length answers) |}]> (hintsMap gi)
    end in
  Ok {| answerHints := answerHints'; hintsMap := hintsMap' |}.

Definition calculateHints_guess (answers : list string) (guess : string)
    : result GuessInfo :=
  for_each (calculateHints_answer answers guess) answers
           {| answerHints := ∅; hintsMap := ∅ |}.

Definition calculateHints (guesses answers : list string)
    (guessesMap : gmap string GuessInfo) : result (gmap string GuessInfo) :=
  for_each (λ guess gm,
              gi ← calculateHints_guess answers guess;
              Ok (<[guess := gi]> gm))
           guesses guessesMap.

(** [guessInfo.answerHints[answer]]: a missing key reads as 0. *)
Definition calculateBitvecs_hint (answers : list string) (gi : GuessInfo)
    (hint : Z) (hintInfo : HintInfo) : result HintInfo :=
  bv ← for_range (λ answerIdx answer bv,
                    let hint2 := default 0%Z (answerHints gi !! answer) in
                    if decide (hint2 = hint) then Bitvec.Set_ bv answerIdx
                    else Ok bv)
                 0 answers (bitvec hintInfo);
  Ok {| freq := freq hintInfo; bitvec := bv |}.

Definition calculateBitvecs_guess (answers : list string) (gi : GuessInfo)
    : result GuessInfo :=
  hm ← for_map (calculateBitvecs_hint answers gi) (hintsMap gi);
  Ok {| answerHints := answerHints gi; hintsMap := hm |}.

Definition calculateBitvecs (answers : list string)
    (guessesMap : gmap string GuessInfo) : result (gmap string GuessInfo) :=
  for_map (λ _ gi, calculateBitvecs_guess answers gi) guessesMap.

(** ** Search engine ([api/wordle.go]) *)

(** A guess missing from [guessesMap], or a hint missing from its
    [hintsMap], is a nil pointer that the field access dereferences. *)
Definition lookupBitvec (guessesMap : gmap string GuessInfo)
    (guess answer : string) : result Bitvec.t :=
  match guessesMap !! guess with
  | None => Panic NilDereference
  | Some gi =>
      match hintsMap gi !! default 0%Z (answerHints gi !! answer) with
      | None => Panic NilDereference
      | Some info => Ok (bitvec info)
      end
  end.

(** The inner loop of [AvgNumCandidates] and [MaxNumCandidates]; it gives
    back [broke] and the running [bitvec]. *)
Fixpoint narrow (guessesMap : gmap string GuessInfo) (answer : string)
    (guesses : list string) (bitvec : Bitvec.t) : result (bool * Bitvec.t) :=
  match guesses with
  | [] => Ok (false, bitvec)
  | guess :: guesses' =>
      if decide (Bitvec.Count bitvec ≤ 2) then Ok (true, bitvec)
      else
        other ← lookupBitvec guessesMap guess answer;
        narrow guessesMap answer guesses' (Bitvec.And bitvec other)
  end.

(** One round of the loop over [answers]: [tot += 1.0] at the [break],
    [tot += float64(bitvec.Count)] otherwise.  Every summand is a whole
    number, so the [float64] sum is exact (below 2^53) and kept as a [nat]. *)
Definition AvgNumCandidates_answer (guessesMap : gmap string GuessInfo)
    (firstGuess : string) (guesses : list string)
    (answer : string) (tot : nat) : result nat :=
  bitvec ← lookupBitvec guessesMap firstGuess answer;
  '(broke, bitvec) ← narrow guessesMap answer guesses bitvec;
  Ok (if broke : bool then tot + 1 else tot + Bitvec.Count bitvec).

(** [tot / float64(len(answers))], kept as numerator and denominator. *)
Definition AvgNumCandidates (guessesMap : gmap string GuessInfo)
    (answers : list string) (firstGuess : string) (guesses : list string)
    : result (nat * nat) :=
  tot ← for_each (AvgNumCandidates_answer guessesMap firstGuess guesses) answers 0;
  Ok (tot, length answers).

Definition MaxNumCandidates_answer (guessesMap : gmap string GuessInfo)
    (firstGuess : string) (guesses : list string)
    (answer : string) (ret : nat) : result nat :=
  bitvec ← lookupBitvec guessesMap firstGuess answer;
  '(broke, bitvec) ← narrow guessesMap answer guesses bitvec;
  Ok (if broke : bool then ret `max` 1 else ret `max` Bitvec.Count bitvec).

Definition MaxNumCandidates (guessesMap : gmap string GuessInfo)
    (answers : list string) (firstGuess : string) (guesses : list string)
    : result nat :=
  for_each (MaxNumCandidates_answer guessesMap firstGuess guesses) answers 1.

(** [int(guess[i] - 'a')]: the subtraction is on bytes and wraps. *)
Definition letter_index (ch : ascii) : nat := (nat_of_ascii ch + 256 - 97) mod 256.

(** The 26-bit letter-presence set of a guess. *)
Definition letterMask (guess : string) : result Bitvec.t :=
  for_each (λ i bitvec,
              ch ← load (bytes guess) i;
              Bitvec.Set_ bitvec (letter_index ch))
           (seq 0 5) (Bitvec.New 26).

Definition filterGuesses (guesses : list string)
    : result (list Bitvec.t * list string) :=
  for_each (λ guess '(guessBitvecs, filteredGuesses),
              bitvec ← letterMask guess;
              if decide (Bitvec.Count bitvec = 5)
              then Ok (guessBitvecs ++ [bitvec], filteredGuesses ++ [guess])
              else Ok (guessBitvecs, filteredGuesses))
           guesses ([], []).

(** [findBestGuess], over the scoring function it calls ([MaxNumCandidates]
    in [api/wordle.go], [AvgNumCandidates] in the later revision) and the
    order [<] on its values.  The state of the search is the running best
    and, to tell which pairs were scored, the list of the calls made to the
    scoring function. *)
Section findBestGuess.
Context {V : Type}.
Variable score : string → string → result V.
Variable less : V → V → bool.

Record search := {
  bestGuess1 : string;
  bestGuess2 : string;
  bestGuessVal : V;
  scored : list (string * string)
}.

(** One round of the loop over [j], in the goroutine of [i]. *)
Definition findBestGuess_pair (guessBitvecs : list Bitvec.t)
    (filteredGuesses : list string) (i j : nat) (st : search) : result search :=
  guess1 ← load filteredGuesses i;
  guess2 ← load filteredGuesses j;
  bi ← load guessBitvecs i;
  bj ← load guessBitvecs j;
  if decide (Bitvec.Count (Bitvec.And bi bj) ≠ 0) then Ok st
  else
    guessVal ← score guess1 guess2;
    let log := scored st ++ [(guess1, guess2)] in
    if less guessVal (bestGuessVal st)
    then Ok {| bestGuess1 := guess1; bestGuess2 := guess2;
               bestGuessVal := guessVal; scored := log |}
    else Ok {| bestGuess1 := bestGuess1 st; bestGuess2 := bestGuess2 st;
               bestGuessVal := bestGuessVal st; scored := log |}.

(** The goroutines.  [for i := range len(filteredGuesses) - 1] starts one
    goroutine per [i], which runs the rounds
    [for j := i + 1; j < len(filteredGuesses); j++] in order; what is kept
    of a goroutine is the list of the rounds it has yet to run. *)
Definition goroutines (n : nat) : list (list nat) :=
  (λ i, seq (i + 1) (n - (i + 1))) <$> seq 0 (n - 1).

(** A round writes the running best under the mutex [mu] only, and the
    scoring function reads data that nobody writes, so the rounds of the
    goroutines interleave as wholes.  A schedule lists, in the order in
    which the rounds run, the goroutine that runs its next round; a
    goroutine that has no round left runs nothing.  A panic in a goroutine
    ends the program. *)
Fixpoint findBestGuess_run (guessBitvecs : list Bitvec.t)
    (filteredGuesses : list string) (schedule : list nat)
    (pending : list (list nat)) (st : search)
    : result (list (list nat) * search) :=
  match schedule with
  | [] => Ok (pending, st)
  | i :: schedule' =>
      match pending !! i with
      | Some (j :: js) =>
          st' ← findBestGuess_pair guessBitvecs filteredGuesses i j st;
          findBestGuess_run guessBitvecs filteredGuesses schedule'
                            (<[i := js]> pending) st'
      | _ =>
          findBestGuess_run guessBitvecs filteredGuesses schedule' pending st
      end
  end.

(** Every goroutine runs the rounds it has left. *)
Definition findBestGuess_wait (guessBitvecs : list Bitvec.t)
    (filteredGuesses : list string) (pending : list (list nat)) (st : search)
    : result search :=
  for_range (λ i js st,
               for_each (findBestGuess_pair guessBitvecs filteredGuesses i) js st)
            0 pending st.

(** What comes before the goroutines: the filter, and the running best
    seeded with the first two guesses that pass it. *)
Definition findBestGuess_seed (guesses : list string)
    : result (list Bitvec.t * list string * search) :=
  '(guessBitvecs, filteredGuesses) ← filterGuesses guesses;
  bestGuess1 ← load filteredGuesses 0;
  bestGuess2 ← load filteredGuesses 1;
  bestGuessVal ← score bestGuess1 bestGuess2;
  Ok (guessBitvecs, filteredGuesses,
      {| bestGuess1 := bestGuess1; bestGuess2 := bestGuess2;
         bestGuessVal := bestGuessVal;
         scored := [(bestGuess1, bestGuess2)] |}).

(** Whether a round that scores, and so calls [wg.Add(1)], is left. *)
Definition scoring_left (guessBitvecs : list Bitvec.t)
    (pending : list (list nat)) : bool :=
  existsb (λ '(i, js),
             existsb (λ j,
                        match guessBitvecs !! i, guessBitvecs !! j with
                        | Some bi, Some bj =>
                            bool_decide (Bitvec.Count (Bitvec.And bi bj) = 0)
                        | _, _ => false
                        end) js)
          (imap pair pending).

(** [findBestGuess] of [api/wordle.go].  [wg.Add(1)] is called inside the
    goroutine, at the start of a round that scores, and [wg.Done()] at the
    end of that round: [wg.Wait()] returns as soon as it finds no round
    between the two, whatever rounds are left.  [schedule] lists the
    rounds that have run by then, and the result is the state of the
    search at that moment, which the function goes on to print.

    A [wg.Add(1)] that follows a [wg.Done()] while [wg.Wait()] is waiting
    breaks the contract of [sync.WaitGroup], and the run time panics when
    it sees it ("WaitGroup misuse", "WaitGroup is reused").  This takes a
    round that has scored, for [wg.Wait()] to wait for, and a round that
    is yet to score; [misuse] says that the run time then sees it. *)
Definition findBestGuess (guesses : list string) (schedule : list nat)
    (misuse : bool) : result search :=
  '(guessBitvecs, filteredGuesses, st) ← findBestGuess_seed guesses;
  '(pending, st) ← findBestGuess_run guessBitvecs filteredGuesses schedule
                     (goroutines (length filteredGuesses)) st;
  if misuse && bool_decide (1 < length (scored st))
     && scoring_left guessBitvecs pending
  then Panic WaitGroupMisuse
  else Ok st.

(** [findBestGuess] of the later revision.  [wg.Add(1)] precedes [go] and
    the goroutine defers [wg.Done()]: [wg.Wait()] returns when every
    goroutine has run all its rounds.  After the rounds of [schedule], the
    goroutines run what they have left, so that every interleaving of all
    the rounds is covered. *)
Definition findBestGuess_handler (guesses : list string) (schedule : list nat)
    : result search :=
  '(guessBitvecs, filteredGuesses, st) ← findBestGuess_seed guesses;
  '(pending, st) ← findBestGuess_run guessBitvecs filteredGuesses schedule
                     (goroutines (length filteredGuesses)) st;
  findBestGuess_wait guessBitvecs filteredGuesses pending st.

End findBestGuess.

(** ** Letter constraints ([precompute.go]) *)

Record LetterInfo := {
  MustBeInPositions : list nat;
  CantBeInPositions : list nat;
  Frequency : nat;
  FrequencyIsExact : bool
}.

#[global] Instance LetterInfo_eq_dec : EqDecision LetterInfo.
Proof. solve_decision. Defined.

(** The zero value of the struct, read from a map at a missing key. *)
Definition LetterInfo_zero : LetterInfo :=
  {| MustBeInPositions := []; CantBeInPositions := [];
     Frequency := 0; FrequencyIsExact := false |}.

(** [sort.Ints] *)
Definition sort_Ints (l : list nat) : list nat := merge_sort (≤) l.

(** [LetterInfo.Canonical] prints the sorted position lists, the
    frequency and the exactness; the printed string determines and is
    determined by these four fields, which stand for it here. *)
Definition Canonical (l : LetterInfo) : list nat * list nat * nat * bool :=
  (sort_Ints (MustBeInPositions l), sort_Ints (CantBeInPositions l),
   Frequency l, FrequencyIsExact l).

Definition IsValid (l : LetterInfo) : bool :=
  if decide (Frequency l = 0) then
    bool_decide (length (MustBeInPositions l) = 0) && FrequencyIsExact l
  else if decide (Frequency l < length (MustBeInPositions l)) then false
  else
    forallb (λ mustPos, negb (bool_decide (mustPos ∈ CantBeInPositions l)))
            (MustBeInPositions l).

(** The positions [pos] of 0..4 with [(bits & (1 << pos)) != 0]. *)
Definition bit_positions (bits : nat) : list nat :=
  filter (λ pos, Nat.land bits (Nat.shiftl 1 pos) ≠ 0) (seq 0 5).

(** The loop that collects [cantPositions] and breaks, with [hasOverlap],
    at the first of them that [mustPositions] holds. *)
Fixpoint cant_positions (cantBits : nat) (mustPositions : list nat)
    (positions : list nat) (cantPositions : list nat) : list nat * bool :=
  match positions with
  | [] => (cantPositions, false)
  | pos :: rest =>
      if decide (Nat.land cantBits (Nat.shiftl 1 pos) ≠ 0) then
        if decide (pos ∈ mustPositions) then (cantPositions, true)
        else cant_positions cantBits mustPositions rest (cantPositions ++ [pos])
      else cant_positions cantBits mustPositions rest cantPositions
  end.

(** The nested loops append to [allInfos] in the order of the list. *)
Definition GenerateAllLetterInfos : list LetterInfo :=
  freq ← seq 0 4;
  exactness ← seq 0 2;
  let isExact := bool_decide (exactness = 1) in
  mustBits ← seq 0 32;
  let mustPositions := bit_positions mustBits in
  if decide (freq < length mustPositions) then []
  else
    cantBits ← seq 0 32;
    let '(cantPositions, hasOverlap) :=
      cant_positions cantBits mustPositions (seq 0 5) [] in
    if hasOverlap : bool then []
    else
      let info := {| MustBeInPositions := mustPositions;
                     CantBeInPositions := cantPositions;
                     Frequency := freq;
                     FrequencyIsExact := isExact |} in
      if IsValid info then [info] else [].

(** ** The structural path (demo program) *)

Record WordleAnalysis := {
  Target : string;
  Guess : string;
  LetterInfos : gmap ascii LetterInfo
}.

(** [m[k]] on a map of counters, 0 at a missing key. *)
Definition count_at (m : gmap ascii nat) (k : ascii) : nat := default 0 (m !! k).

Definition info_at (m : gmap ascii LetterInfo) (k : ascii) : LetterInfo :=
  default LetterInfo_zero (m !! k).

(** [for i := range 5 { freq[w[i]]++ }] *)
Definition letter_counts (w : list ascii) : result (gmap ascii nat) :=
  for_each (λ i m, ch ← load w i; Ok (<[ch := S (count_at m ch)]> m)) (seq 0 5) ∅.

(** [for _, pos := range positions { if word[pos] != letter { return false } }] *)
Fixpoint must_hold (word : list ascii) (letter : ascii) (positions : list nat)
    : result bool :=
  match positions with
  | [] => Ok true
  | pos :: rest =>
      ch ← load word pos;
      if decide (ch ≠ letter) then Ok false else must_hold word letter rest
  end.

(** [for _, pos := range positions { if word[pos] == letter { return false } }] *)
Fixpoint cant_hold (word : list ascii) (letter : ascii) (positions : list nat)
    : result bool :=
  match positions with
  | [] => Ok true
  | pos :: rest =>
      ch ← load word pos;
      if decide (ch = letter) then Ok false else cant_hold word letter rest
  end.

(** One round of the loop of [WordSatisfiesConstraints] over
    [w.LetterInfos]; [false] is its [return false]. *)
Definition satisfies_letter (word : list ascii) (wordFreq : gmap ascii nat)
    (letter : ascii) (info : LetterInfo) : result bool :=
  let actualFreq := count_at wordFreq letter in
  if (if FrequencyIsExact info
      then bool_decide (actualFreq ≠ Frequency info)
      else bool_decide (actualFreq < Frequency info))
  then Ok false
  else
    ok ← must_hold word letter (MustBeInPositions info);
    if ok : bool then cant_hold word letter (CantBeInPositions info) else Ok false.

Definition WordSatisfiesConstraints (w : WordleAnalysis) (word : string)
    : result bool :=
  wordFreq ← letter_counts (bytes word);
  map_fold (λ letter info acc,
              ok ← acc;
              if ok : bool then satisfies_letter (bytes word) wordFreq letter info
              else Ok false)
           (Ok true) (LetterInfos w).

Definition FilterWords (w : WordleAnalysis) (candidates : list string)
    : result (list string) :=
  for_each (λ word validWords,
              ok ← WordSatisfiesConstraints w word;
              Ok (if ok : bool then validWords ++ [word] else validWords))
           candidates [].

(** The state of [AnalyzeWordle]: [letterInfos] and [usedInstances]. *)
Definition analysis_state : Type := gmap ascii LetterInfo * gmap ascii nat.

Definition AnalyzeWordle_init (guess : list ascii) (i : nat)
    (letterInfos : gmap ascii LetterInfo) : result (gmap ascii LetterInfo) :=
  char ← load guess i;
  match letterInfos !! char with
  | Some _ => Ok letterInfos
  | None => Ok (<[char := LetterInfo_zero]> letterInfos)
  end.

(** First pass: the correct positions. *)
Definition AnalyzeWordle_first (target guess : list ascii) (i : nat)
    (st : analysis_state) : result analysis_state :=
  let '(letterInfos, usedInstances) := st in
  guessChar ← load guess i;
  targetChar ← load target i;
  if decide (guessChar = targetChar) then
    let usedInstances := <[guessChar := S (count_at usedInstances guessChar)]> usedInstances in
    let info := info_at letterInfos guessChar in
    let info :=
      {| MustBeInPositions := MustBeInPositions info ++ [i];
         CantBeInPositions := CantBeInPositions info;
         Frequency := Frequency info `max` count_at usedInstances guessChar;
         FrequencyIsExact := FrequencyIsExact info |} in
    Ok (<[guessChar := info]> letterInfos, usedInstances)
  else Ok st.

(** Second pass: the wrong positions and the frequency bounds. *)
Definition AnalyzeWordle_second (targetFreq : gmap ascii nat)
    (target guess : list ascii) (i : nat)
    (st : analysis_state) : result analysis_state :=
  let '(letterInfos, usedInstances) := st in
  guessChar ← load guess i;
  targetChar ← load target i;
  if decide (guessChar = targetChar) then Ok st
  else
    let targetCount := count_at targetFreq guessChar in
    let usedCount := count_at usedInstances guessChar in
    let info := info_at letterInfos guessChar in
    if decide (targetCount = 0) then
      Ok (<[guessChar :=
              {| MustBeInPositions := MustBeInPositions info;
                 CantBeInPositions := CantBeInPositions info;
                 Frequency := 0;
                 FrequencyIsExact := true |}]> letterInfos,
          usedInstances)
    else if decide (usedCount < targetCount) then
      let usedInstances := <[guessChar := S usedCount]> usedInstances in
      Ok (<[guessChar :=
              {| MustBeInPositions := MustBeInPositions info;
                 CantBeInPositions := CantBeInPositions info ++ [i];
                 Frequency := Frequency info `max` count_at usedInstances guessChar;
                 FrequencyIsExact := FrequencyIsExact info |}]> letterInfos,
          usedInstances)
    else
      Ok (<[guessChar :=
              {| MustBeInPositions := MustBeInPositions info;
                 CantBeInPositions := CantBeInPositions info ++ [i];
                 Frequency := targetCount;
                 FrequencyIsExact := true |}]> letterInfos,
          usedInstances).

(** Third loop: a letter whose frequency is covered by its correct
    positions has an exact frequency. *)
Definition AnalyzeWordle_mark (info : LetterInfo) : LetterInfo :=
  if negb (FrequencyIsExact info) && bool_decide (0 < Frequency info) then
    if decide (length (MustBeInPositions info) = Frequency info) then
      {| MustBeInPositions := MustBeInPositions info;
         CantBeInPositions := CantBeInPositions info;
         Frequency := Frequency info;
         FrequencyIsExact := true |}
    else info
  else info.

Definition AnalyzeWordle (target guess : string) : result WordleAnalysis :=
  let t := bytes target in
  let g := bytes guess in
  targetFreq ← letter_counts t;
  letterInfos ← for_each (AnalyzeWordle_init g) (seq 0 5) ∅;
  st ← for_each (AnalyzeWordle_first t g) (seq 0 5) (letterInfos, ∅);
  st ← for_each (AnalyzeWordle_second targetFreq t g) (seq 0 5) st;
  Ok {| Target := target; Guess := guess;
        LetterInfos := AnalyzeWordle_mark <$> st.1 |}.

(** ** The bitset path (demo program) *)

Record LetterConstraintKey := { Letter : ascii; Info : LetterInfo }.

(** [LetterConstraintKey.Hash] is the first 8 bytes of the SHA-256 of
    the key's canonical string, ["%c:%s"] of the letter and
    [Info.Canonical()].  The digest is taken to be free of collisions on
    these strings, so a hash is kept as the content it was computed from. *)
Definition constraint_hash : Type := ascii * (list nat * list nat * nat * bool).

Definition Hash (k : LetterConstraintKey) : constraint_hash :=
  (Letter k, Canonical (Info k)).

Record PrecomputedConstraints := {
  Words : list string;
  Constraints : gmap constraint_hash Bitvector.t;
  KeyMap : gmap constraint_hash LetterConstraintKey
}.

Definition TestLetterConstraint (word : string) (letter : ascii)
    (info : LetterInfo) : result bool :=
  let w := bytes word in
  freq ← for_each (λ i freq,
                     ch ← load w i;
                     Ok (if decide (ch = letter) then S freq else freq))
                  (seq 0 5) 0;
  if (if decide (Frequency info = 0) then bool_decide (0 < freq)
      else if FrequencyIsExact info then bool_decide (freq ≠ Frequency info)
      else bool_decide (freq < Frequency info))
  then Ok false
  else
    ok ← must_hold w letter (MustBeInPositions info);
    if ok : bool then cant_hold w letter (CantBeInPositions info) else Ok false.

(** The letters ['a'] to ['z']. *)
Definition letters : list ascii := (λ n, ascii_of_nat (97 + n)) <$> seq 0 26.

Definition BuildPrecomputedConstraints_one (words : list string)
    (letter : ascii) (info : LetterInfo)
    (st : gmap constraint_hash Bitvector.t * gmap constraint_hash LetterConstraintKey)
    : result (gmap constraint_hash Bitvector.t
              * gmap constraint_hash LetterConstraintKey) :=
  let '(constraints, keyMap) := st in
  let key := {| Letter := letter; Info := info |} in
  let hash := Hash key in
  match constraints !! hash with
  | Some _ => Ok st
  | None =>
      bv ← for_range (λ i word bv,
                        ok ← TestLetterConstraint word letter info;
                        if ok : bool then Bitvector.Set_ bv i else Ok bv)
                     0 words (Bitvector.New (length words));
      Ok (<[hash := bv]> constraints, <[hash := key]> keyMap)
  end.

Definition BuildPrecomputedConstraints (words : list string)
    : result PrecomputedConstraints :=
  let allInfos := GenerateAllLetterInfos in
  '(constraints, keyMap) ←
    for_each (λ letter st,
                for_each (BuildPrecomputedConstraints_one words letter)
                         allInfos st)
             letters (∅, ∅);
  Ok {| Words := words; Constraints := constraints; KeyMap := keyMap |}.

(** The closure [validWordsFunc] of [DemoMain]. *)
Definition validWordsFunc (precomputed : PrecomputedConstraints)
    (candidates : list string) (analysis : WordleAnalysis)
    : result (list string) :=
  if decide (length candidates = 0) then Ok []
  else
    result ← for_each (λ i bv, Bitvector.Set_ bv i)
                      (seq 0 (length candidates))
                      (Bitvector.New (length candidates));
    let result :=
      map_fold (λ letter info result,
                  let key := {| Letter := letter; Info := info |} in
                  match Constraints precomputed !! Hash key with
                  | Some bv => Bitvector.And result bv
                  | None => result
                  end)
               result (LetterInfos analysis) in
    for_each (λ idx validWords,
                if decide (idx < length candidates) then
                  word ← load candidates idx; Ok (validWords ++ [word])
                else Ok validWords)
             (Bitvector.GetSetIndices result) [].

(** The two paths of the claim, side by side: the analysis of
    [(target, guess)], then [FilterWords], and the table built over the
    candidates, then [validWordsFunc]. *)
Definition structural_path (target guess : string) (candidates : list string)
    : result (list string) :=
  analysis ← AnalyzeWordle target guess;
  FilterWords analysis candidates.

Definition bitset_path (target guess : string) (candidates : list string)
    : result (list string) :=
  analysis ← AnalyzeWordle target guess;
  precomputed ← BuildPrecomputedConstraints candidates;
  validWordsFunc precomputed candidates analysis.

(** ** Package [hint] ([hint/hint.go]) *)

Module hint.

Record Duplicate := {
  Duplicate_char : ascii;
  greenIdxs : list nat;
  Duplicate_possibleIdxs : list nat;
  impossibleIdxs : list nat;
  count : nat;
  hasGray : bool
}.

Record Green := { Green_char : ascii; idx : nat }.

Record Yellow := { impossibleIdx : nat; Yellow_possibleIdxs : list nat }.

(** The struct [Hint]; [sequence] is a [[5]int], [grays] a [[26]bool]. *)
Record t := {
  sequence : list nat;
  rank : nat;
  duplicates : list Duplicate;
  greens : list Green;
  yellows : list Yellow;
  grays : list bool
}.

(** [hint := Hint{}]: every field at its zero value. *)
Definition zero : t := {|
  sequence := replicate 5 0;
  rank := 0;
  duplicates := [];
  greens := [];
  yellows := [];
  grays := replicate 26 false
|}.

Definition with_sequence (h : t) (s : list nat) : t :=
  {| sequence := s; rank := rank h; duplicates := duplicates h;
     greens := greens h; yellows := yellows h; grays := grays h |}.

Definition with_greens (h : t) (g : list Green) : t :=
  {| sequence := sequence h; rank := rank h; duplicates := duplicates h;
     greens := g; yellows := yellows h; grays := grays h |}.

(** First loop: the assignment [hint.sequence[i] = 2] stands after the
    [if], so it runs for every [i]. *)
Definition New_greens (guess answer : list ascii) (i : nat) (h : t) : result t :=
  g_i ← load guess i;
  a_i ← load answer i;
  let h1 :=
    if decide (g_i = a_i)
    then with_greens h (greens h ++ [{| Green_char := g_i; idx := i |}])
    else h in
  s ← store (sequence h1) i 2;
  Ok (with_sequence h1 s).

(** Second loop: the answer's letters at the positions still tagged 0. *)
Definition New_unhinted (answer : list ascii) (h : t) (i : nat)
    (unHintedAtChars : list ascii) : result (list ascii) :=
  s_i ← load (sequence h) i;
  if decide (s_i = 0) then
    a_i ← load answer i; Ok (unHintedAtChars ++ [a_i])
  else Ok unHintedAtChars.

(** [slices.Index]: the first index of [c], if any. *)
Definition slices_Index (l : list ascii) (c : ascii) : option nat :=
  fst <$> list_find (λ x, x = c) l.

(** Third loop: [slices.Contains], then [slices.Index] and
    [slices.Remove(s, j, j+1)]. *)
Definition New_yellows (guess : list ascii) (i : nat)
    (st : t * list ascii) : result (t * list ascii) :=
  let '(h, unHintedAtChars) := st in
  s_i ← load (sequence h) i;
  if decide (s_i = 2) then Ok st
  else
    c ← load guess i;
    match slices_Index unHintedAtChars c with
    | Some j =>
        s ← store (sequence h) i 1;
        Ok (with_sequence h s, delete j unHintedAtChars)
    | None => Ok st
    end.

Definition New (guess answer : string) : result t :=
  let g := bytes guess in
  let a := bytes answer in
  h ← for_range (λ _ i h, New_greens g a i h) 0 (seq 0 5) zero;
  unHintedAtChars ← for_range (λ _ i u, New_unhinted a h i u) 0 (seq 0 5) [];
  st ← for_range (λ _ i st, New_yellows g i st) 0 (seq 0 5) (h, unHintedAtChars);
  Ok st.1.

End hint.

(** *** Reference definitions for the feedback codec *)

(** A string of single-byte characters: every byte is below [0x80], so
    that every rune is one byte and every byte offset a letter position. *)
Definition single_byte (s : string) : Prop :=
  Forall (λ c, nat_of_ascii c < 128) (bytes s).

#[global] Instance single_byte_dec s : Decision (single_byte s).
Proof. unfold single_byte. apply _. Defined.

(** What one position of [charHints] ends up holding, for single-byte
    characters: [ch] is the letter of the guess, [a_i] that of the answer. *)
Definition tag_of (answer : list ascii) (ch a_i : ascii) : Z :=
  if decide (a_i = ch) then 2%Z
  else if bool_decide (ch ∈ answer) then 1%Z else 0%Z.

(** On single-byte characters [getHint] panics exactly when the guess is
    longer than the answer, or a letter of the guess past position 4 occurs
    in the answer. *)
Definition getHint_panics (guess answer : string) : bool :=
  bool_decide (String.length answer < String.length guess)
  || existsb (λ ch, bool_decide (ch ∈ bytes answer)) (drop 5 (bytes guess)).

(** The tags [getHint] computes on single-byte characters when it does not
    panic: positions past the end of a short guess stay 0. *)
Definition getHint_tags (guess answer : string) : list Z :=
  zip_with (tag_of (bytes answer)) (take 5 (bytes guess)) (bytes answer)
  ++ replicate (5 - String.length guess) 0%Z.

(** The code [getHint] returns, 0 standing in where it panics. *)
Definition getHint_code (guess answer : string) : Z :=
  match getHint guess answer with
  | Ok h => h
  | Panic _ => 0%Z
  end.

(** The base-3 value of a tag sequence, position 0 most significant:
    the sum of [tag[i] * 3^(4-i)]. *)
Definition base3_sum (tags : list Z) : Z :=
  foldr Z.add 0%Z (imap (λ i t, t * 3 ^ Z.of_nat (4 - i))%Z tags).

(** *** Reference definitions for the two filtering paths *)

(** The number of positions 0..4 of [w] that hold [c]. *)
Definition count5 (w : list ascii) (c : ascii) : nat :=
  length (filter (λ i, w !! i = Some c) (seq 0 5)).

Definition holds (w : list ascii) (c : ascii) (pos : nat) : bool :=
  bool_decide (w !! pos = Some c).

(** What [WordSatisfiesConstraints] checks for one letter. *)
Definition satisfies (w : list ascii) (c : ascii) (info : LetterInfo) : bool :=
  (if FrequencyIsExact info then bool_decide (count5 w c = Frequency info)
   else bool_decide (Frequency info ≤ count5 w c))
  && forallb (holds w c) (MustBeInPositions info)
  && forallb (λ pos, negb (holds w c pos)) (CantBeInPositions info).

(** What [TestLetterConstraint] checks. *)
Definition tests (w : list ascii) (c : ascii) (info : LetterInfo) : bool :=
  (if decide (Frequency info = 0) then bool_decide (count5 w c = 0)
   else if FrequencyIsExact info then bool_decide (count5 w c = Frequency info)
   else bool_decide (Frequency info ≤ count5 w c))
  && forallb (holds w c) (MustBeInPositions info)
  && forallb (λ pos, negb (holds w c pos)) (CantBeInPositions info).

(** The positions of a [LetterInfo] are positions of a 5-letter word. *)
Definition in_range (info : LetterInfo) : Prop :=
  Forall (λ pos, pos < 5) (MustBeInPositions info)
  ∧ Forall (λ pos, pos < 5) (CantBeInPositions info).

(** *** [AnalyzeWordle], one letter at a time

    What the passes of [AnalyzeWordle] do to the entry of one letter [c]
    depends on the guess and the target only through the positions that
    hold [c]: [gp] and [tp] say, for positions 0..4, whether the guess and
    the target hold [c] there.  The state of the letter is its [LetterInfo]
    and its [usedInstances] counter. *)

(** The entry and the counter of letter [c] in a state of [AnalyzeWordle]. *)
Definition view (st : analysis_state) (c : ascii) : LetterInfo * nat :=
  (info_at st.1 c, count_at st.2 c).

Definition first_local (i : nat) (v : LetterInfo * nat) : LetterInfo * nat :=
  let '(info, used) := v in
  ({| MustBeInPositions := MustBeInPositions info ++ [i];
      CantBeInPositions := CantBeInPositions info;
      Frequency := Frequency info `max` S used;
      FrequencyIsExact := FrequencyIsExact info |}, S used).

Definition second_local (targetCount i : nat) (v : LetterInfo * nat)
    : LetterInfo * nat :=
  let '(info, used) := v in
  if decide (targetCount = 0) then
    ({| MustBeInPositions := MustBeInPositions info;
        CantBeInPositions := CantBeInPositions info;
        Frequency := 0;
        FrequencyIsExact := true |}, used)
  else if decide (used < targetCount) then
    ({| MustBeInPositions := MustBeInPositions info;
        CantBeInPositions := CantBeInPositions info ++ [i];
        Frequency := Frequency info `max` S used;
        FrequencyIsExact := FrequencyIsExact info |}, S used)
  else
    ({| MustBeInPositions := MustBeInPositions info;
        CantBeInPositions := CantBeInPositions info ++ [i];
        Frequency := targetCount;
        FrequencyIsExact := true |}, used).

Definition letter_first (gp tp : nat → bool) (v : LetterInfo * nat)
    (i : nat) : LetterInfo * nat :=
  if gp i && tp i then first_local i v else v.

Definition letter_second (targetCount : nat) (gp tp : nat → bool)
    (v : LetterInfo * nat) (i : nat) : LetterInfo * nat :=
  if gp i && negb (tp i) then second_local targetCount i v else v.

Definition letter_info (gp tp : nat → bool) : LetterInfo :=
  let targetCount := length (filter (λ i, tp i = true) (seq 0 5)) in
  let v := foldl (letter_first gp tp) (LetterInfo_zero, 0) (seq 0 5) in
  let v := foldl (letter_second targetCount gp tp) v (seq 0 5) in
  AnalyzeWordle_mark v.1.

(** The 32 ways in which five positions can hold a letter. *)
Definition patterns : list (list bool) :=
  b0 ← [false; true]; b1 ← [false; true]; b2 ← [false; true];
  b3 ← [false; true]; b4 ← [false; true]; [[b0; b1; b2; b3; b4]].

Definition pattern_at (p : list bool) (i : nat) : bool := p !!! i.

Definition pattern_of (f : nat → bool) : list bool := f <$> seq 0 5.

Definition pattern_count (p : list bool) : nat :=
  length (filter (λ b, b = true) p).

(** The bitset the table holds for a letter and an entry: bit [j] says
    that word [j] passes [TestLetterConstraint]. *)
Definition bits_ok (words : list string) (bv : Bitvector.t)
    (letter : ascii) (info : LetterInfo) : Prop :=
  ∀ j, bit (Bitvector.Bytes bv) j = true
       ↔ ∃ w, words !! j = Some w ∧ tests (bytes w) letter info = true.

(** What is asked of an entry: it is in the table, it is its own
    canonical form, its positions are in range, and a frequency 0 is
    exact. *)
Definition entry_ok (info : LetterInfo) : bool :=
  bool_decide (info ∈ GenerateAllLetterInfos)
  && forallb (λ pos, bool_decide (pos < 5)) (MustBeInPositions info)
  && forallb (λ pos, bool_decide (pos < 5)) (CantBeInPositions info)
  && (negb (bool_decide (Frequency info = 0)) || FrequencyIsExact info).

(** The words that pass every letter constraint of an analysis. *)
Definition passes (w : WordleAnalysis) (word : string) : Prop :=
  map_Forall (λ c info, satisfies (bytes word) c info = true) (LetterInfos w).

(** A word as the data model has it: five lowercase letters. *)
Definition lowercase_word (w : string) : Prop :=
  String.length w = 5 ∧ Forall (λ ch, ch ∈ letters) (bytes w).

(** *** Reference definitions for the guess-pair search *)

Definition share_letter (g1 g2 : string) : Prop :=
  Exists (λ ch, ch ∈ bytes g2) (bytes g1).

(** The pairs [(i, j)], [i < j], of guesses without a common letter, in
    the order of the two loops. *)
Definition disjoint_from (filteredGuesses : list string) (i : nat)
    (js : list nat) : list (string * string) :=
  j ← js;
  if decide (share_letter (filteredGuesses !!! i) (filteredGuesses !!! j))
  then [] else [(filteredGuesses !!! i, filteredGuesses !!! j)].

Definition disjoint_pairs (filteredGuesses : list string)
    : list (string * string) :=
  let n := length filteredGuesses in
  i ← seq 0 (n - 1);
  disjoint_from filteredGuesses i (seq (i + 1) (n - (i + 1))).

(** The pairs without a common letter among the rounds that the
    goroutines [start], [start + 1], ... have left. *)
Fixpoint pending_pairs (filteredGuesses : list string) (start : nat)
    (pending : list (list nat)) : list (string * string) :=
  match pending with
  | [] => []
  | js :: pending' =>
      disjoint_from filteredGuesses start js
      ++ pending_pairs filteredGuesses (S start) pending'
  end.

(** What a run of rounds from state [st] comes to when [pairs] are the
    pairs without a common letter among them: the calls to the scoring
    function are these pairs, in order, unless the scoring function panics
    on one of them, and then the run panics. *)
Definition rounds_result {V} (score : string → string → result V)
    (st : @search V) (pairs : list (string * string))
    (r : result (@search V)) : Prop :=
  match r with
  | Ok st' => scored st' = scored st ++ pairs
  | Panic _ => Exists (λ p, is_Ok (score p.1 p.2) = false) pairs
  end.

(** *** A small vocabulary for the examples *)

Definition example_words : list string :=
  ["crane"; "react"; "speed"; "abide"; "lofty"].

Definition example_index : gmap string GuessInfo :=
  match gm ← calculateHints example_words example_words ∅;
        calculateBitvecs example_words gm with
  | Ok gm => gm
  | Panic _ => ∅
  end.

(** *** Reference definitions for the bitsets *)

(** The indices below [n] whose bit is set. *)
Definition set_bits (Bytes : list Z) (n : nat) : list nat :=
  filter (λ j, bit Bytes j = true) (seq 0 n).

(** The bitsets a program can build: from [NewBitvector], by [Set] and
    by [And]. *)
Inductive Bitvector_built : Bitvector.t → Prop :=
| Bitvector_built_New size : Bitvector_built (Bitvector.New size)
| Bitvector_built_Set bv i bv' :
    Bitvector_built bv → Bitvector.Set_ bv i = Ok bv' → Bitvector_built bv'
| Bitvector_built_And bv other :
    Bitvector_built bv → Bitvector_built other →
    Bitvector_built (Bitvector.And bv other).

Inductive Bitvec_built : Bitvec.t → Prop :=
| Bitvec_built_New size : Bitvec_built (Bitvec.New size)
| Bitvec_built_Set bv i bv' :
    Bitvec_built bv → Bitvec.Set_ bv i = Ok bv' → Bitvec_built bv'
| Bitvec_built_And bv other :
    Bitvec_built bv → Bitvec_built other →
    Bitvec_built (Bitvec.And bv other).

(** *** [Hint.ColoredWord] (later revision of [api/wordle.go]) *)

(** The ANSI escape sequences; ["027"] is the escape character. *)
Definition reset : string := String "027" "[0m".
Definition grayBg : string :=
  String "027" "[48;5;236m" +:+ String "027" "[38;5;255m".
Definition yellowBg : string := String "027" "[43m" +:+ String "027" "[30m".
Definition greenBg : string := String "027" "[42m" +:+ String "027" "[30m".

(** The [switch digits[i]] has no default: another digit writes no colour. *)
Definition ColoredWord_colour (d : Z) : string :=
  if decide (d = 0%Z) then grayBg
  else if decide (d = 1%Z) then yellowBg
  else if decide (d = 2%Z) then greenBg
  else String.EmptyString.

(** [utf8.AppendRune], the bytes that [strings.Builder.WriteRune] writes
    for a rune that [range] has yielded: the rune itself below [0x80], the
    two, three or four bytes of its UTF-8 form otherwise, and those of
    [RuneError] for a surrogate and past [0x10FFFF]. *)
Definition AppendRune (r : Z) : list Z :=
  if (r <=? 0x7F)%Z then [r]
  else if (r <=? 0x7FF)%Z then
    [Z.lor 0xC0 (Z.shiftr r 6); Z.lor 0x80 (Z.land r 0x3F)]
  else if (0x10FFFF <? r)%Z || ((0xD800 <=? r)%Z && (r <=? 0xDFFF)%Z) then
    [0xEF; 0xBF; 0xBD]%Z
  else if (r <=? 0xFFFF)%Z then
    [Z.lor 0xE0 (Z.shiftr r 12);
     Z.lor 0x80 (Z.land (Z.shiftr r 6) 0x3F);
     Z.lor 0x80 (Z.land r 0x3F)]
  else
    [Z.lor 0xF0 (Z.shiftr r 18);
     Z.lor 0x80 (Z.land (Z.shiftr r 12) 0x3F);
     Z.lor 0x80 (Z.land (Z.shiftr r 6) 0x3F);
     Z.lor 0x80 (Z.land r 0x3F)].

Definition WriteRune (r : Z) : string :=
  String.string_of_list_ascii ((λ b, ascii_of_nat (Z.to_nat b)) <$> AppendRune r).

(** [for i, char := range word]: [i] is the byte offset of the rune
    [char]; a round appends the colour of [digits[i]], the rune, a space
    and the reset sequence. *)
Definition ColoredWord (h : Z) (word : string) : result string :=
  if decide (String.length word ≠ 5) then Ok word
  else
    let digits := ColoredWord_digits h in
    range_string (λ i char result,
                    d ← load digits i;
                    Ok (result +:+ ColoredWord_colour d
                               +:+ WriteRune char +:+ " " +:+ reset))
                 (bytes word) String.EmptyString.

(** What a round appends for a single-byte character. *)
Definition ColoredWord_block (d : Z) (char : ascii) : string :=
  ColoredWord_colour d +:+ String char " " +:+ reset.

(** *** Reference definitions for the scoring loops *)

(** Answer [a] gives every guess of [guesses] the feedback that [answer]
    gives: after these guesses, [a] is still a candidate. *)
Definition consistent (guesses : list string) (answer a : string) : Prop :=
  Forall (λ g, getHint g a = getHint g answer) guesses.

#[global] Instance consistent_dec guesses answer a :
  Decision (consistent guesses answer a).
Proof. unfold consistent. apply _. Defined.

(** The number of answers that remain candidates. *)
Definition remaining (answers guesses : list string) (answer : string) : nat :=
  length (filter (consistent guesses answer) answers).

(** *** Reference definition for the result of the search *)

(** The running best of a search state is the value of the recorded pair,
    the pair is among the scored ones, and no scored pair has a smaller
    value. *)
Definition best_so_far {V} (score : string → string → result V)
    (less : V → V → bool) (st : search) : Prop :=
  score (bestGuess1 st) (bestGuess2 st) = Ok (bestGuessVal st)
  ∧ (bestGuess1 st, bestGuess2 st) ∈ scored st
  ∧ ∀ g1 g2 v, (g1, g2) ∈ scored st → score g1 g2 = Ok v →
               less v (bestGuessVal st) = false.

(** *** Reference definition for [hint.New] *)

(** The positions 0..4 at which guess and answer hold the same byte, with
    that byte, in increasing order. *)
Definition matching_greens (guess answer : list ascii) : list hint.Green :=
  omap (λ i, match guess !! i, answer !! i with
             | Some g_i, Some a_i =>
                 if decide (g_i = a_i)
                 then Some {| hint.Green_char := g_i; hint.idx := i |}
                 else None
             | _, _ => None
             end) (seq 0 5).

(** *** More of [precompute.go] *)

(** [LetterInfo.Hash]: the first 8 bytes of the SHA-256 of the canonical
    string, kept, like [LetterConstraintKey.Hash], as the content it is
    computed from. *)
Definition LetterInfo_Hash (l : LetterInfo) : list nat * list nat * nat * bool :=
  Canonical l.

Definition InTarget (l : LetterInfo) : bool := bool_decide (0 < Frequency l).

(** [!slices.Contains(l.CantBeInPositions, pos)] *)
Definition CouldBeInPosition (l : LetterInfo) (pos : nat) : bool :=
  negb (bool_decide (pos ∈ CantBeInPositions l)).

Definition PossiblePositions (l : LetterInfo) : list nat :=
  filter (λ pos, CouldBeInPosition l pos = true) (seq 0 5).

(** The loop of [PrecomputeMain] that fills [hashToIndex]:
    [for i, info := range allInfos { hashToIndex[info.Hash()] = i }]. *)
Definition PrecomputeMain_hashToIndex (allInfos : list LetterInfo)
    : gmap (list nat * list nat * nat * bool) nat :=
  foldl (λ hashToIndex '(i, info), <[LetterInfo_Hash info := i]> hashToIndex)
        ∅ (imap pair allInfos).

(** A list of positions of a 5-letter word, in increasing order. *)
Definition ascending (l : list nat) : Prop :=
  StronglySorted lt l ∧ Forall (λ pos, pos < 5) l.

#[global] Instance ascending_dec l : Decision (ascending l).
Proof. unfold ascending. apply _. Defined.

(** The positions that a pattern marks. *)
Definition pattern_positions (p : list bool) : list nat :=
  filter (λ i, pattern_at p i = true) (seq 0 5).

(** *** Reference definitions for the analysis of a guess *)

(** The positions 0..4 at which the guess holds [c] and the target does
    ([green_positions]) or does not ([other_positions]). *)
Definition green_positions (g t : nat → bool) : list nat :=
  filter (λ i, g i && t i = true) (seq 0 5).

Definition other_positions (g t : nat → bool) : list nat :=
  filter (λ i, g i && negb (t i) = true) (seq 0 5).

(** What [WordSatisfiesConstraints] asks of a word whose positions of the
    letter are [tp]. *)
Definition pattern_satisfies (tp : list bool) (info : LetterInfo) : bool :=
  (if FrequencyIsExact info then bool_decide (pattern_count tp = Frequency info)
   else bool_decide (Frequency info ≤ pattern_count tp))
  && forallb (pattern_at tp) (MustBeInPositions info)
  && forallb (λ pos, negb (pattern_at tp pos)) (CantBeInPositions info).

(** Every occurrence of the letter in the guess is a correct position,
    and the target holds the letter more often than the guess. *)
Definition undercounted (g t : nat → bool) (gcount tcount : nat) : bool :=
  bool_decide (length (green_positions g t) = gcount)
  && bool_decide (gcount < tcount).

(** ** [MinBy] ([utils.go])

    One goroutine per element computes the element's key and then, under
    the mutex, replaces the running minimum if its key is smaller.  The
    key function is pure, and each iteration has its own [key] variable
    (the module uses range-over-int loops, so it is compiled with the
    per-iteration semantics of Go 1.22): what the function returns is fixed
    by the order in which the goroutines take the mutex, the [schedule], a
    permutation of the slice. *)
Section MinBy.
Context {T K : Type}.
Variable zero : T.
Variable keyFunc : T → K.
Variable less : K → K → bool.

(** The critical section of the goroutine of [key]; the state is
    [(minKey, minVal)]. *)
Definition MinBy_update (st : T * K) (key : T) : T * K :=
  let val := keyFunc key in
  if less val st.2 then (key, val) else st.

Definition MinBy (slice schedule : list T) : T :=
  match slice with
  | [] => zero
  | minKey :: _ => (foldl MinBy_update (minKey, keyFunc minKey) schedule).1
  end.

End MinBy.

(** ** The CUDA solver ([wordle_solver.cu]): the device function [getHint]

    The words are C strings of 5 characters ([loadWords] keeps the lines
    of length [WORD_LENGTH] only), so every read [guess[i]], [answer[j]]
    with an index 0..4 is in bounds; [charHints] is an array of 5
    [unsigned char]. *)
Section cuda_getHint.
Variable guess answer : list ascii.

Definition cuda_byte (w : list ascii) (i : nat) : ascii :=
  default "000"%char (w !! i).

(** [guess[i] == answer[j]] *)
Definition cuda_match (i j : nat) : bool :=
  bool_decide (cuda_byte guess i = cuda_byte answer j).

(** First loop: the exact matches. *)
Definition cuda_greens : list Z :=
  foldl (λ charHints i,
           if cuda_match i i then <[i := 2%Z]> charHints else charHints)
        (replicate 5 0%Z) (seq 0 5).

(** The loop over [k < i] that looks for an earlier Present of the same
    letter and breaks at the first. *)
Definition cuda_alreadyUsed (charHints : list Z) (i : nat) : bool :=
  existsb (λ k, bool_decide (charHints !!! k = 1%Z)
                && bool_decide (cuda_byte guess k = cuda_byte guess i))
          (seq 0 i).

(** The loop over [j]; it breaks when it has set [charHints[i] = 1]. *)
Fixpoint cuda_scan (charHints : list Z) (i : nat) (js : list nat) : list Z :=
  match js with
  | [] => charHints
  | j :: js' =>
      if bool_decide (i ≠ j) && bool_decide (charHints !!! j ≠ 2%Z)
         && cuda_match i j
      then
        if cuda_alreadyUsed charHints i then cuda_scan charHints i js'
        else <[i := 1%Z]> charHints
      else cuda_scan charHints i js'
  end.

(** Second loop: the wrong-position matches. *)
Definition cuda_yellows (charHints : list Z) : list Z :=
  foldl (λ charHints i,
           if bool_decide (charHints !!! i = 0%Z)
           then cuda_scan charHints i (seq 0 5) else charHints)
        charHints (seq 0 5).

Definition cuda_charHints : list Z := cuda_yellows cuda_greens.

(** Third loop: the same base-3 encoding, on an [unsigned char]. *)
Definition cuda_getHint : Z := getHint_encode cuda_charHints.

(** Some other position holds the letter of [guess[i]] in the answer
    without being an exact match. *)
Definition cuda_available (i : nat) : bool :=
  existsb (λ j, bool_decide (i ≠ j) && negb (cuda_match j j) && cuda_match i j)
          (seq 0 5).

(** The tag of position [i] once the second loop has passed the
    positions below [n]. *)
Definition cuda_tag (tags : list Z) (n i : nat) : Z :=
  if cuda_match i i then 2%Z
  else if bool_decide (i < n) && cuda_available i
          && negb (cuda_alreadyUsed tags i)
       then 1%Z else 0%Z.

End cuda_getHint.

(** What the second loop of the CUDA [getHint] keeps: when it has passed
    the positions below [n], every position holds its tag. *)
Definition cuda_inv (guess answer : list ascii) (n : nat) (h : list Z) : Prop :=
  length h = 5 ∧ ∀ i, i < 5 → h !!! i = cuda_tag guess answer h n i.

(** * Properties *)

(** ** The error monad and [for_range] *)

Lemma bind_Ok {A B} (x : A) (f : A → result B) : Ok x ≫= f = f x.
Proof. done. Qed.

Lemma for_range_app {A St} (body : nat → A → St → result St) l1 l2 i s :
  for_range body i (l1 ++ l2) s
  = s' ← for_range body i l1 s; for_range body (i + length l1) l2 s'.
Proof.
  revert i s. induction l1 as [|x l1 IH]; intros i s; simpl.
  - by rewrite Nat.add_0_r.
  - destruct (body i x s) as [s'|e]; simpl; [|done].
    rewrite IH. by replace (S i + length l1) with (i + S (length l1)) by lia.
Qed.

Lemma for_range_shift {A St} (body : A → St → result St) l i j s :
  for_range (λ _, body) i l s = for_range (λ _, body) j l s.
Proof.
  revert i j s. induction l as [|x l IH]; intros i j s; simpl; [done|].
  destruct (body x s); simpl; [apply IH|done].
Qed.

Lemma for_each_cons {A St} (body : A → St → result St) x l s :
  for_each body (x :: l) s = s' ← body x s; for_each body l s'.
Proof.
  unfold for_each. simpl. destruct (body x s); simpl; [|done].
  apply for_range_shift.
Qed.

Definition to_option {A} (r : result A) : option A :=
  match r with Ok a => Some a | Panic _ => None end.

(** A loop over a map whose body never panics updates every entry. *)
Lemma for_map_Ok `{Countable K} {A} (body : K → A → result A) (m : gmap K A) :
  (∀ k a, m !! k = Some a → is_Ok (body k a) = true) →
  ∃ m', for_map body m = Ok m'
        ∧ ∀ k, m' !! k = m !! k ≫= λ a, to_option (body k a).
Proof.
  unfold for_map.
  apply (map_fold_weak_ind (λ r m,
    (∀ k a, m !! k = Some a → is_Ok (body k a) = true) →
    ∃ m', r = Ok m' ∧ ∀ k, m' !! k = m !! k ≫= λ a, to_option (body k a))).
  - intros _. exists ∅. split; [done|]. intros k. by rewrite !lookup_empty.
  - intros i x m0 r Hi IH Hok.
    destruct IH as (m' & -> & Hm').
    { intros k a Hk. apply Hok. rewrite lookup_insert_ne; [done|congruence]. }
    specialize (Hok i x (lookup_insert_eq _ _ _)).
    destruct (body i x) as [a'|] eqn:Hbody; [|done].
    exists (<[i := a']> m'). split; [done|].
    intros k. destruct (decide (i = k)) as [->|Hne].
    + by rewrite !lookup_insert_eq; simpl; rewrite Hbody.
    + by rewrite !lookup_insert_ne.
Qed.

Lemma for_range_ext {A St} (body body' : nat → A → St → result St) i l s :
  (∀ k x s, l !! k = Some x → body (i + k) x s = body' (i + k) x s) →
  for_range body i l s = for_range body' i l s.
Proof.
  revert i s. induction l as [|x l IH]; intros i s Hext; simpl; [done|].
  specialize (Hext 0 x s eq_refl) as H0. rewrite Nat.add_0_r in H0.
  rewrite H0. destruct (body' i x s) as [s'|]; simpl; [|done].
  apply IH. intros k y s0 Hk.
  replace (S i + k) with (i + S k) by lia. by apply Hext.
Qed.

(** A loop whose rounds keep an invariant, only extend the state, and
    each establish a fact that extensions preserve. *)
Lemma for_each_inv {A St} (body : A → St → result St)
    (Inv : St → Prop) (ext : St → St → Prop) (Post : A → St → Prop) l s :
  (∀ s, ext s s) →
  (∀ s1 s2 s3, ext s1 s2 → ext s2 s3 → ext s1 s3) →
  (∀ x s s', Post x s → ext s s' → Post x s') →
  (∀ x s, x ∈ l → Inv s →
     ∃ s', body x s = Ok s' ∧ Inv s' ∧ ext s s' ∧ Post x s') →
  Inv s →
  ∃ s', for_each body l s = Ok s' ∧ Inv s' ∧ ext s s'
        ∧ ∀ x, x ∈ l → Post x s'.
Proof.
  intros Hrefl Htrans Hstable. revert s.
  induction l as [|x l IH]; intros s Hstep Hinv.
  - exists s. split; [done|]. split; [done|]. split; [done|].
    intros x Hx. by apply elem_of_nil in Hx.
  - rewrite for_each_cons.
    destruct (Hstep x s ltac:(set_solver) Hinv) as (s1 & -> & Hinv1 & Hext1 & Hpost1).
    rewrite bind_Ok.
    destruct (IH s1) as (s' & Hrun & Hinv' & Hext' & Hpost'); [|done|].
    { intros y s0 Hy. apply Hstep. set_solver. }
    exists s'. split; [done|]. split; [done|]. split; [by eapply Htrans|].
    intros y [->|Hy]%elem_of_cons; [by eapply Hstable|by apply Hpost'].
Qed.

Lemma load_Ok {A} (l : list A) i x : l !! i = Some x → load l i = Ok x.
Proof. unfold load. by intros ->. Qed.

Lemma length_bytes s : length (bytes s) = String.length s.
Proof. unfold bytes. induction s; simpl; congruence. Qed.

(** ** Strings: runes and single-byte characters *)

Lemma byte_val_range c : (0 ≤ byte_val c < 256)%Z.
Proof. unfold byte_val. pose proof (nat_ascii_bounded c). lia. Qed.

Lemma byte_val_inj c c' : byte_val c = byte_val c' → c = c'.
Proof.
  unfold byte_val. intros Heq%Nat2Z.inj.
  rewrite <- (ascii_nat_embedding c), <- (ascii_nat_embedding c'). congruence.
Qed.

Lemma uint8_byte_val c : uint8 (byte_val c) = byte_val c.
Proof. unfold uint8. apply Z.mod_small, byte_val_range. Qed.

Lemma decoderune_single_byte c t :
  nat_of_ascii c < 128 → decoderune (byte_val c :: t) = (byte_val c, 1).
Proof.
  intros Hc. unfold decoderune.
  assert ((byte_val c <? 0x80)%Z = true) as ->; [|done].
  apply Z.ltb_lt. unfold byte_val. lia.
Qed.

(** Over single-byte characters [range] visits every byte, the rune
    being the byte. *)
Lemma range_string_from_single_byte {St} (body : nat → Z → St → result St)
    i s st :
  Forall (λ c, nat_of_ascii c < 128) s →
  range_string_from body i 0 s st
  = for_range (λ i c, body i (byte_val c)) i s st.
Proof.
  intros Hs. revert i st. induction Hs as [|c s Hc Hs IH]; intros i st; [done|].
  cbn [range_string_from for_range fmap list_fmap].
  rewrite (decoderune_single_byte _ _ Hc).
  destruct (body i (byte_val c) st) as [st'|]; [|done].
  rewrite !bind_Ok. apply IH.
Qed.

Lemma runes_single_byte s :
  Forall (λ c, nat_of_ascii c < 128) s → runes s = byte_val <$> s.
Proof.
  unfold runes. induction 1 as [|c s Hc Hs IH]; [done|].
  cbn [runes_from fmap list_fmap].
  rewrite (decoderune_single_byte _ _ Hc). cbn [fmap list_fmap] in IH.
  by rewrite <- IH.
Qed.

Lemma ContainsRune_single_byte s c :
  Forall (λ c, nat_of_ascii c < 128) s →
  ContainsRune s (byte_val c) = bool_decide (c ∈ s).
Proof.
  intros Hs. unfold ContainsRune. rewrite (runes_single_byte _ Hs).
  apply bool_decide_ext. rewrite list_elem_of_fmap. split.
  - by intros (c' & ->%byte_val_inj & Hin).
  - intros Hin. by exists c.
Qed.

(** A loop over a string keeps an invariant that every round keeps; the
    offsets of the rounds are offsets of the string. *)
Lemma range_string_from_inv {St} (P : St → Prop)
    (body : nat → Z → St → result St) i skip s st :
  P st →
  (∀ k ch st, i ≤ k < i + length s → P st →
     ∃ st', body k ch st = Ok st' ∧ P st') →
  ∃ st', range_string_from body i skip s st = Ok st' ∧ P st'.
Proof.
  revert i skip st. induction s as [|c s IH]; intros i skip st HP Hbody.
  - by exists st.
  - cbn [range_string_from]. destruct skip as [|skip].
    + destruct (decoderune (byte_val <$> c :: s)) as [ch size].
      destruct (Hbody i ch st) as (st1 & -> & HP1); [simpl; lia|done|].
      rewrite bind_Ok. apply IH; [done|].
      intros k ch' st' Hk. apply Hbody. simpl. lia.
    + apply IH; [done|]. intros k ch' st' Hk. apply Hbody. simpl. lia.
Qed.

(** ** [getHint] *)

Lemma tag_of_nonzero answer ch a_i :
  a_i ∈ answer → tag_of answer ch a_i ≠ 0%Z → ch ∈ answer.
Proof.
  unfold tag_of. intros Hin.
  destruct (decide (a_i = ch)) as [<-|]; [done|].
  case_bool_decide; done.
Qed.

(** One round of the first loop on a single-byte character. *)
Lemma getHint_body_Some answer i ch st a_i :
  Forall (λ c, nat_of_ascii c < 128) answer →
  answer !! i = Some a_i →
  getHint_body answer i (byte_val ch) st
  = if decide (a_i = ch) then store st i 2%Z
    else if bool_decide (ch ∈ answer) then store st i 1%Z else Ok st.
Proof.
  intros Ha H. unfold getHint_body, load. rewrite H, bind_Ok.
  rewrite uint8_byte_val, (ContainsRune_single_byte _ _ Ha).
  destruct (decide (a_i = ch)) as [->|Hne].
  - by rewrite decide_True.
  - rewrite decide_False; [done|]. by intros ?%byte_val_inj.
Qed.

Lemma getHint_body_None answer i ch st :
  answer !! i = None → getHint_body answer i ch st = Panic IndexOutOfRange.
Proof. intros H. unfold getHint_body, load. by rewrite H. Qed.

(** The loop on the first five positions fills [charHints] from the left. *)
Lemma getHint_loop_fill answer rest i pre :
  Forall (λ c, nat_of_ascii c < 128) answer →
  length pre = i → i + length rest ≤ 5 → i + length rest ≤ length answer →
  for_range (λ i c, getHint_body answer i (byte_val c)) i rest
    (pre ++ replicate (5 - i) 0%Z)
  = Ok (pre ++ zip_with (tag_of answer) rest (drop i answer)
            ++ replicate (5 - i - length rest) 0%Z).
Proof.
  intros Hsb.
  revert i pre. induction rest as [|ch rest IH]; intros i pre Hpre H5 Ha; simpl.
  - by rewrite Nat.sub_0_r.
  - simpl in H5, Ha.
    destruct (lookup_lt_is_Some_2 answer i) as [a_i Hi]; [lia|].
    rewrite (drop_S _ _ _ Hi). simpl.
    rewrite (getHint_body_Some _ _ _ _ _ Hsb Hi).
    assert (Hst : ∀ v, store (pre ++ replicate (5 - i) 0%Z) i v
                       = Ok ((pre ++ [v]) ++ replicate (5 - S i) 0%Z)).
    { intros v. unfold store. rewrite decide_True.
      2:{ rewrite length_app, length_replicate. lia. }
      f_equal. replace (5 - i) with (S (5 - S i)) by lia. simpl.
      rewrite insert_app_r_alt by lia.
      replace (i - length pre) with 0 by lia. simpl.
      by rewrite <- app_assoc. }
    assert (Hkeep : pre ++ replicate (5 - i) 0%Z
                    = (pre ++ [0%Z]) ++ replicate (5 - S i) 0%Z).
    { replace (5 - i) with (S (5 - S i)) by lia. simpl.
      by rewrite <- app_assoc. }
    assert (Hnext : ∀ v,
      for_range (λ i c, getHint_body answer i (byte_val c)) (S i) rest
        ((pre ++ [v]) ++ replicate (5 - S i) 0%Z)
      = Ok (pre ++ v :: zip_with (tag_of answer) rest (drop (S i) answer)
                ++ replicate (5 - i - S (length rest)) 0%Z)).
    { intros v. rewrite IH; [|rewrite length_app; simpl; lia|lia|lia].
      rewrite <- app_assoc. cbn [app].
      by replace (5 - S i - length rest) with (5 - i - S (length rest)) by lia. }
    unfold tag_of at 1.
    destruct (decide (a_i = ch)); [by rewrite Hst; simpl|].
    destruct (bool_decide (ch ∈ answer)); [by rewrite Hst; simpl|].
    simpl. by rewrite Hkeep.
Qed.

(** Every panic of the loop is an index out of range, and a guess longer
    than the answer always reaches one. *)
Lemma getHint_loop_short answer rest i st :
  Forall (λ c, nat_of_ascii c < 128) answer →
  i ≤ length answer → length answer < i + length rest →
  for_range (λ i c, getHint_body answer i (byte_val c)) i rest st
  = Panic IndexOutOfRange.
Proof.
  intros Hsb. revert i st.
  induction rest as [|ch rest IH]; intros i st Hi0 Hlen; simpl in *.
  - lia.
  - destruct (answer !! i) as [a_i|] eqn:Hi;
      [rewrite (getHint_body_Some _ _ _ _ _ Hsb Hi)
      |by rewrite (getHint_body_None _ _ _ _ Hi)].
    pose proof (lookup_lt_Some _ _ _ Hi) as Hlt.
    assert (Hgo : ∀ v,
              store st i v
                ≫= for_range (λ i c, getHint_body answer i (byte_val c))
                             (S i) rest
              = Panic IndexOutOfRange).
    { intros v. unfold store. case_decide; simpl; [|done]. apply IH; lia. }
    destruct (decide (a_i = ch)); [apply Hgo|].
    destruct (bool_decide (ch ∈ answer)); [apply Hgo|].
    simpl. apply IH; lia.
Qed.

(** Past position 4 the array cannot be written: the loop survives only
    the letters that do not occur in the answer. *)
Lemma getHint_loop_beyond answer rest i st :
  Forall (λ c, nat_of_ascii c < 128) answer →
  5 ≤ i → length st = 5 → i + length rest ≤ length answer →
  for_range (λ i c, getHint_body answer i (byte_val c)) i rest st
  = if existsb (λ ch, bool_decide (ch ∈ answer)) rest
    then Panic IndexOutOfRange else Ok st.
Proof.
  intros Hsb.
  revert i. induction rest as [|ch rest IH]; intros i Hi Hst Hlen; simpl in *.
  - done.
  - destruct (lookup_lt_is_Some_2 answer i) as [a_i Ha]; [lia|].
    rewrite (getHint_body_Some _ _ _ _ _ Hsb Ha).
    assert (Hfail : ∀ v, store st i v = Panic IndexOutOfRange).
    { intros v. unfold store. rewrite decide_False; [done|lia]. }
    destruct (decide (a_i = ch)) as [->|Hne].
    + rewrite Hfail. simpl.
      assert (bool_decide (ch ∈ answer) = true) as ->; [|done].
      apply bool_decide_eq_true. by eapply list_elem_of_lookup_2.
    + destruct (bool_decide (ch ∈ answer)); [by rewrite Hfail|].
      simpl. apply IH; lia.
Qed.

(** [getHint] on strings of single-byte characters. *)
Lemma getHint_charHints_spec guess answer :
  single_byte guess → single_byte answer →
  getHint_charHints guess answer
  = if getHint_panics guess answer then Panic IndexOutOfRange
    else Ok (getHint_tags guess answer).
Proof.
  intros Hsg Hsa.
  unfold getHint_charHints, range_string, getHint_panics, getHint_tags.
  rewrite (range_string_from_single_byte _ _ _ _ Hsg).
  rewrite <- !length_bytes.
  unfold single_byte in Hsa. revert Hsa.
  set (g := bytes guess). set (a := bytes answer). intros Hsa.
  case_bool_decide as Hlen; cbn [orb].
  { apply getHint_loop_short; [done|simpl; lia..]. }
  rewrite <- (take_drop 5 g) at 1. rewrite for_range_app.
  pose proof (getHint_loop_fill a (take 5 g) 0 [] Hsa) as Hfill.
  rewrite app_nil_l, drop_0, Nat.sub_0_r in Hfill.
  rewrite Hfill; [|done|rewrite length_take; lia..].
  rewrite bind_Ok, length_take, app_nil_l, Nat.add_0_l.
  destruct (decide (length g ≤ 5)) as [Hle|Hgt].
  - rewrite (drop_ge g) by lia.
    by replace (5 `min` length g) with (length g) by lia.
  - replace (5 `min` length g) with 5 by lia.
    rewrite getHint_loop_beyond; [|done|lia| |rewrite length_drop; lia].
    + by replace (5 - length g) with (5 - 5) by lia.
    + rewrite length_app, length_zip_with, length_take, length_replicate. lia.
Qed.

Lemma getHint_tags_5 guess answer :
  String.length guess = 5 → String.length answer = 5 →
  single_byte guess → single_byte answer →
  getHint_charHints guess answer
  = Ok (zip_with (tag_of (bytes answer)) (bytes guess) (bytes answer)).
Proof.
  intros Hg Ha Hsg Hsa. rewrite getHint_charHints_spec by done.
  unfold getHint_panics, getHint_tags.
  rewrite drop_ge by (rewrite length_bytes; lia).
  rewrite take_ge by (rewrite length_bytes; lia).
  rewrite bool_decide_eq_false_2 by lia. simpl.
  rewrite Hg. simpl. by rewrite app_nil_r.
Qed.

Lemma getHint_spec guess answer :
  single_byte guess → single_byte answer →
  getHint guess answer
  = if getHint_panics guess answer then Panic IndexOutOfRange
    else Ok (getHint_encode (getHint_tags guess answer)).
Proof.
  intros Hsg Hsa. unfold getHint. rewrite getHint_charHints_spec by done.
  by destruct (getHint_panics guess answer).
Qed.

(** On any two strings, a guess of at most five bytes that is not longer
    than the answer gets its five tags, each 0, 1 or 2. *)
Lemma getHint_charHints_Ok guess answer :
  String.length guess ≤ 5 → String.length guess ≤ String.length answer →
  ∃ tags,
    getHint_charHints guess answer = Ok tags
    ∧ length tags = 5
    ∧ Forall (λ t, t ∈ [0; 1; 2]%Z) tags.
Proof.
  rewrite <- !length_bytes. intros Hg Ha.
  unfold getHint_charHints, range_string.
  apply (range_string_from_inv
           (λ st, length st = 5 ∧ Forall (λ t, t ∈ [0; 1; 2]%Z) st)).
  - split; [done|]. repeat (apply Forall_cons_2; [set_solver|]).
    apply Forall_nil_2.
  - intros k ch st Hk [Hlen Hall]. unfold getHint_body.
    destruct (lookup_lt_is_Some_2 (bytes answer) k) as [a_k Hak]; [lia|].
    rewrite (load_Ok _ _ _ Hak), bind_Ok.
    assert (Hstore : ∀ v, v ∈ [0; 1; 2]%Z →
              ∃ st', store st k v = Ok st'
                     ∧ length st' = 5 ∧ Forall (λ t, t ∈ [0; 1; 2]%Z) st').
    { intros v Hv. unfold store. rewrite decide_True by lia.
      eexists. split; [done|]. rewrite length_insert. split; [done|].
      apply Forall_insert; done. }
    destruct (decide (byte_val a_k = uint8 ch)); [apply Hstore; set_solver|].
    destruct (ContainsRune (bytes answer) ch); [apply Hstore; set_solver|].
    by exists st.
Qed.

Lemma getHint_5_Ok guess answer :
  String.length guess = 5 → String.length answer = 5 →
  getHint guess answer = Ok (getHint_code guess answer).
Proof.
  intros Hg Ha. unfold getHint_code.
  destruct (getHint_charHints_Ok guess answer) as (tags & Htags & _); [lia..|].
  unfold getHint. by rewrite Htags.
Qed.

(** A letter is tagged at most as often as the guess holds it. *)
Lemma tagged_le_occurrences c g tags : tagged c g tags ≤ occurrences c g.
Proof.
  unfold tagged, occurrences. revert tags.
  induction g as [|x g IH]; intros [|t tags]; simpl; try lia.
  rewrite !filter_cons. simpl. specialize (IH tags).
  destruct (decide (x = c)).
  - case_decide; simpl; lia.
  - rewrite decide_False by tauto. lia.
Qed.

(** A letter that the answer does not hold is never tagged. *)
Lemma tagged_absent c g a a' :
  c ∉ a → a' ⊆ a → tagged c g (zip_with (tag_of a) g a') = 0.
Proof.
  intros Hc. unfold tagged. revert a'.
  induction g as [|x g IH]; intros [|y a'] Hsub; simpl; try done.
  rewrite filter_cons. simpl. rewrite decide_False.
  - apply IH. set_solver.
  - intros [-> Hnz]. apply Hc.
    eapply tag_of_nonzero; [|done]. set_solver.
Qed.

(** A letter that the answer holds is tagged wherever the guess has it. *)
Lemma tagged_present c g a a' :
  c ∈ a → length g ≤ length a' →
  tagged c g (zip_with (tag_of a) g a') = occurrences c g.
Proof.
  intros Hc. unfold tagged, occurrences. revert a'.
  induction g as [|x g IH]; intros [|y a'] Hlen; simpl in *; try done; try lia.
  rewrite !filter_cons. simpl. specialize (IH a' ltac:(lia)).
  destruct (decide (x = c)) as [->|Hne].
  - rewrite decide_True; [simpl; lia|]. split; [done|].
    unfold tag_of. destruct (decide (y = c)); [done|].
    by rewrite bool_decide_eq_true_2.
  - rewrite decide_False by tauto. done.
Qed.

Lemma occurrences_0 c w : occurrences c w = 0 ↔ c ∉ w.
Proof.
  unfold occurrences. induction w as [|x w IH]; simpl.
  - split; [set_solver|done].
  - rewrite filter_cons. destruct (decide (x = c)) as [->|]; simpl.
    + split; [lia|set_solver].
    + rewrite IH. set_solver.
Qed.

(** The digits of a code, whatever its five ternary tags are. *)
Lemma base3_roundtrip t0 t1 t2 t3 t4 :
  Forall (λ t, t ∈ [0; 1; 2]%Z) [t0; t1; t2; t3; t4] →
  let tags := [t0; t1; t2; t3; t4] in
  getHint_encode tags = base3_sum tags
  ∧ (0 ≤ base3_sum tags < 243)%Z
  ∧ ColoredWord_digits (base3_sum tags) = tags
  ∧ String_digits (base3_sum tags) = tags.
Proof.
  intros H. repeat (apply Forall_cons_1 in H as [? H]).
  repeat match goal with
         | H : _ ∈ _ :: _ |- _ => apply elem_of_cons in H as [->|H]
         | H : _ ∈ [] |- _ => by apply elem_of_nil in H
         end; vm_compute; intuition congruence.
Qed.

Lemma tag_of_elem answer ch a_i : tag_of answer ch a_i ∈ [0; 1; 2]%Z.
Proof. unfold tag_of. repeat case_match; set_solver. Qed.

Lemma bytes_length_5 s :
  String.length s = 5 → ∃ c0 c1 c2 c3 c4, bytes s = [c0; c1; c2; c3; c4].
Proof.
  rewrite <- length_bytes. generalize (bytes s). intros l Hl.
  do 5 (destruct l as [|? l]; [done|]). destruct l; [|done]. eauto 6.
Qed.

Lemma single_byte_decide (s : string) :
  forallb (λ c, nat_of_ascii c <? 128) (bytes s) = true → single_byte s.
Proof.
  intros Hall. apply Forall_forall. intros c Hc.
  rewrite forallb_forall in Hall. apply list_elem_of_In, Hall in Hc.
  by apply Nat.ltb_lt.
Qed.

(** C1.  [getHint] keeps no count of the occurrences of a letter that are
    left in the answer: for guess and answer of five single-byte
    characters it tags every position of a letter of the guess Present or
    Correct as soon as the answer holds that letter at all, and none
    otherwise.  A letter is therefore tagged more often than the answer
    holds it exactly when the answer holds it and the guess holds it more
    often.  For "speed" against "abide" the feedback is [0; 0; 1; 1; 1]
    (code 13): both e's are Present for the one e of "abide". *)
Theorem getHint_tags_unbounded :
  (∀ (guess answer : string) (c : ascii),
     String.length guess = 5 → String.length answer = 5 →
     single_byte guess → single_byte answer →
     ∃ tags,
       getHint_charHints guess answer = Ok tags
       ∧ tagged c (bytes guess) tags
         = (if bool_decide (c ∈ bytes answer)
            then occurrences c (bytes guess) else 0)
       ∧ (occurrences c (bytes answer) < tagged c (bytes guess) tags
          ↔ 0 < occurrences c (bytes answer) < occurrences c (bytes guess)))
  ∧ getHint_charHints "speed" "abide" = Ok [0; 0; 1; 1; 1]%Z
  ∧ getHint "speed" "abide" = Ok 13%Z
  ∧ tagged "e" (bytes "speed") [0; 0; 1; 1; 1]%Z = 2
  ∧ occurrences "e" (bytes "abide") = 1.
Proof.
  split; [|by vm_compute].
  intros guess answer c Hg Ha Hsg Hsa.
  eexists. split; [by apply getHint_tags_5|].
  pose proof (occurrences_0 c (bytes answer)) as H0.
  case_bool_decide as Hin.
  - rewrite tagged_present; [|done|rewrite !length_bytes; lia].
    split; [done|]. split; [|lia]. intros Hlt. split; [|done].
    destruct (occurrences c (bytes answer)); [|lia]. by apply H0 in Hin.
  - rewrite tagged_absent by done. split; [done|]. apply H0 in Hin. lia.
Qed.

Lemma getHint_tags_unbounded_witness :
  ∃ tags,
    getHint_charHints "speed" "abide" = Ok tags
    ∧ tagged "e" (bytes "speed") tags
      = (if bool_decide ("e"%char ∈ bytes "abide")
         then occurrences "e" (bytes "speed") else 0)
    ∧ (occurrences "e" (bytes "abide") < tagged "e" (bytes "speed") tags
       ↔ 0 < occurrences "e" (bytes "abide")
             < occurrences "e" (bytes "speed")).
Proof.
  apply (proj1 getHint_tags_unbounded "speed" "abide" "e"%char);
    [reflexivity|reflexivity|apply single_byte_decide; reflexivity
    |apply single_byte_decide; reflexivity].
Defined.

(** C6.  For guess and answer of length 5 the code returned by [getHint]
    is the sum of [tag[i] * 3^(4-i)], lies in [0, 243), and both display
    decodings ([Hint.ColoredWord]'s digit loop and [Hint.String]'s padded
    base-3 digits) give the five tags back, most significant first. *)
Theorem getHint_base3_code (guess answer : string) :
  String.length guess = 5 → String.length answer = 5 →
  ∃ tags,
    getHint_charHints guess answer = Ok tags
    ∧ length tags = 5
    ∧ Forall (λ t, t ∈ [0; 1; 2]%Z) tags
    ∧ getHint guess answer = Ok (base3_sum tags)
    ∧ (0 ≤ base3_sum tags < 243)%Z
    ∧ ColoredWord_digits (base3_sum tags) = tags
    ∧ String_digits (base3_sum tags) = tags.
Proof.
  intros Hg Ha. unfold getHint.
  destruct (getHint_charHints_Ok guess answer) as (tags & -> & Hlen & HF);
    [lia..|].
  do 5 (destruct tags as [|? tags]; [done|]). destruct tags; [|done].
  destruct (base3_roundtrip _ _ _ _ _ HF) as (Henc & Hrange & Hcw & Hstr).
  eexists. split; [done|]. split; [done|]. split; [done|]. split; [|done].
  cbn [fmap result_fmap]. by rewrite Henc.
Qed.

Lemma getHint_base3_code_witness :
  ∃ tags,
    getHint_charHints "crane" "react" = Ok tags
    ∧ length tags = 5
    ∧ Forall (λ t, t ∈ [0; 1; 2]%Z) tags
    ∧ getHint "crane" "react" = Ok (base3_sum tags)
    ∧ (0 ≤ base3_sum tags < 243)%Z
    ∧ ColoredWord_digits (base3_sum tags) = tags
    ∧ String_digits (base3_sum tags) = tags.
Proof. apply (getHint_base3_code "crane" "react"); reflexivity. Defined.

(** C7, as the code has it.  [getHint] checks no length and knows no
    LengthMismatch error.  On strings of single-byte characters it panics
    with an index out of range exactly when the answer is shorter than the
    guess or a letter of the guess at position 5 or later occurs in the
    answer; in every other case, lengths other than 5 included, it returns
    the code of the tags of the first five positions. *)
Theorem getHint_length_unchecked (guess answer : string) :
  single_byte guess → single_byte answer →
  let fails :=
    String.length answer < String.length guess
    ∨ ∃ i ch, 5 ≤ i ∧ bytes guess !! i = Some ch ∧ ch ∈ bytes answer in
  (fails → getHint guess answer = Panic IndexOutOfRange)
  ∧ (¬ fails →
     getHint guess answer = Ok (getHint_encode (getHint_tags guess answer))).
Proof.
  intros Hsg Hsa fails. rewrite getHint_spec by done. unfold getHint_panics.
  assert (Hlate : existsb (λ ch, bool_decide (ch ∈ bytes answer))
                          (drop 5 (bytes guess)) = true
                  ↔ ∃ i ch, 5 ≤ i ∧ bytes guess !! i = Some ch ∧ ch ∈ bytes answer).
  { rewrite existsb_exists. split.
    - intros (ch & Hin & Hc). apply list_elem_of_In, list_elem_of_lookup in Hin.
      destruct Hin as [k Hk]. rewrite lookup_drop in Hk.
      exists (5 + k), ch. split; [lia|]. split; [done|].
      by apply bool_decide_eq_true in Hc.
    - intros (i & ch & Hi & Hg & Hc). exists ch. split.
      + apply list_elem_of_In, list_elem_of_lookup. exists (i - 5).
        rewrite lookup_drop. by replace (5 + (i - 5)) with i by lia.
      + by apply bool_decide_eq_true. }
  split.
  - intros [Hshort|Hl].
    + by rewrite bool_decide_eq_true_2.
    + apply Hlate in Hl. rewrite Hl. by rewrite orb_true_r.
  - intros Hnot. rewrite bool_decide_eq_false_2 by (intros ?; apply Hnot; by left).
    destruct (existsb _ _) eqn:He; [|done].
    exfalso. apply Hnot. right. by apply Hlate.
Qed.

Lemma getHint_length_unchecked_witness :
  getHint "abc" "ab" = Panic IndexOutOfRange
  ∧ getHint "ab" "ab" = Ok (getHint_encode (getHint_tags "ab" "ab")).
Proof.
  split.
  - apply (proj1 (getHint_length_unchecked "abc" "ab"
                    ltac:(apply single_byte_decide; reflexivity)
                    ltac:(apply single_byte_decide; reflexivity))).
    left. simpl. lia.
  - apply (proj2 (getHint_length_unchecked "ab" "ab"
                    ltac:(apply single_byte_decide; reflexivity)
                    ltac:(apply single_byte_decide; reflexivity))).
    intros [Hshort|(i & ch & Hi & Hg & _)].
    + simpl in Hshort. lia.
    + apply lookup_lt_Some in Hg. simpl in Hg. lia.
Defined.

(** C7 as stated fails on the code: two strings of length 2 get a
    feedback value, not an error. *)
Lemma getHint_length_mismatch_counterexample :
  String.length "ab" ≠ 5 ∧ getHint "ab" "ab" = Ok 216%Z.
Proof. split; [done|reflexivity]. Qed.

(** Off single-byte characters the offsets of [range] are those of the
    runes.  The two bytes 195, 169 are one rune, 233: against itself the
    rune is not Correct, for [byte(ch)] is 233 and [answer[0]] is 195, but
    Present, and the offset 1 is never visited (code 81).  And a guess of
    six bytes whose fifth and sixth are that rune meets a five-byte answer
    without a panic, its last round being at offset 4 (code 240). *)
Remark getHint_runes :
  let e_acute := String "195" (String "169" String.EmptyString) in
  runes (bytes e_acute) = [233%Z]
  ∧ getHint_charHints e_acute e_acute = Ok [1; 0; 0; 0; 0]%Z
  ∧ getHint e_acute e_acute = Ok 81%Z
  ∧ String.length ("aaaa" +:+ e_acute) = 6
  ∧ getHint ("aaaa" +:+ e_acute) "aaaab" = Ok 240%Z.
Proof. by vm_compute. Qed.

(** ** Bitsets *)

Lemma popcount_app l1 l2 : popcount (l1 ++ l2) = popcount l1 + popcount l2.
Proof. apply sum_list_with_app. Qed.

Lemma zip_land_lookup_total (a b : list Z) k :
  k < length a → k < length b →
  zip_with Z.land a b !! k = Some (Z.land (a !!! k) (b !!! k)).
Proof.
  intros Ha Hb. rewrite lookup_zip_with.
  destruct (lookup_lt_is_Some_2 a k Ha) as [x Hx].
  destruct (lookup_lt_is_Some_2 b k Hb) as [y Hy].
  rewrite Hx, Hy. simpl.
  by rewrite (list_lookup_total_correct _ _ _ Hx),
             (list_lookup_total_correct _ _ _ Hy).
Qed.

(** The state of the loop of [And] after [k] rounds. *)
Lemma words_And_prefix (a b : list Z) k :
  let z := zip_with Z.land a b in
  let minLen := length b `min` length a in
  k ≤ minLen →
  foldl (λ '(Bytes, Count) i,
           let w := Z.land (a !!! i) (b !!! i) in
           (<[i := w]> Bytes, Count + OnesCount64 w))
        (replicate minLen 0%Z, 0) (seq 0 k)
  = (take k z ++ replicate (minLen - k) 0%Z, popcount (take k z)).
Proof.
  intros z minLen. induction k as [|k IH]; intros Hk.
  - simpl. by rewrite Nat.sub_0_r.
  - rewrite seq_S, foldl_app, IH by lia. cbn [foldl Nat.add].
    assert (Hzk : z !! k = Some (Z.land (a !!! k) (b !!! k))).
    { apply zip_land_lookup_total; lia. }
    rewrite (take_S_r _ _ _ Hzk), popcount_app.
    assert (Hlen : length (take k z) = k).
    { rewrite length_take. unfold z. rewrite length_zip_with. lia. }
    f_equal.
    + replace (minLen - k) with (S (minLen - S k)) by lia.
      rewrite insert_app_r_alt by lia.
      replace (k - length (take k z)) with 0 by lia.
      simpl. by rewrite <- app_assoc.
    + unfold popcount at 3. simpl. lia.
Qed.

Lemma words_And_spec (a b : list Z) :
  words_And a b
  = (zip_with Z.land a b, popcount (zip_with Z.land a b)).
Proof.
  unfold words_And. rewrite words_And_prefix by done.
  rewrite Nat.sub_diag, app_nil_r, take_ge; [done|].
  rewrite length_zip_with. lia.
Qed.

Lemma zip_land_comm (a b : list Z) : zip_with Z.land a b = zip_with Z.land b a.
Proof.
  revert b. induction a as [|x a IH]; intros [|y b]; simpl; [done..|].
  by rewrite Z.land_comm, IH.
Qed.

Lemma zip_land_assoc (a b c : list Z) :
  zip_with Z.land (zip_with Z.land a b) c
  = zip_with Z.land a (zip_with Z.land b c).
Proof.
  revert b c. induction a as [|x a IH]; intros [|y b] [|z c]; simpl; [done..|].
  by rewrite Z.land_assoc, IH.
Qed.

Lemma zip_land_diag (a : list Z) : zip_with Z.land a a = a.
Proof. induction a as [|x a IH]; simpl; [done|]. by rewrite Z.land_diag, IH. Qed.

Lemma Bitvector_And_spec (bv other : Bitvector.t) :
  Bitvector.And bv other
  = let z := zip_with Z.land (Bitvector.Bytes bv) (Bitvector.Bytes other) in
    {| Bitvector.Bytes := z; Bitvector.Count := popcount z |}.
Proof. unfold Bitvector.And. by rewrite words_And_spec. Qed.

Lemma Bitvec_And_spec (bv other : Bitvec.t) :
  Bitvec.And bv other
  = let z := zip_with Z.land (Bitvec.Bytes bv) (Bitvec.Bytes other) in
    {| Bitvec.Bytes := z; Bitvec.Size := 0; Bitvec.Count := popcount z |}.
Proof. unfold Bitvec.And. by rewrite words_And_spec. Qed.

(** C9.  [And] is commutative and associative, on [Bitvector] and on
    [Bitvec]; a bitset whose [Count] is the number of set bits of its
    [Bytes] is unchanged, in [Bytes] and [Count], by [And] with itself; and
    the result has the length of the shorter operand, word [i] being the
    bitwise and of the operands' words [i]. *)
Theorem And_algebra :
  (∀ a b : Bitvector.t, Bitvector.And a b = Bitvector.And b a)
  ∧ (∀ a b c : Bitvector.t,
       Bitvector.And (Bitvector.And a b) c = Bitvector.And a (Bitvector.And b c))
  ∧ (∀ bv : Bitvector.t,
       Bitvector.Count bv = popcount (Bitvector.Bytes bv) →
       Bitvector.And bv bv = bv)
  ∧ (∀ a b : Bitvector.t,
       length (Bitvector.Bytes (Bitvector.And a b))
       = length (Bitvector.Bytes a) `min` length (Bitvector.Bytes b)
       ∧ ∀ i x y, Bitvector.Bytes a !! i = Some x →
                  Bitvector.Bytes b !! i = Some y →
                  Bitvector.Bytes (Bitvector.And a b) !! i = Some (Z.land x y))
  ∧ (∀ a b : Bitvec.t, Bitvec.And a b = Bitvec.And b a)
  ∧ (∀ a b c : Bitvec.t,
       Bitvec.And (Bitvec.And a b) c = Bitvec.And a (Bitvec.And b c))
  ∧ (∀ bv : Bitvec.t,
       Bitvec.Count bv = popcount (Bitvec.Bytes bv) →
       Bitvec.Bytes (Bitvec.And bv bv) = Bitvec.Bytes bv
       ∧ Bitvec.Count (Bitvec.And bv bv) = Bitvec.Count bv)
  ∧ (∀ a b : Bitvec.t,
       length (Bitvec.Bytes (Bitvec.And a b))
       = length (Bitvec.Bytes a) `min` length (Bitvec.Bytes b)
       ∧ ∀ i x y, Bitvec.Bytes a !! i = Some x →
                  Bitvec.Bytes b !! i = Some y →
                  Bitvec.Bytes (Bitvec.And a b) !! i = Some (Z.land x y)).
Proof.
  repeat apply conj.
  - intros a b. rewrite !Bitvector_And_spec. simpl. by rewrite zip_land_comm.
  - intros a b c. rewrite !Bitvector_And_spec. simpl.
    by rewrite zip_land_assoc.
  - intros [w n] Hn. rewrite Bitvector_And_spec. simpl in *.
    by rewrite zip_land_diag, Hn.
  - intros a b. rewrite Bitvector_And_spec. simpl. split.
    + by rewrite length_zip_with.
    + intros i x y Hx Hy. by rewrite lookup_zip_with, Hx, Hy.
  - intros a b. rewrite !Bitvec_And_spec. simpl. by rewrite zip_land_comm.
  - intros a b c. rewrite !Bitvec_And_spec. simpl. by rewrite zip_land_assoc.
  - intros [w s n] Hn. rewrite Bitvec_And_spec. simpl in *.
    by rewrite zip_land_diag, Hn.
  - intros a b. rewrite Bitvec_And_spec. simpl. split.
    + by rewrite length_zip_with.
    + intros i x y Hx Hy. by rewrite lookup_zip_with, Hx, Hy.
Qed.

Lemma And_algebra_witness :
  let bv := {| Bitvector.Bytes := [5; 3]%Z; Bitvector.Count := 4 |} in
  let short := {| Bitvector.Bytes := [6]%Z; Bitvector.Count := 2 |} in
  Bitvector.And bv bv = bv
  ∧ Bitvector.Bytes (Bitvector.And bv short) !! 0 = Some (Z.land 5 6).
Proof.
  split.
  - apply (proj1 (proj2 (proj2 And_algebra))). vm_compute. reflexivity.
  - apply (proj2 (proj1 (proj2 (proj2 (proj2 And_algebra))) _ _));
      reflexivity.
Defined.

(** ** [hint.New] *)

(** C10.  For guess and answer of 5 characters, [hint.New] returns a hint
    whose sequence is [2; 2; 2; 2; 2] whatever the letters are, whose rank
    is 0, and whose yellows, duplicates and grays are empty: the sequence
    does not depend on the answer. *)
Theorem hint_New_all_green (guess answer : string) :
  String.length guess = 5 → String.length answer = 5 →
  ∃ h, hint.New guess answer = Ok h
       ∧ hint.sequence h = [2; 2; 2; 2; 2]
       ∧ hint.rank h = 0
       ∧ hint.yellows h = []
       ∧ hint.duplicates h = []
       ∧ hint.grays h = replicate 26 false.
Proof.
  intros Hg Ha. unfold hint.New.
  destruct (bytes_length_5 _ Hg) as (g0 & g1 & g2 & g3 & g4 & ->).
  destruct (bytes_length_5 _ Ha) as (a0 & a1 & a2 & a3 & a4 & ->).
  cbn -[replicate]. unfold hint.New_greens. cbn -[replicate].
  repeat case_decide; cbn -[replicate]; eexists; (split; [reflexivity|]);
    repeat split; reflexivity.
Qed.

Lemma hint_New_all_green_witness :
  ∃ h, hint.New "trees" "roate" = Ok h
       ∧ hint.sequence h = [2; 2; 2; 2; 2]
       ∧ hint.rank h = 0
       ∧ hint.yellows h = []
       ∧ hint.duplicates h = []
       ∧ hint.grays h = replicate 26 false.
Proof. apply (hint_New_all_green "trees" "roate"); reflexivity. Defined.

(** ** The scoring loops *)







(** ** Bits of a word list *)

Lemma land_bit_eqb (w : Z) (k : nat) :
  (Z.land w (Z.shiftl 1 (Z.of_nat k)) =? 0)%Z = negb (Z.testbit w (Z.of_nat k)).
Proof.
  rewrite Z.shiftl_1_l.
  assert (Hk : (0 ≤ Z.of_nat k)%Z) by lia.
  destruct (Z.testbit w (Z.of_nat k)) eqn:Hb; simpl.
  - apply Z.eqb_neq. intros H0.
    assert (Ht : Z.testbit (Z.land w (2 ^ Z.of_nat k)) (Z.of_nat k) = true).
    { by rewrite Z.land_spec, Hb, Z.pow2_bits_true. }
    rewrite H0, Z.bits_0 in Ht. done.
  - apply Z.eqb_eq, Z.bits_inj'. intros n Hn.
    rewrite Z.land_spec, Z.bits_0, Z.pow2_bits_eqb by done.
    destruct (Z.eqb_spec (Z.of_nat k) n) as [<-|]; [by rewrite Hb|].
    apply andb_false_r.
Qed.

Lemma lor_bit (w : Z) (k n : nat) :
  Z.testbit (Z.lor w (Z.shiftl 1 (Z.of_nat k))) (Z.of_nat n)
  = Z.testbit w (Z.of_nat n) || bool_decide (n = k).
Proof.
  rewrite Z.lor_spec, Z.shiftl_1_l, Z.pow2_bits_eqb by lia. f_equal.
  case_bool_decide; [apply Z.eqb_eq; lia|apply Z.eqb_neq; lia].
Qed.

Lemma words_Get_spec Bytes i :
  words_Get Bytes i
  = if decide (i / 64 < length Bytes) then Ok (bit Bytes i)
    else Panic IndexOutOfRange.
Proof.
  unfold words_Get, bit, load. case_decide as Hi.
  - destruct (lookup_lt_is_Some_2 Bytes _ Hi) as [w ->]. simpl.
    by rewrite land_bit_eqb, negb_involutive.
  - by rewrite lookup_ge_None_2 by lia.
Qed.

Lemma index_split (i j : nat) : i = j ↔ i / 64 = j / 64 ∧ i mod 64 = j mod 64.
Proof.
  split; [by intros ->|]. intros [Hd Hm].
  rewrite (Nat.div_mod_eq i 64), (Nat.div_mod_eq j 64). lia.
Qed.

Lemma words_Set_spec Bytes Count i :
  i / 64 < length Bytes →
  ∃ Bytes',
    words_Set Bytes Count i
    = Ok (Bytes', Count + (if bit Bytes i then 0 else 1))
    ∧ length Bytes' = length Bytes
    ∧ ∀ j, bit Bytes' j = bit Bytes j || bool_decide (j = i).
Proof.
  intros Hi. unfold words_Set, load.
  destruct (lookup_lt_is_Some_2 Bytes _ Hi) as [w Hw].
  rewrite Hw. simpl. rewrite land_bit_eqb.
  assert (Hbit : bit Bytes i = Z.testbit w (Z.of_nat (i mod 64))).
  { unfold bit. by rewrite Hw. }
  rewrite <- Hbit. destruct (bit Bytes i) eqn:Hb; simpl.
  - exists Bytes. rewrite Nat.add_0_r. split; [done|]. split; [done|].
    intros j. case_bool_decide as Hj; [subst j; by rewrite Hb|].
    by rewrite orb_false_r.
  - unfold store. rewrite decide_True by done. simpl.
    eexists. split; [by rewrite Nat.add_1_r|].
    split; [by rewrite length_insert|].
    intros j. unfold bit at 1.
    destruct (decide (j / 64 = i / 64)) as [Hd|Hd].
    + rewrite Hd, list_lookup_insert_eq by done.
      rewrite lor_bit. f_equal.
      * unfold bit. by rewrite Hd, Hw.
      * apply bool_decide_ext. rewrite (index_split j i). tauto.
    + rewrite list_lookup_insert_ne by done.
      rewrite (bool_decide_eq_false_2 (j = i)) by (intros ->; done).
      by rewrite orb_false_r.
Qed.

Lemma bit_words_New size j : bit (words_New size) j = false.
Proof.
  unfold bit, words_New.
  destruct (replicate _ _ !! _) as [w|] eqn:Hw; [|done].
  apply lookup_replicate in Hw as [-> _]. apply Z.bits_0.
Qed.

Lemma bit_zip_land a b j : bit (zip_with Z.land a b) j = bit a j && bit b j.
Proof.
  unfold bit. rewrite lookup_zip_with.
  destruct (a !! (j / 64)) as [x|]; simpl; [|done].
  destruct (b !! (j / 64)) as [y|]; simpl; [|by rewrite andb_false_r].
  apply Z.land_spec.
Qed.

Lemma bit_in_range Bytes j : bit Bytes j = true → j / 64 < length Bytes.
Proof.
  unfold bit. destruct (Bytes !! (j / 64)) eqn:H; [|done].
  intros _. by eapply lookup_lt_Some.
Qed.

Lemma Bitvec_Set_spec bv i :
  i / 64 < length (Bitvec.Bytes bv) →
  ∃ bv', Bitvec.Set_ bv i = Ok bv'
    ∧ length (Bitvec.Bytes bv') = length (Bitvec.Bytes bv)
    ∧ Bitvec.Size bv' = Bitvec.Size bv
    ∧ Bitvec.Count bv'
      = Bitvec.Count bv + (if bit (Bitvec.Bytes bv) i then 0 else 1)
    ∧ ∀ j, bit (Bitvec.Bytes bv') j
           = bit (Bitvec.Bytes bv) j || bool_decide (j = i).
Proof.
  intros Hi.
  destruct (words_Set_spec _ (Bitvec.Count bv) _ Hi) as (B' & Hset & Hlen & Hbit).
  unfold Bitvec.Set_. rewrite Hset. simpl. eexists. split; [done|]. done.
Qed.

Lemma Bitvec_Get_true bv i :
  Bitvec.Get bv i = Ok true ↔ bit (Bitvec.Bytes bv) i = true.
Proof.
  unfold Bitvec.Get. rewrite words_Get_spec. case_decide as Hi.
  - split; congruence.
  - split; [done|]. intros Hb. by apply bit_in_range in Hb.
Qed.

(** A loop that sets the bit of every index whose element satisfies [P],
    for either bitset type. *)
Section set_loop.
Context {T : Type} (Bytes_of : T → list Z) (set_ : T → nat → result T).
Hypothesis set_spec : ∀ bv i,
  i / 64 < length (Bytes_of bv) →
  ∃ bv', set_ bv i = Ok bv'
    ∧ length (Bytes_of bv') = length (Bytes_of bv)
    ∧ ∀ j, bit (Bytes_of bv') j = bit (Bytes_of bv) j || bool_decide (j = i).

Lemma set_loop_gen {A} (P : A → Prop) `{∀ x, Decision (P x)}
    (l : list A) start bv :
  start + length l ≤ 64 * length (Bytes_of bv) →
  ∃ bv',
    for_range (λ i x bv, if decide (P x) then set_ bv i else Ok bv)
              start l bv = Ok bv'
    ∧ length (Bytes_of bv') = length (Bytes_of bv)
    ∧ ∀ j, bit (Bytes_of bv') j = true
           ↔ bit (Bytes_of bv) j = true
             ∨ ∃ x, start ≤ j ∧ l !! (j - start) = Some x ∧ P x.
Proof.
  revert start bv. induction l as [|x l IH]; intros start bv Hfit.
  - exists bv. split; [done|]. split; [done|]. intros j. split; [auto|].
    intros [?|(x & _ & Hx & _)]; [done|]. by rewrite lookup_nil in Hx.
  - simpl in Hfit. cbn [for_range].
    assert (Hstep : ∃ bv1,
      (if decide (P x) then set_ bv start else Ok bv) = Ok bv1
      ∧ length (Bytes_of bv1) = length (Bytes_of bv)
      ∧ ∀ j, bit (Bytes_of bv1) j = true
             ↔ bit (Bytes_of bv) j = true ∨ (j = start ∧ P x)).
    { destruct (decide (P x)) as [HP|HP].
      - destruct (set_spec bv start) as (bv1 & -> & Hl & Hb).
        { apply Nat.Div0.div_lt_upper_bound. lia. }
        exists bv1. split; [done|]. split; [done|]. intros j.
        rewrite Hb, orb_true_iff, bool_decide_eq_true. tauto.
      - exists bv. split; [done|]. split; [done|]. tauto. }
    destruct Hstep as (bv1 & -> & Hl1 & Hb1). rewrite bind_Ok.
    destruct (IH (S start) bv1) as (bv' & Hrun & Hl' & Hb'); [lia|].
    exists bv'. split; [done|]. split; [congruence|].
    intros j. rewrite Hb', Hb1. split.
    + intros [[?|[-> HP]]|(y & Hj & Hy & HP)]; [by left| |].
      * right. exists x. by rewrite Nat.sub_diag.
      * right. exists y. split; [lia|].
        replace (j - start) with (S (j - S start)) by lia. done.
    + intros [?|(y & Hj & Hy & HP)]; [by left; left|].
      destruct (decide (j = start)) as [->|Hne].
      * rewrite Nat.sub_diag in Hy. simpl in Hy. left; right. naive_solver.
      * right. exists y. split; [lia|].
        replace (j - start) with (S (j - S start)) in Hy by lia. done.
Qed.

End set_loop.

Lemma Bitvec_Set_bits bv i :
  i / 64 < length (Bitvec.Bytes bv) →
  ∃ bv', Bitvec.Set_ bv i = Ok bv'
    ∧ length (Bitvec.Bytes bv') = length (Bitvec.Bytes bv)
    ∧ ∀ j, bit (Bitvec.Bytes bv') j
           = bit (Bitvec.Bytes bv) j || bool_decide (j = i).
Proof.
  intros Hi. destruct (Bitvec_Set_spec bv i Hi) as (bv' & ? & ? & _ & _ & ?).
  eauto.
Qed.

Lemma Bitvector_Set_bits bv i :
  i / 64 < length (Bitvector.Bytes bv) →
  ∃ bv', Bitvector.Set_ bv i = Ok bv'
    ∧ length (Bitvector.Bytes bv') = length (Bitvector.Bytes bv)
    ∧ ∀ j, bit (Bitvector.Bytes bv') j
           = bit (Bitvector.Bytes bv) j || bool_decide (j = i).
Proof.
  intros Hi.
  destruct (words_Set_spec _ (Bitvector.Count bv) _ Hi) as (B' & Hset & Hlen & Hbit).
  unfold Bitvector.Set_. rewrite Hset. simpl. eexists. split; [done|]. done.
Qed.

(** ** The candidate index *)

Lemma calculateHints_answer_Ok answers guess answer gi hint :
  getHint guess answer = Ok hint →
  calculateHints_answer answers guess answer gi
  = Ok {| answerHints := <[answer := hint]> (answerHints gi);
          hintsMap :=
            match hintsMap gi !! hint with
            | Some info =>
                <[hint := {| freq := S (freq info); bitvec := bitvec info |}]>
                  (hintsMap gi)
            | None =>
                <[hint := {| freq := 1;
                             bitvec := Bitvec.New (length answers) |}]>
                  (hintsMap gi)
            end |}.
Proof. intros H. unfold calculateHints_answer. by rewrite H. Qed.

Lemma calculateHints_loop answers guess (code : string → Z) l gi :
  (∀ a, a ∈ l → getHint guess a = Ok (code a)) →
  ∃ gi',
    for_each (calculateHints_answer answers guess) l gi = Ok gi'
    ∧ (∀ a, answerHints gi' !! a
            = if decide (a ∈ l) then Some (code a) else answerHints gi !! a)
    ∧ (∀ h info', hintsMap gi' !! h = Some info' →
         bitvec info' = Bitvec.New (length answers)
         ∨ ∃ info, hintsMap gi !! h = Some info ∧ bitvec info' = bitvec info)
    ∧ (∀ h, is_Some (hintsMap gi !! h) ∨ (∃ a, a ∈ l ∧ code a = h) →
            is_Some (hintsMap gi' !! h)).
Proof.
  revert gi. induction l as [|x l IH]; intros gi Hcode.
  - exists gi. split; [done|]. split; [done|]. split.
    + intros h info' Hh. right. eauto.
    + intros h [?|(a & Ha & _)]; [done|]. by apply elem_of_nil in Ha.
  - rewrite for_each_cons.
    rewrite (calculateHints_answer_Ok _ _ _ _ (code x)) by (apply Hcode; set_solver).
    rewrite bind_Ok.
    set (gi1 := {| answerHints := _; hintsMap := _ |}).
    destruct (IH gi1) as (gi' & Hrun & Hah & Hbv & Hdom).
    { intros a Ha. apply Hcode. set_solver. }
    exists gi'. split; [done|]. split; [|split].
    + intros a. rewrite Hah. subst gi1. simpl.
      destruct (decide (a ∈ l)) as [Hin|Hin].
      * rewrite decide_True; [done|set_solver].
      * destruct (decide (a = x)) as [->|Hne].
        -- rewrite lookup_insert_eq. rewrite decide_True; [done|set_solver].
        -- rewrite lookup_insert_ne by done.
           rewrite decide_False; [done|set_solver].
    + intros h info' Hh. destruct (Hbv h info' Hh) as [?|(info & Hi & Hb)];
        [by left|].
      subst gi1. simpl in Hi.
      destruct (hintsMap gi !! code x) as [info0|] eqn:H0.
      * destruct (decide (code x = h)) as [<-|Hne].
        -- rewrite lookup_insert_eq in Hi. injection Hi as <-. right. eauto.
        -- rewrite lookup_insert_ne in Hi by done. right. eauto.
      * destruct (decide (code x = h)) as [<-|Hne].
        -- rewrite lookup_insert_eq in Hi. injection Hi as <-. by left.
        -- rewrite lookup_insert_ne in Hi by done. right. eauto.
    + intros h Hh. apply Hdom. subst gi1. simpl.
      destruct (decide (code x = h)) as [<-|Hne].
      * left. destruct (hintsMap gi !! code x); by rewrite lookup_insert_eq.
      * destruct Hh as [Hh|(a & Ha & Hca)].
        -- left. destruct (hintsMap gi !! code x);
             by rewrite lookup_insert_ne.
        -- right. exists a. split; [|done]. set_solver.
Qed.

Lemma words_New_capacity size : size ≤ 64 * length (words_New size).
Proof.
  unfold words_New. rewrite length_replicate.
  pose proof (Nat.div_mod_eq (size + 63) 64).
  pose proof (Nat.mod_upper_bound (size + 63) 64). lia.
Qed.

(** Filling one bucket: bit [j] is set exactly when answer [j] has the
    bucket's hint. *)
Lemma calculateBitvecs_hint_spec answers gi hint info :
  bitvec info = Bitvec.New (length answers) →
  ∃ info',
    calculateBitvecs_hint answers gi hint info = Ok info'
    ∧ ∀ j, bit (Bitvec.Bytes (bitvec info')) j = true
           ↔ ∃ a, answers !! j = Some a
                  ∧ default 0%Z (answerHints gi !! a) = hint.
Proof.
  intros Hnew. unfold calculateBitvecs_hint.
  destruct (set_loop_gen Bitvec.Bytes Bitvec.Set_ Bitvec_Set_bits
              (λ a, default 0%Z (answerHints gi !! a) = hint)
              answers 0 (bitvec info)) as (bv' & Hrun & _ & Hbit).
  { rewrite Hnew. simpl. apply words_New_capacity. }
  rewrite Hrun, bind_Ok. eexists. split; [done|]. simpl.
  intros j. rewrite Hbit, Hnew. simpl. rewrite bit_words_New, Nat.sub_0_r.
  split.
  - intros [?|(a & _ & Ha & HP)]; [done|]. eauto.
  - intros (a & Ha & HP). right. exists a. split; [lia|done].
Qed.

Lemma calculateHints_guess_spec answers guess (code : string → Z) :
  (∀ a, a ∈ answers → getHint guess a = Ok (code a)) →
  ∃ gi,
    calculateHints_guess answers guess = Ok gi
    ∧ (∀ a, a ∈ answers → answerHints gi !! a = Some (code a))
    ∧ (∀ h info, hintsMap gi !! h = Some info →
                 bitvec info = Bitvec.New (length answers))
    ∧ (∀ a, a ∈ answers → is_Some (hintsMap gi !! code a)).
Proof.
  intros Hcode. unfold calculateHints_guess.
  destruct (calculateHints_loop answers guess code answers
              {| answerHints := ∅; hintsMap := ∅ |} Hcode)
    as (gi & Hrun & Hah & Hbv & Hdom).
  exists gi. split; [done|]. split; [|split].
  - intros a Ha. by rewrite Hah, decide_True.
  - intros h info Hh. destruct (Hbv h info Hh) as [?|(i0 & Hi0 & _)]; [done|].
    simpl in Hi0. by rewrite lookup_empty in Hi0.
  - intros a Ha. apply Hdom. right. eauto.
Qed.

Lemma calculateBitvecs_guess_spec answers (code : string → Z) gi :
  (∀ a, a ∈ answers → answerHints gi !! a = Some (code a)) →
  (∀ h info, hintsMap gi !! h = Some info →
             bitvec info = Bitvec.New (length answers)) →
  ∃ gi',
    calculateBitvecs_guess answers gi = Ok gi'
    ∧ answerHints gi' = answerHints gi
    ∧ (∀ h, is_Some (hintsMap gi' !! h) ↔ is_Some (hintsMap gi !! h))
    ∧ ∀ h info' j, hintsMap gi' !! h = Some info' →
        (bit (Bitvec.Bytes (bitvec info')) j = true
         ↔ ∃ a, answers !! j = Some a ∧ code a = h).
Proof.
  intros Hah Hnew. unfold calculateBitvecs_guess.
  destruct (for_map_Ok (calculateBitvecs_hint answers gi) (hintsMap gi))
    as (hm & -> & Hhm).
  { intros h info Hh.
    destruct (calculateBitvecs_hint_spec answers gi h info) as (? & -> & _);
      [by eapply Hnew|done]. }
  rewrite bind_Ok. eexists. split; [done|]. simpl. split; [done|].
  assert (Hinv : ∀ h info', hm !! h = Some info' →
            ∃ info, hintsMap gi !! h = Some info
                    ∧ calculateBitvecs_hint answers gi h info = Ok info').
  { intros h info' Hh. rewrite Hhm in Hh.
    destruct (hintsMap gi !! h) as [info|]; [|done]. simpl in Hh.
    exists info. split; [done|].
    destruct (calculateBitvecs_hint answers gi h info); simpl in Hh; congruence. }
  split.
  - intros h. rewrite Hhm. destruct (hintsMap gi !! h) as [info|] eqn:Hh; simpl.
    + destruct (calculateBitvecs_hint_spec answers gi h info) as (? & -> & _);
        [by eapply Hnew|]. simpl. split; eauto.
    + split; intros [? ?]; done.
  - intros h info' j Hh. destruct (Hinv h info' Hh) as (info & Hi & Hrun).
    destruct (calculateBitvecs_hint_spec answers gi h info) as (i1 & Hrun1 & Hbit);
      [by eapply Hnew|].
    rewrite Hrun in Hrun1. injection Hrun1 as <-. rewrite Hbit.
    split; intros (a & Ha & Hc); exists a; (split; [done|]).
    + rewrite Hah in Hc; [done|]. by eapply list_elem_of_lookup_2.
    + rewrite Hah; [done|]. by eapply list_elem_of_lookup_2.
Qed.

Lemma calculateHints_spec guesses answers gm0 :
  (∀ g, g ∈ guesses → is_Ok (calculateHints_guess answers g) = true) →
  ∃ gm,
    calculateHints guesses answers gm0 = Ok gm
    ∧ ∀ g, gm !! g = if decide (g ∈ guesses)
                     then to_option (calculateHints_guess answers g)
                     else gm0 !! g.
Proof.
  unfold calculateHints. revert gm0.
  induction guesses as [|x l IH]; intros gm0 Hok.
  - exists gm0. split; [done|]. intros g. rewrite decide_False; [done|].
    apply not_elem_of_nil.
  - rewrite for_each_cons.
    pose proof (Hok x ltac:(set_solver)) as Hx.
    destruct (calculateHints_guess answers x) as [gi|] eqn:Hgi; [|done].
    rewrite bind_Ok.
    destruct (IH (<[x := gi]> gm0)) as (gm & Hrun & Hgm).
    { intros g Hg. apply Hok. set_solver. }
    exists gm. split; [done|]. intros g. rewrite Hgm.
    destruct (decide (g ∈ l)) as [Hin|Hin].
    + rewrite decide_True; [done|set_solver].
    + destruct (decide (g = x)) as [->|Hne].
      * rewrite lookup_insert_eq, decide_True; [by rewrite Hgi|set_solver].
      * rewrite lookup_insert_ne by done.
        rewrite decide_False; [done|set_solver].
Qed.

(** C3.  For guesses and answers of length 5, [calculateHints] and then
    [calculateBitvecs] return, and for every guess the buckets of its
    [hintsMap] partition the answer indices: index [idx] is set in the
    bucket keyed by [getHint guess answers[idx]], in no other bucket, and
    no bucket has a bit set outside [0, len(answers)). *)
Theorem buckets_partition (guesses answers : list string) :
  Forall (λ w, String.length w = 5) guesses →
  Forall (λ w, String.length w = 5) answers →
  ∃ gm gm',
    calculateHints guesses answers ∅ = Ok gm
    ∧ calculateBitvecs answers gm = Ok gm'
    ∧ ∀ guess, guess ∈ guesses →
        ∃ gi, gm' !! guess = Some gi
          ∧ (∀ idx answer, answers !! idx = Some answer →
               ∃ h info,
                 getHint guess answer = Ok h
                 ∧ hintsMap gi !! h = Some info
                 ∧ Bitvec.Get (bitvec info) idx = Ok true
                 ∧ ∀ h' info', hintsMap gi !! h' = Some info' →
                     Bitvec.Get (bitvec info') idx = Ok true → h' = h)
          ∧ (∀ h info idx, hintsMap gi !! h = Some info →
               Bitvec.Get (bitvec info) idx = Ok true →
               idx < length answers).
Proof.
  intros Hgs Has.
  rewrite Forall_forall in Hgs. rewrite Forall_forall in Has.
  assert (Hcode : ∀ g, g ∈ guesses → ∀ a, a ∈ answers →
            getHint g a = Ok (getHint_code g a)).
  { intros g Hg a Ha. apply getHint_5_Ok; auto. }
  destruct (calculateHints_spec guesses answers ∅) as (gm & Hgm & Hlook).
  { intros g Hg.
    destruct (calculateHints_guess_spec answers g _ (Hcode g Hg)) as (? & -> & _).
    done. }
  assert (Hgi : ∀ g gi, gm !! g = Some gi →
            g ∈ guesses ∧ calculateHints_guess answers g = Ok gi).
  { intros g gi Hg. rewrite Hlook in Hg. case_decide; [|by rewrite lookup_empty in Hg].
    split; [done|]. destruct (calculateHints_guess answers g); simpl in Hg; congruence. }
  destruct (for_map_Ok (λ _ gi, calculateBitvecs_guess answers gi) gm)
    as (gm' & Hgm' & Hlook').
  { intros g gi Hg. destruct (Hgi g gi Hg) as [Hin Hrun].
    destruct (calculateHints_guess_spec answers g _ (Hcode g Hin))
      as (gi0 & Hrun0 & Hah & Hnew & _).
    rewrite Hrun in Hrun0. injection Hrun0 as <-.
    destruct (calculateBitvecs_guess_spec answers _ gi Hah Hnew) as (? & -> & _).
    done. }
  exists gm, gm'. split; [done|]. split; [done|].
  intros guess Hin.
  destruct (calculateHints_guess_spec answers guess _ (Hcode guess Hin))
    as (gi0 & Hrun0 & Hah & Hnew & Hdom).
  destruct (calculateBitvecs_guess_spec answers _ gi0 Hah Hnew)
    as (gi & Hrun & _ & Hkeys & Hbits).
  exists gi. split.
  { rewrite Hlook', Hlook, decide_True by done. rewrite Hrun0. simpl.
    by rewrite Hrun. }
  split.
  - intros idx answer Hidx.
    assert (Ha : answer ∈ answers) by by eapply list_elem_of_lookup_2.
    destruct (proj2 (Hkeys _) (Hdom answer Ha)) as [info Hinfo].
    exists (getHint_code guess answer), info.
    split; [by apply Hcode|]. split; [done|]. split.
    + apply Bitvec_Get_true, (Hbits _ _ _ Hinfo). eauto.
    + intros h' info' Hh' Hget. apply Bitvec_Get_true in Hget.
      apply (Hbits _ _ _ Hh') in Hget as (a & Ha' & <-). congruence.
  - intros h info idx Hh Hget. apply Bitvec_Get_true in Hget.
    apply (Hbits _ _ _ Hh) in Hget as (a & Ha' & _).
    by eapply lookup_lt_Some.
Qed.

(** ** Letter constraints on one word *)

Lemma for_each_nil {A St} (body : A → St → result St) s :
  for_each body [] s = Ok s.
Proof. done. Qed.

Lemma letter_counts_loop (w : list ascii) l m :
  Forall (λ i, i < length w) l →
  ∃ m',
    for_each (λ i m, ch ← load w i; Ok (<[ch := S (count_at m ch)]> m)) l m
    = Ok m'
    ∧ ∀ c, count_at m' c
           = count_at m c + length (filter (λ i, w !! i = Some c) l).
Proof.
  revert m. induction l as [|i l IH]; intros m Hl.
  - exists m. split; [done|]. intros c. simpl. lia.
  - apply Forall_cons_1 in Hl as [Hi Hl]. rewrite for_each_cons.
    destruct (lookup_lt_is_Some_2 w i Hi) as [ch Hch].
    rewrite (load_Ok _ _ _ Hch), bind_Ok.
    destruct (IH (<[ch := S (count_at m ch)]> m) Hl) as (m' & Hrun & Hm').
    exists m'. split; [done|]. intros c. rewrite Hm', filter_cons.
    unfold count_at at 1. destruct (decide (ch = c)) as [->|Hne].
    + rewrite lookup_insert_eq, decide_True by done. simpl. lia.
    + rewrite lookup_insert_ne by done.
      rewrite decide_False by congruence. done.
Qed.

Lemma seq_5_in_range (w : list ascii) :
  5 ≤ length w → Forall (λ i, i < length w) (seq 0 5).
Proof. intros H. apply Forall_forall. intros i Hi%elem_of_seq. lia. Qed.

Lemma letter_counts_spec (w : list ascii) :
  5 ≤ length w →
  ∃ m, letter_counts w = Ok m ∧ ∀ c, count_at m c = count5 w c.
Proof.
  intros Hw. unfold letter_counts.
  destruct (letter_counts_loop w (seq 0 5) ∅ (seq_5_in_range w Hw))
    as (m & Hrun & Hm).
  exists m. split; [done|]. intros c. rewrite Hm. unfold count_at at 1.
  by rewrite lookup_empty.
Qed.

Lemma must_hold_spec (w : list ascii) c positions :
  Forall (λ pos, pos < length w) positions →
  must_hold w c positions = Ok (forallb (holds w c) positions).
Proof.
  induction positions as [|pos l IH]; intros Hl; [done|].
  apply Forall_cons_1 in Hl as [Hpos Hl]. simpl.
  destruct (lookup_lt_is_Some_2 w pos Hpos) as [ch Hch].
  rewrite (load_Ok _ _ _ Hch), bind_Ok. unfold holds at 1. rewrite Hch.
  destruct (decide (ch ≠ c)) as [Hne|Heq].
  - rewrite bool_decide_eq_false_2; [done|congruence].
  - rewrite bool_decide_eq_true_2; [by apply IH|].
    f_equal. by destruct (decide (ch = c)).
Qed.

Lemma cant_hold_spec (w : list ascii) c positions :
  Forall (λ pos, pos < length w) positions →
  cant_hold w c positions
  = Ok (forallb (λ pos, negb (holds w c pos)) positions).
Proof.
  induction positions as [|pos l IH]; intros Hl; [done|].
  apply Forall_cons_1 in Hl as [Hpos Hl]. simpl.
  destruct (lookup_lt_is_Some_2 w pos Hpos) as [ch Hch].
  rewrite (load_Ok _ _ _ Hch), bind_Ok. unfold holds at 1. rewrite Hch.
  destruct (decide (ch = c)) as [->|Hne].
  - by rewrite bool_decide_eq_true_2.
  - rewrite bool_decide_eq_false_2; [by apply IH|congruence].
Qed.

Lemma in_range_word (w : list ascii) info :
  5 ≤ length w → in_range info →
  Forall (λ pos, pos < length w) (MustBeInPositions info)
  ∧ Forall (λ pos, pos < length w) (CantBeInPositions info).
Proof.
  intros Hw [Hm Hc]. split; (eapply Forall_impl; [done|]); simpl; lia.
Qed.

Lemma checks_spec (w : list ascii) c info :
  5 ≤ length w → in_range info →
  (ok ← must_hold w c (MustBeInPositions info);
   if ok : bool then cant_hold w c (CantBeInPositions info) else Ok false)
  = Ok (forallb (holds w c) (MustBeInPositions info)
        && forallb (λ pos, negb (holds w c pos)) (CantBeInPositions info)).
Proof.
  intros Hw Hr. destruct (in_range_word w info Hw Hr) as [Hm Hc].
  rewrite (must_hold_spec _ _ _ Hm), bind_Ok.
  destruct (forallb _ (MustBeInPositions info)); [|done].
  by rewrite (cant_hold_spec _ _ _ Hc).
Qed.

Lemma satisfies_letter_spec (w : list ascii) wordFreq c info :
  5 ≤ length w → in_range info →
  count_at wordFreq c = count5 w c →
  satisfies_letter w wordFreq c info = Ok (satisfies w c info).
Proof.
  intros Hw Hr Hc. unfold satisfies_letter, satisfies.
  rewrite Hc, (checks_spec w c info Hw Hr).
  destruct (FrequencyIsExact info).
  - case_bool_decide; [by rewrite bool_decide_eq_false_2|].
    rewrite bool_decide_eq_true_2; [done|].
    by destruct (decide (count5 w c = Frequency info)).
  - case_bool_decide; [by rewrite bool_decide_eq_false_2 by lia|].
    by rewrite bool_decide_eq_true_2 by lia.
Qed.

Lemma count_loop (w : list ascii) c l n :
  Forall (λ i, i < length w) l →
  for_each (λ i freq,
              ch ← load w i;
              Ok (if decide (ch = c) then S freq else freq)) l n
  = Ok (n + length (filter (λ i, w !! i = Some c) l)).
Proof.
  revert n. induction l as [|i l IH]; intros n Hl.
  - by rewrite for_each_nil, Nat.add_0_r.
  - apply Forall_cons_1 in Hl as [Hi Hl]. rewrite for_each_cons.
    destruct (lookup_lt_is_Some_2 w i Hi) as [ch Hch].
    rewrite (load_Ok _ _ _ Hch). simpl. rewrite IH, filter_cons by done.
    destruct (decide (ch = c)) as [->|Hne].
    + rewrite decide_True by done. simpl. f_equal. lia.
    + by rewrite decide_False by congruence.
Qed.

Lemma TestLetterConstraint_spec word c info :
  5 ≤ String.length word → in_range info →
  TestLetterConstraint word c info = Ok (tests (bytes word) c info).
Proof.
  intros Hw Hr. rewrite <- length_bytes in Hw.
  unfold TestLetterConstraint, tests.
  rewrite (count_loop _ _ _ _ (seq_5_in_range _ Hw)), bind_Ok, Nat.add_0_l.
  fold (count5 (bytes word) c).
  rewrite (checks_spec _ c info Hw Hr).
  destruct (decide (Frequency info = 0)).
  - case_bool_decide; [by rewrite bool_decide_eq_false_2 by lia|].
    by rewrite bool_decide_eq_true_2 by lia.
  - destruct (FrequencyIsExact info).
    + case_bool_decide; [by rewrite bool_decide_eq_false_2|].
      rewrite bool_decide_eq_true_2; [done|].
      by destruct (decide (count5 (bytes word) c = Frequency info)).
    + case_bool_decide; [by rewrite bool_decide_eq_false_2 by lia|].
      by rewrite bool_decide_eq_true_2 by lia.
Qed.

(** The two checks differ only on a frequency 0 that is not exact. *)
Lemma tests_satisfies w c info :
  (Frequency info = 0 → FrequencyIsExact info = true) →
  tests w c info = satisfies w c info.
Proof.
  intros H0. unfold tests, satisfies.
  destruct (decide (Frequency info = 0)) as [Hz|]; [|done].
  by rewrite (H0 Hz), Hz.
Qed.

(** ** [AnalyzeWordle], letter by letter *)

Lemma AnalyzeWordle_init_Some (g : list ascii) i m ch :
  g !! i = Some ch →
  AnalyzeWordle_init g i m
  = Ok (match m !! ch with
        | Some _ => m
        | None => <[ch := LetterInfo_zero]> m
        end).
Proof.
  intros H. unfold AnalyzeWordle_init. rewrite (load_Ok _ _ _ H), bind_Ok.
  by destruct (m !! ch).
Qed.

Lemma AnalyzeWordle_init_loop (g : list ascii) l m :
  Forall (λ i, i < length g) l →
  ∃ m',
    for_each (AnalyzeWordle_init g) l m = Ok m'
    ∧ (∀ c, info_at m' c = info_at m c)
    ∧ (∀ c, is_Some (m' !! c)
            ↔ is_Some (m !! c) ∨ ∃ i, i ∈ l ∧ g !! i = Some c).
Proof.
  revert m. induction l as [|i l IH]; intros m Hl.
  - exists m. split; [done|]. split; [done|]. intros c. split; [auto|].
    intros [?|(i & Hi & _)]; [done|]. by apply elem_of_nil in Hi.
  - apply Forall_cons_1 in Hl as [Hi Hl]. rewrite for_each_cons.
    destruct (lookup_lt_is_Some_2 g i Hi) as [ch Hch].
    rewrite (AnalyzeWordle_init_Some _ _ _ _ Hch), bind_Ok.
    set (m1 := match m !! ch with
               | Some _ => m
               | None => <[ch := LetterInfo_zero]> m
               end).
    destruct (IH m1 Hl) as (m' & Hrun & Hinfo & Hdom).
    assert (Hinfo1 : ∀ c, info_at m1 c = info_at m c).
    { intros c. subst m1. destruct (m !! ch) eqn:Hm; [done|].
      unfold info_at. destruct (decide (ch = c)) as [->|Hne].
      - by rewrite lookup_insert_eq, Hm.
      - by rewrite lookup_insert_ne. }
    assert (Hdom1 : ∀ c, is_Some (m1 !! c) ↔ is_Some (m !! c) ∨ ch = c).
    { intros c. subst m1. destruct (m !! ch) eqn:Hm.
      - split; [auto|]. intros [?|<-]; [done|]. by rewrite Hm.
      - rewrite lookup_insert_is_Some. destruct (decide (ch = c)); naive_solver. }
    exists m'. split; [done|]. split; [intros c; by rewrite Hinfo|].
    intros c. rewrite Hdom, Hdom1. split.
    + intros [[?|<-]|(j & Hj & Hgj)]; [by left| |].
      * right. exists i. split; [set_solver|done].
      * right. exists j. split; [set_solver|done].
    + intros [?|(j & Hj & Hgj)]; [by left; left|].
      apply elem_of_cons in Hj as [->|Hj].
      * left; right. congruence.
      * right. eauto.
Qed.

Lemma count_at_insert_eq (m : gmap ascii nat) c n :
  count_at (<[c := n]> m) c = n.
Proof. unfold count_at. by rewrite lookup_insert_eq. Qed.

Lemma holds_Some (w : list ascii) c i ch :
  w !! i = Some ch → holds w c i = bool_decide (ch = c).
Proof.
  intros H. unfold holds. rewrite H. apply bool_decide_ext. naive_solver.
Qed.

(** A step that rewrites the entry of [ch] changes the view of [ch] and
    of no other letter, and adds no key when [ch] has one. *)
Lemma view_insert (st : analysis_state) ch info used c :
  view (<[ch := info]> st.1, <[ch := used]> st.2) c
  = if decide (ch = c) then (info, used) else view st c.
Proof.
  unfold view, info_at, count_at. simpl. destruct (decide (ch = c)) as [->|Hne].
  - by rewrite !lookup_insert_eq.
  - by rewrite !lookup_insert_ne.
Qed.

Lemma view_insert_info (st : analysis_state) ch info c :
  view (<[ch := info]> st.1, st.2) c
  = if decide (ch = c) then (info, count_at st.2 c) else view st c.
Proof.
  unfold view, info_at. simpl. destruct (decide (ch = c)) as [->|Hne].
  - by rewrite !lookup_insert_eq.
  - by rewrite !lookup_insert_ne.
Qed.

Lemma AnalyzeWordle_first_step (t g : list ascii) i st gch tch :
  g !! i = Some gch → t !! i = Some tch →
  ∃ st',
    AnalyzeWordle_first t g i st = Ok st'
    ∧ (∀ c, view st' c = letter_first (holds g c) (holds t c) (view st c) i)
    ∧ (∀ c, is_Some (st'.1 !! c) ↔ is_Some (st.1 !! c) ∨ (gch = c ∧ tch = c)).
Proof.
  intros Hg Ht. destruct st as [infos used].
  unfold AnalyzeWordle_first. rewrite (load_Ok _ _ _ Hg), (load_Ok _ _ _ Ht).
  rewrite !bind_Ok. destruct (decide (gch = tch)) as [<-|Hne].
  - eexists. split; [done|]. split.
    + intros c.
      rewrite (view_insert (infos, used)). unfold letter_first.
      rewrite (holds_Some _ _ _ _ Hg), (holds_Some _ _ _ _ Ht).
      destruct (decide (gch = c)) as [->|Hc].
      * rewrite bool_decide_eq_true_2 by done. simpl.
        by rewrite count_at_insert_eq.
      * by rewrite bool_decide_eq_false_2 by done.
    + intros c. simpl. rewrite lookup_insert_is_Some.
      destruct (decide (gch = c)); naive_solver.
  - exists (infos, used). split; [done|]. split.
    + intros c. unfold letter_first.
      rewrite (holds_Some _ _ _ _ Hg), (holds_Some _ _ _ _ Ht).
      repeat case_bool_decide; simpl; congruence.
    + intros c. naive_solver.
Qed.

Lemma AnalyzeWordle_second_step targetFreq (t g : list ascii) i st gch tch :
  g !! i = Some gch → t !! i = Some tch →
  ∃ st',
    AnalyzeWordle_second targetFreq t g i st = Ok st'
    ∧ (∀ c, view st' c
            = letter_second (count_at targetFreq c) (holds g c) (holds t c)
                (view st c) i)
    ∧ (∀ c, is_Some (st'.1 !! c) ↔ is_Some (st.1 !! c) ∨ (gch = c ∧ tch ≠ c)).
Proof.
  intros Hg Ht. destruct st as [infos used].
  unfold AnalyzeWordle_second. rewrite (load_Ok _ _ _ Hg), (load_Ok _ _ _ Ht).
  rewrite !bind_Ok.
  assert (Hother : ∀ c, gch ≠ c →
    letter_second (count_at targetFreq c) (holds g c) (holds t c)
      (view (infos, used) c) i = view (infos, used) c).
  { intros c Hc. unfold letter_second.
    by rewrite (holds_Some _ _ _ _ Hg), bool_decide_eq_false_2 by done. }
  assert (Hself : ∀ v,
    letter_second (count_at targetFreq gch) (holds g gch) (holds t gch) v i
    = if decide (gch = tch) then v
      else second_local (count_at targetFreq gch) i v).
  { intros v. unfold letter_second.
    rewrite (holds_Some _ _ _ _ Hg), (holds_Some _ _ _ _ Ht).
    rewrite bool_decide_eq_true_2 by done. simpl.
    destruct (decide (gch = tch)) as [->|Hne].
    - by rewrite bool_decide_eq_true_2.
    - by rewrite bool_decide_eq_false_2 by congruence. }
  destruct (decide (gch = tch)) as [<-|Hne].
  { exists (infos, used). split; [done|]. split.
    - intros c. destruct (decide (gch = c)) as [<-|Hc].
      + by rewrite Hself.
      + by rewrite Hother.
    - intros c. naive_solver. }
  assert (Hdom : ∀ (x : LetterInfo) c,
    is_Some (<[gch := x]> infos !! c)
    ↔ is_Some (infos !! c) ∨ (gch = c ∧ tch ≠ c)).
  { intros x c. rewrite lookup_insert_is_Some.
    destruct (decide (gch = c)); naive_solver. }
  destruct (decide (count_at targetFreq gch = 0)) as [H0|H0].
  { eexists. split; [done|]. split; [|apply Hdom].
    intros c. rewrite (view_insert_info (infos, used)).
    destruct (decide (gch = c)) as [<-|Hc]; [|by rewrite Hother].
    rewrite Hself. unfold second_local, view. simpl.
    by rewrite decide_True. }
  destruct (decide (count_at used gch < count_at targetFreq gch)) as [Hlt|Hge].
  - eexists. split; [done|]. split; [|apply Hdom].
    intros c. rewrite (view_insert (infos, used)).
    destruct (decide (gch = c)) as [<-|Hc]; [|by rewrite Hother].
    rewrite Hself. unfold second_local, view. simpl.
    rewrite decide_False, decide_True by done.
    by rewrite count_at_insert_eq.
  - eexists. split; [done|]. split; [|apply Hdom].
    intros c. rewrite (view_insert_info (infos, used)).
    destruct (decide (gch = c)) as [<-|Hc]; [|by rewrite Hother].
    rewrite Hself. unfold second_local, view. simpl.
    by rewrite decide_False, decide_False.
Qed.

(** A pass is a loop of steps, each of which moves every view by the
    letter's own step. *)
Lemma pass_loop (g : list ascii)
    (step : nat → analysis_state → result analysis_state)
    (local : ascii → LetterInfo * nat → nat → LetterInfo * nat) l st :
  (∀ i st, i ∈ l →
     ∃ st' gch, g !! i = Some gch
       ∧ step i st = Ok st'
       ∧ (∀ c, view st' c = local c (view st c) i)
       ∧ (∀ c, is_Some (st'.1 !! c) → is_Some (st.1 !! c) ∨ gch = c)
       ∧ (∀ c, is_Some (st.1 !! c) → is_Some (st'.1 !! c))) →
  ∃ st',
    for_each step l st = Ok st'
    ∧ (∀ c, view st' c = foldl (local c) (view st c) l)
    ∧ (∀ c, is_Some (st'.1 !! c) →
            is_Some (st.1 !! c) ∨ ∃ i, i ∈ l ∧ g !! i = Some c)
    ∧ (∀ c, is_Some (st.1 !! c) → is_Some (st'.1 !! c)).
Proof.
  revert st. induction l as [|i l IH]; intros st Hstep.
  - exists st. split; [done|]. split; [done|]. split; auto.
  - rewrite for_each_cons.
    destruct (Hstep i st ltac:(set_solver))
      as (st1 & gch & Hg & -> & Hv1 & Hd1 & Hk1).
    rewrite bind_Ok.
    destruct (IH st1) as (st' & Hrun & Hv & Hd & Hk).
    { intros j st0 Hj. apply Hstep. set_solver. }
    exists st'. split; [done|]. split; [|split].
    + intros c. rewrite Hv. simpl. by rewrite Hv1.
    + intros c Hc. destruct (Hd c Hc) as [H1|(j & Hj & Hgj)].
      * destruct (Hd1 c H1) as [?|<-]; [by left|].
        right. exists i. split; [set_solver|done].
      * right. exists j. split; [set_solver|done].
    + intros c Hc. by apply Hk, Hk1.
Qed.

Lemma lookup_seq_5 (w : list ascii) i :
  5 ≤ length w → i ∈ seq 0 5 → ∃ ch, w !! i = Some ch.
Proof.
  intros Hw Hi%elem_of_seq. apply lookup_lt_is_Some_2. lia.
Qed.

Lemma count5_holds (w : list ascii) c :
  count5 w c = length (filter (λ i, holds w c i = true) (seq 0 5)).
Proof.
  unfold count5. f_equal. apply list_filter_iff. intros i.
  unfold holds. by rewrite bool_decide_eq_true.
Qed.

(** The analysis has an entry for every letter of the guess and no other,
    and the entry of a letter is the letter's own run of the passes. *)
Lemma AnalyzeWordle_spec (target guess : string) :
  5 ≤ String.length target → 5 ≤ String.length guess →
  ∃ analysis,
    AnalyzeWordle target guess = Ok analysis
    ∧ ∀ c info,
        LetterInfos analysis !! c = Some info
        ↔ (∃ i, i ∈ seq 0 5 ∧ bytes guess !! i = Some c)
          ∧ info = letter_info (holds (bytes guess) c) (holds (bytes target) c).
Proof.
  rewrite <- !length_bytes. unfold AnalyzeWordle.
  set (t := bytes target). set (g := bytes guess). intros Ht Hg.
  destruct (letter_counts_spec t Ht) as (targetFreq & -> & Htf).
  rewrite bind_Ok.
  destruct (AnalyzeWordle_init_loop g (seq 0 5) ∅ (seq_5_in_range g Hg))
    as (m0 & -> & Hinfo0 & Hdom0).
  rewrite bind_Ok.
  destruct (pass_loop g (AnalyzeWordle_first t g)
              (λ c, letter_first (holds g c) (holds t c)) (seq 0 5) (m0, ∅))
    as (st1 & -> & Hv1 & Hd1 & Hk1).
  { intros i st Hi.
    destruct (lookup_seq_5 g i Hg Hi) as [gch Hgch].
    destruct (lookup_seq_5 t i Ht Hi) as [tch Htch].
    destruct (AnalyzeWordle_first_step t g i st gch tch Hgch Htch)
      as (st' & Hrun & Hv & Hd).
    exists st', gch. split; [done|]. split; [done|]. split; [done|].
    split; intros c Hc; apply Hd in Hc || apply Hd; tauto. }
  rewrite bind_Ok.
  destruct (pass_loop g (AnalyzeWordle_second targetFreq t g)
              (λ c, letter_second (count_at targetFreq c) (holds g c) (holds t c))
              (seq 0 5) st1)
    as (st2 & -> & Hv2 & Hd2 & Hk2).
  { intros i st Hi.
    destruct (lookup_seq_5 g i Hg Hi) as [gch Hgch].
    destruct (lookup_seq_5 t i Ht Hi) as [tch Htch].
    destruct (AnalyzeWordle_second_step targetFreq t g i st gch tch Hgch Htch)
      as (st' & Hrun & Hv & Hd).
    exists st', gch. split; [done|]. split; [done|]. split; [done|].
    split; intros c Hc; apply Hd in Hc || apply Hd; tauto. }
  rewrite bind_Ok. eexists. split; [done|]. simpl.
  assert (Hdom : ∀ c, is_Some (st2.1 !! c)
                      ↔ ∃ i, i ∈ seq 0 5 ∧ g !! i = Some c).
  { intros c. split.
    - intros Hc. destruct (Hd2 c Hc) as [Hc1|?]; [|done].
      destruct (Hd1 c Hc1) as [Hc0|?]; [|done]. simpl in Hc0.
      apply Hdom0 in Hc0 as [Hc0|?]; [|done].
      rewrite lookup_empty in Hc0. by destruct Hc0.
    - intros Hc. apply Hk2, Hk1. simpl. apply Hdom0. by right. }
  assert (Hval : ∀ c, AnalyzeWordle_mark (info_at st2.1 c)
                      = letter_info (holds g c) (holds t c)).
  { intros c. unfold letter_info. rewrite <- count5_holds, <- Htf.
    f_equal. change (info_at st2.1 c) with (view st2 c).1.
    rewrite Hv2, Hv1. unfold view at 1. simpl.
    rewrite Hinfo0. unfold info_at, count_at. by rewrite !lookup_empty. }
  intros c info. rewrite lookup_fmap, <- Hdom, <- Hval. unfold info_at.
  destruct (st2.1 !! c) as [x|]; simpl.
  - split; [intros [= <-]; eauto|]. by intros [_ ->].
  - split; [done|]. by intros [[? ?] _].
Qed.

(** *** The table holds every entry the analysis can produce *)

Lemma foldl_ext_elem {A B} (f f' : A → B → A) l a :
  (∀ a x, x ∈ l → f a x = f' a x) → foldl f a l = foldl f' a l.
Proof.
  revert a. induction l as [|x l IH]; intros a H; simpl; [done|].
  rewrite H by set_solver. apply IH. intros. apply H. set_solver.
Qed.

Lemma filter_ext_elem {A} (P Q : A → Prop)
    `{!∀ x, Decision (P x), !∀ x, Decision (Q x)} (l : list A) :
  (∀ x, x ∈ l → P x ↔ Q x) → filter P l = filter Q l.
Proof.
  induction l as [|x l IH]; intros Hext; [done|].
  rewrite !filter_cons, IH by (intros; apply Hext; set_solver).
  destruct (decide (P x)) as [HP|HP].
  - rewrite decide_True; [done|]. apply Hext; [set_solver|done].
  - rewrite decide_False; [done|].
    intros HQ. apply HP, Hext; [set_solver|done].
Qed.

Lemma letter_info_ext (gp gp' tp tp' : nat → bool) :
  (∀ i, i ∈ seq 0 5 → gp i = gp' i) → (∀ i, i ∈ seq 0 5 → tp i = tp' i) →
  letter_info gp tp = letter_info gp' tp'.
Proof.
  intros Hg Ht. unfold letter_info.
  assert (Hcount : filter (λ i, tp i = true) (seq 0 5)
                   = filter (λ i, tp' i = true) (seq 0 5)).
  { apply filter_ext_elem. intros i Hi. by rewrite (Ht i Hi). }
  rewrite Hcount. f_equal. f_equal.
  rewrite (foldl_ext_elem (letter_first gp tp) (letter_first gp' tp')).
  2:{ intros v i Hi. unfold letter_first. by rewrite Hg, Ht. }
  apply foldl_ext_elem. intros v i Hi. unfold letter_second.
  by rewrite Hg, Ht.
Qed.

Lemma pattern_at_of f i : i ∈ seq 0 5 → pattern_at (pattern_of f) i = f i.
Proof.
  intros Hi%elem_of_seq. unfold pattern_at, pattern_of.
  do 5 (destruct i as [|i]; [done|]). lia.
Qed.

Lemma pattern_of_patterns f : pattern_of f ∈ patterns.
Proof.
  unfold pattern_of. simpl.
  destruct (f 0), (f 1), (f 2), (f 3), (f 4);
    apply (bool_decide_unpack _); by vm_compute.
Qed.

Lemma pattern_count_of f :
  pattern_count (pattern_of f) = length (filter (λ i, f i = true) (seq 0 5)).
Proof.
  unfold pattern_count, pattern_of. simpl.
  rewrite !filter_cons, filter_nil.
  destruct (f 0), (f 1), (f 2), (f 3), (f 4); reflexivity.
Qed.

(** Checked on all 32 * 32 patterns: the entry of a letter that the guess
    holds is fine unless both the guess and the target hold it four times
    or more. *)
Lemma patterns_checked :
  forallb (λ gp,
    forallb (λ tp,
      implb (bool_decide (0 < pattern_count gp)
             && (bool_decide (pattern_count gp ≤ 3)
                 || bool_decide (pattern_count tp ≤ 3)))
            (entry_ok (letter_info (pattern_at gp) (pattern_at tp))))
      patterns) patterns = true.
Proof. vm_compute. reflexivity. Qed.

(** Every entry of the table is its own canonical form, with positions in
    range. *)
Lemma table_checked :
  forallb (λ info,
    bool_decide (Canonical info
                 = (MustBeInPositions info, CantBeInPositions info,
                    Frequency info, FrequencyIsExact info))
    && forallb (λ pos, bool_decide (pos < 5)) (MustBeInPositions info)
    && forallb (λ pos, bool_decide (pos < 5)) (CantBeInPositions info))
    GenerateAllLetterInfos = true.
Proof. vm_compute. reflexivity. Qed.

(** ** The precomputed table *)

Lemma forallb_lt_5 l :
  forallb (λ pos, bool_decide (pos < 5)) l = true → Forall (λ pos, pos < 5) l.
Proof.
  induction l as [|x l IH]; simpl; [by constructor|].
  intros [Hx Hl]%andb_prop. constructor; [|by apply IH].
  by apply bool_decide_eq_true in Hx.
Qed.

Lemma table_entry info :
  info ∈ GenerateAllLetterInfos →
  Canonical info = (MustBeInPositions info, CantBeInPositions info,
                    Frequency info, FrequencyIsExact info)
  ∧ in_range info.
Proof.
  intros Hin. pose proof table_checked as Hall.
  rewrite forallb_forall in Hall. apply list_elem_of_In, Hall in Hin.
  apply andb_prop in Hin as [[Hc Hm]%andb_prop Hcant].
  apply bool_decide_eq_true in Hc. split; [done|].
  split; by apply forallb_lt_5.
Qed.

(** On the entries of the table the hash tells the keys apart. *)
Lemma Hash_inj letter letter' info info' :
  info ∈ GenerateAllLetterInfos → info' ∈ GenerateAllLetterInfos →
  Hash {| Letter := letter; Info := info |}
  = Hash {| Letter := letter'; Info := info' |} →
  letter = letter' ∧ info = info'.
Proof.
  intros [Hc _]%table_entry [Hc' _]%table_entry. unfold Hash. simpl.
  rewrite Hc, Hc'. destruct info, info'. simpl. by intros [= -> -> -> -> ->].
Qed.

Lemma BuildPrecomputedConstraints_bitvector words letter info :
  Forall (λ w, 5 ≤ String.length w) words → in_range info →
  ∃ bv,
    for_range (λ i word bv,
                 ok ← TestLetterConstraint word letter info;
                 if ok : bool then Bitvector.Set_ bv i else Ok bv)
              0 words (Bitvector.New (length words)) = Ok bv
    ∧ bits_ok words bv letter info.
Proof.
  intros Hwords Hr.
  rewrite (for_range_ext _
    (λ i word bv, if decide (tests (bytes word) letter info = true)
                  then Bitvector.Set_ bv i else Ok bv)).
  2:{ intros k w bv Hk. rewrite Forall_forall in Hwords.
      rewrite TestLetterConstraint_spec, bind_Ok;
        [|apply Hwords; by eapply list_elem_of_lookup_2|done].
      by destruct (tests (bytes w) letter info). }
  destruct (set_loop_gen Bitvector.Bytes Bitvector.Set_ Bitvector_Set_bits
              (λ w, tests (bytes w) letter info = true) words 0
              (Bitvector.New (length words))) as (bv & Hrun & _ & Hbit).
  { simpl. apply words_New_capacity. }
  exists bv. split; [done|]. intros j. rewrite Hbit. simpl.
  rewrite bit_words_New, Nat.sub_0_r. split.
  - intros [?|(w & _ & Hw & Ht)]; [done|]. eauto.
  - intros (w & Hw & Ht). right. exists w. split; [lia|done].
Qed.

(** Every entry of the table is the bitset of its letter and entry, and
    the table has an entry for every letter and every [LetterInfo] of
    [GenerateAllLetterInfos]. *)
Lemma BuildPrecomputedConstraints_spec words :
  Forall (λ w, 5 ≤ String.length w) words →
  ∃ precomputed,
    BuildPrecomputedConstraints words = Ok precomputed
    ∧ ∀ letter info,
        letter ∈ letters → info ∈ GenerateAllLetterInfos →
        ∃ bv, Constraints precomputed !! Hash {| Letter := letter; Info := info |}
              = Some bv
              ∧ bits_ok words bv letter info.
Proof.
  intros Hwords. unfold BuildPrecomputedConstraints. cbv zeta.
  pose (St := (gmap constraint_hash Bitvector.t
               * gmap constraint_hash LetterConstraintKey)%type).
  set (Inv := λ st : St, ∀ letter info bv,
         info ∈ GenerateAllLetterInfos →
         st.1 !! Hash {| Letter := letter; Info := info |} = Some bv →
         bits_ok words bv letter info).
  set (ext := λ st st' : St, ∀ h bv, st.1 !! h = Some bv → st'.1 !! h = Some bv).
  set (Post := λ letter info (st : St),
         is_Some (st.1 !! Hash {| Letter := letter; Info := info |})).
  assert (Hrefl : ∀ st, ext st st) by (by intros st h bv).
  assert (Htrans : ∀ s1 s2 s3, ext s1 s2 → ext s2 s3 → ext s1 s3).
  { intros s1 s2 s3 H12 H23 h bv Hh. by apply H23, H12. }
  assert (Hstable : ∀ letter info st st',
            Post letter info st → ext st st' → Post letter info st').
  { intros letter info st st' [bv Hbv] Hext. exists bv. by apply Hext. }
  assert (Hone : ∀ letter info st,
            info ∈ GenerateAllLetterInfos → Inv st →
            ∃ st', BuildPrecomputedConstraints_one words letter info st = Ok st'
                   ∧ Inv st' ∧ ext st st' ∧ Post letter info st').
  { intros letter info [constraints keyMap] Hin Hinv.
    unfold BuildPrecomputedConstraints_one.
    destruct (constraints !! Hash {| Letter := letter; Info := info |})
      as [bv0|] eqn:Hlook.
    - eexists. split; [done|]. split; [done|]. split; [done|]. by exists bv0.
    - destruct (BuildPrecomputedConstraints_bitvector words letter info Hwords)
        as (bv & -> & Hbits); [by apply table_entry|].
      rewrite bind_Ok. eexists. split; [done|]. split; [|split].
      + intros letter' info' bv' Hin' Hl'. simpl in Hl'.
        destruct (decide (Hash {| Letter := letter; Info := info |}
                          = Hash {| Letter := letter'; Info := info' |}))
          as [Heq|Hne].
        * rewrite Heq, lookup_insert_eq in Hl'. injection Hl' as <-.
          by destruct (Hash_inj _ _ _ _ Hin Hin' Heq) as [<- <-].
        * rewrite lookup_insert_ne in Hl' by done. by eapply Hinv.
      + intros h bv' Hh. simpl in *.
        rewrite lookup_insert_ne; [done|]. congruence.
      + unfold Post. simpl. by rewrite lookup_insert_eq. }
  destruct (for_each_inv
              (λ letter st,
                 for_each (BuildPrecomputedConstraints_one words letter)
                          GenerateAllLetterInfos st)
              Inv ext
              (λ letter st, ∀ info, info ∈ GenerateAllLetterInfos →
                                    Post letter info st)
              letters (∅, ∅) Hrefl Htrans)
    as ([constraints keyMap] & -> & Hinv & _ & Hpost).
  - intros letter st st' HP Hext info Hin. eapply Hstable; [by apply HP|done].
  - intros letter st _ Hinv.
    apply (for_each_inv (BuildPrecomputedConstraints_one words letter)
             Inv ext (Post letter) GenerateAllLetterInfos st Hrefl Htrans).
    + intros info s s'. apply Hstable.
    + intros info s Hin Hinv'. by apply Hone.
    + done.
  - intros letter info bv _ Hl. simpl in Hl. by rewrite lookup_empty in Hl.
  - rewrite bind_Ok. eexists. split; [done|]. simpl.
    intros letter info Hletter Hin.
    destruct (Hpost letter Hletter info Hin) as [bv Hbv].
    exists bv. split; [done|]. by eapply Hinv.
Qed.

(** ** The structural path *)

Lemma WordSatisfiesConstraints_spec (w : WordleAnalysis) (word : string) :
  5 ≤ String.length word →
  map_Forall (λ _ info, in_range info) (LetterInfos w) →
  WordSatisfiesConstraints w word = Ok (bool_decide (passes w word)).
Proof.
  intros Hw. rewrite <- length_bytes in Hw.
  unfold WordSatisfiesConstraints, passes.
  destruct (letter_counts_spec _ Hw) as (wordFreq & -> & Hfreq).
  rewrite bind_Ok. generalize (LetterInfos w).
  apply (map_fold_weak_ind (λ r m,
    map_Forall (λ _ info, in_range info) m →
    r = Ok (bool_decide
              (map_Forall (λ c info, satisfies (bytes word) c info = true) m)))).
  - intros _. rewrite bool_decide_eq_true_2; [done|]. apply map_Forall_empty.
  - intros c info m r Hc IH Hr.
    apply map_Forall_insert in Hr as [Hri Hr]; [|done].
    rewrite (IH Hr), bind_Ok.
    case_bool_decide as Hm.
    + rewrite satisfies_letter_spec by done. f_equal. symmetry.
      destruct (satisfies (bytes word) c info) eqn:Hs.
      * apply bool_decide_eq_true. by apply map_Forall_insert.
      * apply bool_decide_eq_false. rewrite map_Forall_insert by done.
        intros [? _]. congruence.
    + rewrite bool_decide_eq_false_2; [done|].
      rewrite map_Forall_insert by done. tauto.
Qed.

Lemma FilterWords_loop (w : WordleAnalysis) candidates validWords :
  Forall (λ word, 5 ≤ String.length word) candidates →
  map_Forall (λ _ info, in_range info) (LetterInfos w) →
  for_each (λ word validWords,
              ok ← WordSatisfiesConstraints w word;
              Ok (if ok : bool then validWords ++ [word] else validWords))
           candidates validWords
  = Ok (validWords ++ filter (passes w) candidates).
Proof.
  intros Hc Hr. revert validWords.
  induction Hc as [|word l Hword Hl IH]; intros validWords.
  - by rewrite for_each_nil, app_nil_r.
  - rewrite for_each_cons, WordSatisfiesConstraints_spec, !bind_Ok by done.
    rewrite IH, filter_cons. case_bool_decide.
    + rewrite decide_True by done. by rewrite <- app_assoc.
    + by rewrite decide_False by done.
Qed.

Lemma FilterWords_spec (w : WordleAnalysis) candidates :
  Forall (λ word, 5 ≤ String.length word) candidates →
  map_Forall (λ _ info, in_range info) (LetterInfos w) →
  FilterWords w candidates = Ok (filter (passes w) candidates).
Proof. intros Hc Hr. unfold FilterWords. by rewrite FilterWords_loop. Qed.

(** ** The bitset path *)

Lemma all_ones n :
  ∃ bv,
    for_each (λ i bv, Bitvector.Set_ bv i) (seq 0 n) (Bitvector.New n) = Ok bv
    ∧ ∀ j, bit (Bitvector.Bytes bv) j = true ↔ j < n.
Proof.
  unfold for_each.
  rewrite (for_range_ext _
    (λ i (_ : nat) bv, if decide True then Bitvector.Set_ bv i else Ok bv)).
  2:{ intros k x bv Hk. apply lookup_seq in Hk as [-> _]. done. }
  destruct (set_loop_gen Bitvector.Bytes Bitvector.Set_ Bitvector_Set_bits
              (λ _ : nat, True) (seq 0 n) 0 (Bitvector.New n))
    as (bv & Hrun & _ & Hbit).
  { rewrite length_seq. simpl. apply words_New_capacity. }
  exists bv. split; [done|]. intros j. rewrite Hbit. simpl.
  rewrite bit_words_New, Nat.sub_0_r. split.
  - intros [?|(x & _ & Hx & _)]; [done|]. by apply lookup_seq in Hx as [_ ?].
  - intros Hj. right. exists j. split; [lia|]. split; [|done].
    by apply lookup_seq.
Qed.

Lemma bit_And a b j :
  bit (Bitvector.Bytes (Bitvector.And a b)) j
  = bit (Bitvector.Bytes a) j && bit (Bitvector.Bytes b) j.
Proof. rewrite Bitvector_And_spec. simpl. apply bit_zip_land. Qed.

(** Intersecting with the table's bitset of every letter constraint. *)
Lemma intersect_constraints (table : gmap constraint_hash Bitvector.t)
    (m : gmap ascii LetterInfo) r0 j :
  bit (Bitvector.Bytes
         (map_fold (λ letter info result,
                      match table !! Hash {| Letter := letter; Info := info |} with
                      | Some bv => Bitvector.And result bv
                      | None => result
                      end) r0 m)) j = true
  ↔ bit (Bitvector.Bytes r0) j = true
    ∧ ∀ c info bv, m !! c = Some info →
        table !! Hash {| Letter := c; Info := info |} = Some bv →
        bit (Bitvector.Bytes bv) j = true.
Proof.
  apply (map_fold_weak_ind (λ r m,
    bit (Bitvector.Bytes r) j = true
    ↔ bit (Bitvector.Bytes r0) j = true
      ∧ ∀ c info bv, m !! c = Some info →
          table !! Hash {| Letter := c; Info := info |} = Some bv →
          bit (Bitvector.Bytes bv) j = true)).
  - split; [|tauto]. intros H. split; [done|]. intros c info bv Hc.
    by rewrite lookup_empty in Hc.
  - intros c info m0 r Hc IH.
    assert (Hall :
      (∀ c' info' bv, <[c := info]> m0 !! c' = Some info' →
         table !! Hash {| Letter := c'; Info := info' |} = Some bv →
         bit (Bitvector.Bytes bv) j = true)
      ↔ (∀ bv, table !! Hash {| Letter := c; Info := info |} = Some bv →
               bit (Bitvector.Bytes bv) j = true)
        ∧ (∀ c' info' bv, m0 !! c' = Some info' →
             table !! Hash {| Letter := c'; Info := info' |} = Some bv →
             bit (Bitvector.Bytes bv) j = true)).
    { split.
      - intros Hins. split; [intros bv; apply Hins, lookup_insert_eq|].
        intros c' info' bv Hc'. apply Hins. rewrite lookup_insert_ne; [done|].
        congruence.
      - intros [H1 H2] c' info' bv Hc'.
        destruct (decide (c = c')) as [<-|Hne].
        + rewrite lookup_insert_eq in Hc'. injection Hc' as <-. apply H1.
        + rewrite lookup_insert_ne in Hc' by done. by apply H2. }
    rewrite Hall.
    destruct (table !! Hash {| Letter := c; Info := info |}) as [bv0|].
    + rewrite bit_And, andb_true_iff, IH. split.
      * intros [[? ?] ?]. split; [done|]. split; [|done].
        by intros bv [= <-].
      * intros [? [H1 ?]]. split; [done|]. by apply H1.
    + rewrite IH. split; [|tauto]. intros [? ?]. split; [done|].
      split; [done|done].
Qed.

Lemma filter_none {A} (P : A → Prop) `{∀ x, Decision (P x)} (l : list A) :
  Forall (λ x, ¬ P x) l → filter P l = [].
Proof.
  induction 1 as [|x l Hx Hl IH]; [done|].
  by rewrite filter_cons, decide_False.
Qed.

(** Reading the candidates back from the set indices. *)
Lemma read_indices (candidates : list string) (B : nat → Prop)
    `{∀ j, Decision (B j)} (Q : string → Prop) `{∀ w, Decision (Q w)}
    N start validWords :
  (∀ j, B j → j < start + N) →
  (∀ j, B j ↔ ∃ w, candidates !! j = Some w ∧ Q w) →
  for_each (λ idx validWords,
              if decide (idx < length candidates) then
                word ← load candidates idx; Ok (validWords ++ [word])
              else Ok validWords)
           (filter B (seq start N)) validWords
  = Ok (validWords ++ filter Q (drop start candidates)).
Proof.
  intros Hlen HB. revert start validWords Hlen.
  induction N as [|N IH]; intros start validWords Hlen.
  - rewrite (filter_none Q); [by rewrite app_nil_r|].
    apply Forall_lookup. intros k w Hk HQ. rewrite lookup_drop in Hk.
    assert (Hb : B (start + k)) by (apply HB; eauto).
    apply Hlen in Hb. lia.
  - cbn [seq]. rewrite filter_cons.
    destruct (candidates !! start) as [w|] eqn:Hw.
    + rewrite (drop_S _ _ _ Hw), filter_cons.
      destruct (decide (B start)) as [Hb|Hb].
      * apply HB in Hb as (w' & Hw' & HQ). rewrite Hw in Hw'.
        injection Hw' as <-. rewrite decide_True by done.
        rewrite for_each_cons, decide_True by by eapply lookup_lt_Some.
        rewrite (load_Ok _ _ _ Hw), !bind_Ok, IH.
        -- by rewrite <- app_assoc.
        -- intros j Hj. apply Hlen in Hj. lia.
      * rewrite decide_False.
        -- apply IH. intros j Hj. apply Hlen in Hj as Hj'.
           destruct (decide (j = start)) as [->|]; [done|]. lia.
        -- intros HQ. apply Hb, HB. eauto.
    + rewrite decide_False.
      2:{ intros (w & Hw' & _)%HB. congruence. }
      apply lookup_ge_None in Hw. rewrite IH.
      * by rewrite !drop_ge by lia.
      * intros j Hj. apply Hlen in Hj as Hj'.
        apply HB in Hj as (w & Hw' & _). apply lookup_lt_Some in Hw'. lia.
Qed.

Lemma words_Get_true Bytes j : words_Get Bytes j = Ok true ↔ bit Bytes j = true.
Proof.
  rewrite words_Get_spec. case_decide as Hj.
  - split; congruence.
  - split; [done|]. intros Hb. by apply bit_in_range in Hb.
Qed.

Lemma validWordsFunc_spec precomputed candidates (analysis : WordleAnalysis)
    (Q : string → Prop) `{∀ w, Decision (Q w)} :
  (∀ j, (j < length candidates
         ∧ ∀ c info bv,
             LetterInfos analysis !! c = Some info →
             Constraints precomputed !! Hash {| Letter := c; Info := info |}
             = Some bv →
             bit (Bitvector.Bytes bv) j = true)
        ↔ ∃ w, candidates !! j = Some w ∧ Q w) →
  validWordsFunc precomputed candidates analysis = Ok (filter Q candidates).
Proof.
  intros HQ. unfold validWordsFunc. case_decide as Hlen.
  { destruct candidates; [done|]. simpl in Hlen. lia. }
  destruct (all_ones (length candidates)) as (r0 & -> & Hr0).
  rewrite bind_Ok. cbv zeta. unfold Bitvector.GetSetIndices.
  match goal with
  | |- context [map_fold ?f r0 ?m] => set (r1 := map_fold f r0 m)
  end.
  rewrite (read_indices candidates
             (λ i, words_Get (Bitvector.Bytes r1) i = Ok true) Q).
  - by rewrite drop_0.
  - intros j Hj%words_Get_true%bit_in_range. simpl.
    pose proof (Nat.div_mod_eq j 64). pose proof (Nat.mod_upper_bound j 64). lia.
  - intros j. rewrite words_Get_true. subst r1.
    rewrite intersect_constraints, Hr0. apply HQ.
Qed.

(** ** The two paths agree below the frequency cap *)

Lemma letters_elem ch : ch ∈ letters ↔ 97 ≤ nat_of_ascii ch ≤ 122.
Proof.
  unfold letters. rewrite list_elem_of_fmap. split.
  - intros (n & -> & Hn%elem_of_seq).
    rewrite nat_ascii_embedding by lia. lia.
  - intros Hch. exists (nat_of_ascii ch - 97). split.
    + replace (97 + (nat_of_ascii ch - 97)) with (nat_of_ascii ch) by lia.
      by rewrite ascii_nat_embedding.
    + apply elem_of_seq. lia.
Qed.

Lemma count5_pos (w : list ascii) c i :
  i ∈ seq 0 5 → w !! i = Some c → 0 < count5 w c.
Proof.
  intros Hi Hw. unfold count5.
  assert (Hin : i ∈ filter (λ i, w !! i = Some c) (seq 0 5)).
  { by apply list_elem_of_filter. }
  destruct (filter _ _); [by apply elem_of_nil in Hin|simpl; lia].
Qed.

(** The entries of an analysis below the cap are entries of the table. *)
Lemma analysis_entries (target guess : string) analysis c info :
  5 ≤ String.length target → 5 ≤ String.length guess →
  Forall (λ ch, ch ∈ letters) (take 5 (bytes guess)) →
  (count5 (bytes guess) c ≤ 3 ∨ count5 (bytes target) c ≤ 3) →
  AnalyzeWordle target guess = Ok analysis →
  LetterInfos analysis !! c = Some info →
  c ∈ letters ∧ info ∈ GenerateAllLetterInfos ∧ in_range info
  ∧ (Frequency info = 0 → FrequencyIsExact info = true).
Proof.
  intros Ht Hg Hlow Hcap Hrun Hlook.
  destruct (AnalyzeWordle_spec target guess Ht Hg) as (a & Hrun' & Hent).
  rewrite Hrun in Hrun'. injection Hrun' as <-.
  apply Hent in Hlook as [(i & Hi & Hgi) ->].
  split.
  { rewrite Forall_forall in Hlow. apply Hlow.
    apply list_elem_of_lookup. exists i. rewrite lookup_take_lt; [done|].
    apply elem_of_seq in Hi. lia. }
  set (gp := pattern_of (holds (bytes guess) c)).
  set (tp := pattern_of (holds (bytes target) c)).
  rewrite (letter_info_ext _ (pattern_at gp) _ (pattern_at tp))
    by (intros j Hj; symmetry; by apply pattern_at_of).
  pose proof patterns_checked as Hall. rewrite forallb_forall in Hall.
  specialize (Hall gp ltac:(apply list_elem_of_In, pattern_of_patterns)).
  rewrite forallb_forall in Hall.
  specialize (Hall tp ltac:(apply list_elem_of_In, pattern_of_patterns)).
  subst gp tp. rewrite !pattern_count_of, <- !count5_holds in Hall.
  rewrite bool_decide_eq_true_2 in Hall by by eapply count5_pos.
  assert (Hcap' : bool_decide (count5 (bytes guess) c ≤ 3)
                  || bool_decide (count5 (bytes target) c ≤ 3) = true).
  { apply orb_true_iff. rewrite !bool_decide_eq_true. done. }
  rewrite Hcap' in Hall. simpl in Hall. unfold entry_ok in Hall.
  apply andb_prop in Hall as [Hall H0]. apply andb_prop in Hall as [Hall Hc].
  apply andb_prop in Hall as [Hin Hm].
  apply bool_decide_eq_true in Hin. split; [done|]. split.
  - split; by apply forallb_lt_5.
  - intros Hz. apply orb_prop in H0 as [H0|H0]; [|done].
    apply negb_true_iff, bool_decide_eq_false in H0. done.
Qed.

(** C2, as the code has it.  For a target of length 5, a guess of five
    lowercase letters and candidates of length 5, when no letter occurs
    four times or more in both the guess and the target (the table stops
    at frequency 3), the structural path and the bitset path return the
    same list of words: the candidates that pass every letter constraint
    of the analysis. *)
Theorem paths_agree (target guess : string) (candidates : list string) :
  String.length target = 5 →
  lowercase_word guess →
  Forall (λ w, String.length w = 5) candidates →
  (∀ c, count5 (bytes guess) c ≤ 3 ∨ count5 (bytes target) c ≤ 3) →
  ∃ analysis,
    AnalyzeWordle target guess = Ok analysis
    ∧ structural_path target guess candidates
      = Ok (filter (passes analysis) candidates)
    ∧ bitset_path target guess candidates
      = Ok (filter (passes analysis) candidates).
Proof.
  intros Ht [Hg Hlow] Hcands Hcap.
  assert (Hcands5 : Forall (λ w, 5 ≤ String.length w) candidates).
  { eapply Forall_impl; [done|]. simpl. lia. }
  destruct (AnalyzeWordle_spec target guess) as (analysis & Hrun & _); [lia..|].
  assert (Hent : ∀ c info, LetterInfos analysis !! c = Some info →
            c ∈ letters ∧ info ∈ GenerateAllLetterInfos ∧ in_range info
            ∧ (Frequency info = 0 → FrequencyIsExact info = true)).
  { intros c info. apply (analysis_entries target guess); [lia|lia| |done|done].
    by apply Forall_take. }
  assert (Hrange : map_Forall (λ _ info, in_range info) (LetterInfos analysis)).
  { intros c info Hc. by apply (Hent c info Hc). }
  exists analysis. split; [done|]. split.
  - unfold structural_path. rewrite Hrun, bind_Ok. by apply FilterWords_spec.
  - unfold bitset_path. rewrite Hrun, bind_Ok.
    destruct (BuildPrecomputedConstraints_spec candidates Hcands5)
      as (precomputed & -> & Htable).
    rewrite bind_Ok. apply validWordsFunc_spec. intros j. split.
    + intros [Hj Hbits].
      destruct (lookup_lt_is_Some_2 candidates j Hj) as [w Hw].
      exists w. split; [done|]. intros c info Hc.
      destruct (Hent c info Hc) as (Hletter & Hin & Hr & H0).
      destruct (Htable c info Hletter Hin) as (bv & Hbv & Hok).
      specialize (Hbits c info bv Hc Hbv). apply Hok in Hbits as (w' & Hw' & Htest).
      rewrite Hw in Hw'. injection Hw' as <-.
      by rewrite <- tests_satisfies.
    + intros (w & Hw & Hpass). split; [by eapply lookup_lt_Some|].
      intros c info bv Hc Hbv.
      destruct (Hent c info Hc) as (Hletter & Hin & Hr & H0).
      destruct (Htable c info Hletter Hin) as (bv' & Hbv' & Hok).
      rewrite Hbv in Hbv'. injection Hbv' as <-. apply Hok.
      exists w. split; [done|]. rewrite tests_satisfies by done.
      by apply Hpass.
Qed.

Lemma paths_agree_witness :
  ∃ analysis,
    AnalyzeWordle "crane" "audio" = Ok analysis
    ∧ structural_path "crane" "audio" ["crane"; "react"; "speed"; "abide"]
      = Ok (filter (passes analysis) ["crane"; "react"; "speed"; "abide"])
    ∧ bitset_path "crane" "audio" ["crane"; "react"; "speed"; "abide"]
      = Ok (filter (passes analysis) ["crane"; "react"; "speed"; "abide"]).
Proof.
  apply (paths_agree "crane" "audio" ["crane"; "react"; "speed"; "abide"]).
  - reflexivity.
  - split; [reflexivity|].
    apply (Forall_forall (λ ch, ch ∈ letters)). intros ch Hch.
    apply letters_elem. revert ch Hch. apply Forall_forall.
    repeat constructor; vm_compute; lia.
  - repeat constructor.
  - intros c. left. unfold count5. simpl.
    rewrite !filter_cons, filter_nil. simpl.
    repeat case_decide; simpl; try lia; congruence.
Defined.

(** C2 as stated fails on the code: with the letter a five times in the
    guess and in the target, the analysis asks for frequency 5, which the
    table does not hold; the bitset path skips the constraint and keeps
    "bbbbb", which the structural path rejects. *)
Lemma paths_differ_counterexample :
  structural_path "aaaaa" "aaaaa" ["aaaaa"; "bbbbb"] = Ok ["aaaaa"]
  ∧ bitset_path "aaaaa" "aaaaa" ["aaaaa"; "bbbbb"] = Ok ["aaaaa"; "bbbbb"].
Proof. split; vm_compute; reflexivity. Qed.

(** ** The guess-pair search *)

Lemma letter_index_inj ch ch' : letter_index ch = letter_index ch' → ch = ch'.
Proof.
  unfold letter_index. intros Heq.
  pose proof (nat_ascii_bounded ch). pose proof (nat_ascii_bounded ch').
  assert (Hn : nat_of_ascii ch = nat_of_ascii ch').
  { pose proof (Nat.div_mod_eq (nat_of_ascii ch + 256 - 97) 256).
    pose proof (Nat.div_mod_eq (nat_of_ascii ch' + 256 - 97) 256).
    pose proof (Nat.mod_upper_bound (nat_of_ascii ch + 256 - 97) 256).
    pose proof (Nat.mod_upper_bound (nat_of_ascii ch' + 256 - 97) 256).
    lia. }
  rewrite <- (ascii_nat_embedding ch), <- (ascii_nat_embedding ch').
  congruence.
Qed.

Lemma letter_index_lowercase ch : ch ∈ letters → letter_index ch < 26.
Proof.
  intros Hch%letters_elem. unfold letter_index.
  replace (nat_of_ascii ch + 256 - 97) with (nat_of_ascii ch - 97 + 1 * 256) by lia.
  rewrite Nat.Div0.mod_add, Nat.mod_small; lia.
Qed.

Lemma for_each_load {St} (w : list ascii) (f : ascii → St → result St)
    start n s :
  start + n ≤ length w →
  for_each (λ i s, ch ← load w i; f ch s) (seq start n) s
  = for_each f (take n (drop start w)) s.
Proof.
  revert start s. induction n as [|n IH]; intros start s Hlen; [done|].
  destruct (lookup_lt_is_Some_2 w start) as [ch Hch]; [lia|].
  cbn [seq]. rewrite (drop_S _ _ _ Hch). cbn [take].
  rewrite !for_each_cons, (load_Ok _ _ _ Hch), bind_Ok.
  destruct (f ch s); simpl; [|done]. apply IH. lia.
Qed.

(** Setting the bits of a list of letters: the count grows by the number
    of letters exactly when they are distinct and new. *)
Lemma mask_loop (l : list ascii) bv :
  Forall (λ ch, letter_index ch / 64 < length (Bitvec.Bytes bv)) l →
  ∃ bv',
    for_each (λ ch bv, Bitvec.Set_ bv (letter_index ch)) l bv = Ok bv'
    ∧ length (Bitvec.Bytes bv') = length (Bitvec.Bytes bv)
    ∧ (∀ j, bit (Bitvec.Bytes bv') j = true
            ↔ bit (Bitvec.Bytes bv) j = true
              ∨ ∃ ch, ch ∈ l ∧ letter_index ch = j)
    ∧ Bitvec.Count bv' ≤ Bitvec.Count bv + length l
    ∧ (Bitvec.Count bv' = Bitvec.Count bv + length l
       ↔ NoDup l ∧ ∀ ch, ch ∈ l → bit (Bitvec.Bytes bv) (letter_index ch) = false).
Proof.
  revert bv. induction l as [|ch l IH]; intros bv Hl.
  - exists bv. split; [done|]. split; [done|]. split; [|split].
    + intros j. split; [auto|]. intros [?|(ch & Hch & _)]; [done|].
      by apply elem_of_nil in Hch.
    + simpl. lia.
    + simpl. split; [|lia]. intros _. split; [constructor|].
      intros ch Hch. by apply elem_of_nil in Hch.
  - apply Forall_cons_1 in Hl as [Hch Hl]. rewrite for_each_cons.
    destruct (Bitvec_Set_spec bv _ Hch) as (bv1 & -> & Hlen1 & _ & Hc1 & Hb1).
    rewrite bind_Ok.
    destruct (IH bv1) as (bv' & Hrun & Hlen' & Hb' & Hle & Heq).
    { by rewrite Hlen1. }
    exists bv'. split; [done|]. split; [congruence|]. split; [|split].
    + intros j. rewrite Hb', Hb1, orb_true_iff, bool_decide_eq_true. split.
      * intros [[?| ->]|(x & Hx & Hj)]; [by left| |].
        -- right. exists ch. split; [set_solver|done].
        -- right. exists x. split; [set_solver|done].
      * intros [?|(x & [-> |Hx]%elem_of_cons & Hj)]; [by left; left| |].
        -- left; right. done.
        -- right. eauto.
    + simpl. destruct (bit (Bitvec.Bytes bv) (letter_index ch)); lia.
    + simpl. split.
      * intros Hcount.
        assert (Hnew : bit (Bitvec.Bytes bv) (letter_index ch) = false).
        { destruct (bit (Bitvec.Bytes bv) (letter_index ch)); [lia|done]. }
        rewrite Hnew in Hc1.
        destruct (proj1 Heq ltac:(lia)) as [Hnd Hfresh].
        assert (Hold : ∀ x, x ∈ l →
                  bit (Bitvec.Bytes bv) (letter_index x) = false
                  ∧ letter_index x ≠ letter_index ch).
        { intros x Hx. specialize (Hfresh x Hx). rewrite Hb1 in Hfresh.
          apply orb_false_iff in Hfresh as [? Hne].
          by apply bool_decide_eq_false in Hne. }
        split.
        -- constructor; [|done]. intros Hin.
           by destruct (Hold ch Hin) as [_ ?].
        -- intros x [-> |Hx]%elem_of_cons; [done|]. by apply Hold.
      * intros [Hnd Hfresh]. apply NoDup_cons in Hnd as [Hnin Hnd].
        rewrite (Hfresh ch) in Hc1 by set_solver.
        assert (Hcount : Bitvec.Count bv' = Bitvec.Count bv1 + length l).
        { apply Heq. split; [done|]. intros x Hx. rewrite Hb1.
          rewrite (Hfresh x) by set_solver. simpl.
          apply bool_decide_eq_false. intros Hi%letter_index_inj. congruence. }
        lia.
Qed.

Lemma letterMask_spec (guess : string) :
  5 ≤ String.length guess →
  Forall (λ ch, letter_index ch < 64) (take 5 (bytes guess)) →
  ∃ bv,
    letterMask guess = Ok bv
    ∧ (∀ j, bit (Bitvec.Bytes bv) j = true
            ↔ ∃ ch, ch ∈ take 5 (bytes guess) ∧ letter_index ch = j)
    ∧ (Bitvec.Count bv = 5 ↔ NoDup (take 5 (bytes guess))).
Proof.
  intros Hlen Hidx. rewrite <- length_bytes in Hlen. unfold letterMask.
  rewrite (for_each_load (bytes guess)
             (λ ch bitvec, Bitvec.Set_ bitvec (letter_index ch))) by (simpl; lia).
  rewrite drop_0.
  destruct (mask_loop (take 5 (bytes guess)) (Bitvec.New 26))
    as (bv & Hrun & _ & Hbit & _ & Hcount).
  { eapply Forall_impl; [done|]. intros ch Hch. simpl.
    change (length (words_New 26)) with 1.
    by apply Nat.Div0.div_lt_upper_bound. }
  exists bv. split; [done|]. split.
  - intros j. rewrite Hbit. simpl. rewrite bit_words_New. naive_solver.
  - rewrite length_take in Hcount.
    replace (5 `min` length (bytes guess)) with 5 in Hcount by lia.
    change (Bitvec.Count (Bitvec.New 26) + 5) with 5 in Hcount.
    rewrite Hcount. split; [by intros [? _]|]. intros Hnd. split; [done|].
    intros ch _. apply bit_words_New.
Qed.

Lemma lowercase_word_mask (guess : string) :
  lowercase_word guess →
  take 5 (bytes guess) = bytes guess
  ∧ 5 ≤ String.length guess
  ∧ Forall (λ ch, letter_index ch < 64) (take 5 (bytes guess)).
Proof.
  intros [Hlen Hlow].
  assert (Htake : take 5 (bytes guess) = bytes guess).
  { apply take_ge. rewrite length_bytes. lia. }
  split; [done|]. split; [lia|]. rewrite Htake.
  eapply Forall_impl; [done|]. intros ch Hch%letter_index_lowercase.
  simpl. lia.
Qed.

(** Only the guesses with five distinct letters are kept, each with its
    letter set. *)
Lemma filterGuesses_loop guesses guessBitvecs filteredGuesses :
  Forall lowercase_word guesses →
  ∃ bvs,
    for_each (λ guess '(guessBitvecs, filteredGuesses),
                bitvec ← letterMask guess;
                if decide (Bitvec.Count bitvec = 5)
                then Ok (guessBitvecs ++ [bitvec], filteredGuesses ++ [guess])
                else Ok (guessBitvecs, filteredGuesses))
             guesses (guessBitvecs, filteredGuesses)
    = Ok (guessBitvecs ++ bvs,
          filteredGuesses ++ filter (λ g, NoDup (bytes g)) guesses)
    ∧ Forall2 (λ bv g, letterMask g = Ok bv) bvs
              (filter (λ g, NoDup (bytes g)) guesses).
Proof.
  intros Hall. revert guessBitvecs filteredGuesses.
  induction Hall as [|guess l Hguess Hl IH]; intros guessBitvecs filteredGuesses.
  - exists []. split; [by rewrite !app_nil_r|constructor].
  - rewrite for_each_cons, filter_cons.
    destruct (lowercase_word_mask guess Hguess) as (Htake & Hlen & Hidx).
    destruct (letterMask_spec guess Hlen Hidx) as (bv & Hmask & _ & Hcount).
    rewrite Htake in Hcount. rewrite Hmask, !bind_Ok.
    destruct (decide (Bitvec.Count bv = 5)) as [H5|H5].
    + rewrite decide_True by by apply Hcount. rewrite bind_Ok.
      destruct (IH (guessBitvecs ++ [bv]) (filteredGuesses ++ [guess]))
        as (bvs & Hrun & HF).
      exists (bv :: bvs). split; [|by constructor].
      rewrite Hrun. by rewrite <- !app_assoc.
    + rewrite decide_False by (by rewrite <- Hcount). rewrite bind_Ok.
      apply IH.
Qed.

Lemma filterGuesses_spec guesses :
  Forall lowercase_word guesses →
  ∃ bvs,
    filterGuesses guesses = Ok (bvs, filter (λ g, NoDup (bytes g)) guesses)
    ∧ Forall2 (λ bv g, letterMask g = Ok bv) bvs
              (filter (λ g, NoDup (bytes g)) guesses).
Proof. intros Hall. apply (filterGuesses_loop guesses [] [] Hall). Qed.

Lemma OnesCount64_nonzero w :
  OnesCount64 w ≠ 0 ↔ ∃ i, i < 64 ∧ Z.testbit w (Z.of_nat i) = true.
Proof.
  unfold OnesCount64. split.
  - intros Hne.
    destruct (filter _ (seq 0 64)) as [|i l] eqn:Hf; [done|].
    assert (Hi : i ∈ filter (λ i, Z.testbit w (Z.of_nat i) = true) (seq 0 64)).
    { rewrite Hf. set_solver. }
    apply list_elem_of_filter in Hi as [Hb Hi%elem_of_seq]. exists i.
    split; [lia|done].
  - intros (i & Hi & Hb).
    assert (Hin : i ∈ filter (λ i, Z.testbit w (Z.of_nat i) = true) (seq 0 64)).
    { apply list_elem_of_filter. split; [done|]. apply elem_of_seq. lia. }
    destruct (filter _ (seq 0 64)); [by apply elem_of_nil in Hin|done].
Qed.

Lemma popcount_nonzero ws : popcount ws ≠ 0 ↔ ∃ j, bit ws j = true.
Proof.
  split.
  - unfold popcount. induction ws as [|w ws IH]; simpl; [done|].
    intros Hne. destruct (decide (OnesCount64 w = 0)) as [Hz|Hnz].
    + destruct IH as [j Hj]; [lia|]. exists (64 + j).
      unfold bit in *.
      replace ((64 + j) / 64) with (S (j / 64)).
      2:{ replace (64 + j) with (j + 1 * 64) by lia.
          rewrite Nat.div_add by lia. lia. }
      replace ((64 + j) mod 64) with (j mod 64).
      2:{ replace (64 + j) with (j + 1 * 64) by lia.
          by rewrite Nat.Div0.mod_add. }
      done.
    + apply OnesCount64_nonzero in Hnz as (i & Hi & Hb). exists i.
      unfold bit. rewrite Nat.div_small, Nat.mod_small by done. done.
  - intros [j Hj]. unfold bit in Hj.
    destruct (ws !! (j / 64)) as [w|] eqn:Hw; [|done].
    assert (Hnz : OnesCount64 w ≠ 0).
    { apply OnesCount64_nonzero. exists (j mod 64). split; [|done].
      by apply Nat.mod_upper_bound. }
    apply list_elem_of_lookup_2 in Hw.
    pose proof (sum_list_with_in w OnesCount64 ws Hw). unfold popcount. lia.
Qed.

(** The test of the pairing loop: the two letter sets intersect exactly
    when the guesses share a letter. *)
Lemma mask_intersect g1 g2 b1 b2 :
  lowercase_word g1 → lowercase_word g2 →
  letterMask g1 = Ok b1 → letterMask g2 = Ok b2 →
  Bitvec.Count (Bitvec.And b1 b2) ≠ 0 ↔ share_letter g1 g2.
Proof.
  intros Hw1 Hw2 Hm1 Hm2.
  destruct (lowercase_word_mask g1 Hw1) as (Ht1 & Hl1 & Hi1).
  destruct (lowercase_word_mask g2 Hw2) as (Ht2 & Hl2 & Hi2).
  destruct (letterMask_spec g1 Hl1 Hi1) as (b1' & Hm1' & Hb1 & _).
  destruct (letterMask_spec g2 Hl2 Hi2) as (b2' & Hm2' & Hb2 & _).
  rewrite Hm1 in Hm1'. injection Hm1' as <-.
  rewrite Hm2 in Hm2'. injection Hm2' as <-.
  rewrite Ht1 in Hb1. rewrite Ht2 in Hb2.
  rewrite Bitvec_And_spec. simpl. rewrite popcount_nonzero.
  unfold share_letter. rewrite Exists_exists. split.
  - intros [j Hj]. rewrite bit_zip_land in Hj.
    apply andb_prop in Hj as [(c1 & Hc1 & Hj1)%Hb1 (c2 & Hc2 & Hj2)%Hb2].
    exists c1. split; [done|].
    assert (c1 = c2) as -> by (apply letter_index_inj; congruence). done.
  - intros (ch & Hc1 & Hc2). exists (letter_index ch).
    rewrite bit_zip_land. apply andb_true_intro. split.
    + apply Hb1. eauto.
    + apply Hb2. eauto.
Qed.

(** The pairs that the goroutines have left. *)
Lemma disjoint_from_cons filteredGuesses i j js :
  disjoint_from filteredGuesses i (j :: js)
  = disjoint_from filteredGuesses i [j] ++ disjoint_from filteredGuesses i js.
Proof. unfold disjoint_from. simpl. by rewrite app_nil_r. Qed.

Lemma pending_pairs_fmap filteredGuesses (f : nat → list nat) start m :
  pending_pairs filteredGuesses start (f <$> seq start m)
  = i ← seq start m; disjoint_from filteredGuesses i (f i).
Proof.
  revert start. induction m as [|m IH]; intros start; [done|].
  cbn [seq fmap list_fmap pending_pairs]. by rewrite (IH (S start)).
Qed.

Lemma pending_pairs_goroutines filteredGuesses :
  pending_pairs filteredGuesses 0 (goroutines (length filteredGuesses))
  = disjoint_pairs filteredGuesses.
Proof. unfold goroutines, disjoint_pairs. apply pending_pairs_fmap. Qed.

(** Taking the next round of goroutine [i] off its list takes its pair,
    if it is one without a common letter, off the pairs that are left. *)
Lemma pending_pairs_insert filteredGuesses start pending i j js :
  pending !! i = Some (j :: js) →
  pending_pairs filteredGuesses start pending
  ≡ₚ disjoint_from filteredGuesses (start + i) [j]
     ++ pending_pairs filteredGuesses start (<[i := js]> pending).
Proof.
  revert start i. induction pending as [|js0 pending IH]; intros start i Hi.
  - by rewrite lookup_nil in Hi.
  - destruct i as [|i]; simpl in Hi.
    + injection Hi as ->. cbn [insert list_insert pending_pairs].
      rewrite Nat.add_0_r, disjoint_from_cons. by rewrite <- app_assoc.
    + cbn [insert list_insert pending_pairs].
      rewrite (IH (S start) i Hi).
      replace (S start + i) with (start + S i) by lia.
      rewrite !app_assoc. apply Permutation_app_tail, Permutation_app_comm.
Qed.

Section findBestGuess_props.
Context {V : Type}.
Variable score : string → string → result V.
Variable less : V → V → bool.

Variable guessBitvecs : list Bitvec.t.
Variable filteredGuesses : list string.
Hypothesis masks : Forall2 (λ bv g, letterMask g = Ok bv) guessBitvecs filteredGuesses.
Hypothesis words : Forall lowercase_word filteredGuesses.

(** One round.  A pair with a common letter is passed over: the state is
    given back as it is, whatever the scoring function does.  Any other
    pair is scored, and a panic of the scoring function is one of the
    round. *)
Lemma findBestGuess_pair_spec i j st :
  i < length filteredGuesses → j < length filteredGuesses →
  let gi := filteredGuesses !!! i in
  let gj := filteredGuesses !!! j in
  findBestGuess_pair score less guessBitvecs filteredGuesses i j st
  = if decide (share_letter gi gj) then Ok st
    else
      guessVal ← score gi gj;
      let log := scored st ++ [(gi, gj)] in
      if less guessVal (bestGuessVal st)
      then Ok {| bestGuess1 := gi; bestGuess2 := gj;
                 bestGuessVal := guessVal; scored := log |}
      else Ok {| bestGuess1 := bestGuess1 st; bestGuess2 := bestGuess2 st;
                 bestGuessVal := bestGuessVal st; scored := log |}.
Proof.
  intros Hi Hj gi gj.
  destruct (lookup_lt_is_Some_2 filteredGuesses i Hi) as [gi' Hgi].
  destruct (lookup_lt_is_Some_2 filteredGuesses j Hj) as [gj' Hgj].
  assert (gi = gi') as <- by by apply list_lookup_total_correct.
  assert (gj = gj') as <- by by apply list_lookup_total_correct.
  destruct (Forall2_lookup_r _ _ _ _ _ masks Hgi) as (bi & Hbi & Hmi).
  destruct (Forall2_lookup_r _ _ _ _ _ masks Hgj) as (bj & Hbj & Hmj).
  assert (Hshare : Bitvec.Count (Bitvec.And bi bj) ≠ 0 ↔ share_letter gi gj).
  { rewrite Forall_forall in words.
    apply mask_intersect; [apply words|apply words|done|done];
      by eapply list_elem_of_lookup_2. }
  unfold findBestGuess_pair.
  rewrite (load_Ok _ _ _ Hgi), (load_Ok _ _ _ Hgj).
  rewrite (load_Ok _ _ _ Hbi), (load_Ok _ _ _ Hbj), !bind_Ok.
  destruct (decide (Bitvec.Count (Bitvec.And bi bj) ≠ 0)) as [Hne|He].
  - by rewrite decide_True by by apply Hshare.
  - by rewrite decide_False by by rewrite <- Hshare.
Qed.

Lemma findBestGuess_round i j st :
  i < length filteredGuesses → j < length filteredGuesses →
  rounds_result score st (disjoint_from filteredGuesses i [j])
    (findBestGuess_pair score less guessBitvecs filteredGuesses i j st).
Proof.
  intros Hi Hj. rewrite findBestGuess_pair_spec by done.
  unfold disjoint_from. simpl.
  destruct (decide (share_letter _ _)) as [Hs|Hs]; simpl.
  - by rewrite app_nil_r.
  - destruct (score _ _) as [v|e] eqn:Hv; simpl.
    + by destruct (less v (bestGuessVal st)).
    + apply Exists_cons_hd. simpl. by rewrite Hv.
Qed.

Lemma rounds_result_bind st pairs1 pairs2 r (f : search → result search) :
  rounds_result score st pairs1 r →
  (∀ st1, r = Ok st1 → rounds_result score st1 pairs2 (f st1)) →
  rounds_result score st (pairs1 ++ pairs2) (r ≫= f).
Proof.
  intros Hr Hf. destruct r as [st1|e]; simpl in *.
  - specialize (Hf st1 eq_refl). destruct (f st1) as [st2|e2]; simpl in *.
    + by rewrite Hf, Hr, app_assoc.
    + apply Exists_app. by right.
  - apply Exists_app. by left.
Qed.

Lemma findBestGuess_inner i js st :
  i < length filteredGuesses →
  Forall (λ j, j < length filteredGuesses) js →
  rounds_result score st (disjoint_from filteredGuesses i js)
    (for_each (findBestGuess_pair score less guessBitvecs filteredGuesses i)
              js st).
Proof.
  intros Hi Hjs. revert st.
  induction Hjs as [|j js Hj Hjs IH]; intros st.
  - simpl. by rewrite app_nil_r.
  - rewrite for_each_cons, disjoint_from_cons.
    apply rounds_result_bind; [by apply findBestGuess_round|].
    intros st1 _. apply IH.
Qed.

Lemma findBestGuess_wait_from start pending st :
  start + length pending ≤ length filteredGuesses →
  Forall (Forall (λ j, j < length filteredGuesses)) pending →
  rounds_result score st (pending_pairs filteredGuesses start pending)
    (for_range (λ i js st,
                  for_each (findBestGuess_pair score less guessBitvecs
                                               filteredGuesses i) js st)
               start pending st).
Proof.
  intros Hlen Hall. revert start st Hlen.
  induction Hall as [|js pending Hjs Hall IH]; intros start st Hlen.
  - simpl. by rewrite app_nil_r.
  - simpl in Hlen. cbn [for_range pending_pairs].
    apply rounds_result_bind; [apply findBestGuess_inner; [lia|done]|].
    intros st1 _. apply IH. lia.
Qed.

(** The rounds of a schedule: the calls made are pairs without a common
    letter that were left, each taken off the pairs that are left. *)
Lemma findBestGuess_run_spec schedule pending st :
  length pending ≤ length filteredGuesses →
  Forall (Forall (λ j, j < length filteredGuesses)) pending →
  match findBestGuess_run score less guessBitvecs filteredGuesses
          schedule pending st with
  | Ok (pending', st') =>
      length pending' = length pending
      ∧ Forall (Forall (λ j, j < length filteredGuesses)) pending'
      ∧ ∃ l, scored st' = scored st ++ l
             ∧ l ++ pending_pairs filteredGuesses 0 pending'
               ≡ₚ pending_pairs filteredGuesses 0 pending
  | Panic _ =>
      Exists (λ p, is_Ok (score p.1 p.2) = false)
             (pending_pairs filteredGuesses 0 pending)
  end.
Proof.
  revert pending st.
  induction schedule as [|i schedule IH]; intros pending st Hlen Hall.
  - simpl. split; [done|]. split; [done|]. exists [].
    by rewrite app_nil_r.
  - cbn [findBestGuess_run].
    destruct (pending !! i) as [[|j js]|] eqn:Hi; [by apply IH| |by apply IH].
    pose proof (lookup_lt_Some _ _ _ Hi) as Hlt.
    assert (Hjs : Forall (λ j, j < length filteredGuesses) (j :: js)).
    { rewrite Forall_forall in Hall. apply Hall.
      by eapply list_elem_of_lookup_2. }
    apply Forall_cons_1 in Hjs as [Hj Hjs].
    pose proof (findBestGuess_round i j st ltac:(lia) Hj) as Hround.
    pose proof (pending_pairs_insert filteredGuesses 0 pending i j js Hi)
      as Hperm.
    change (0 + i) with i in Hperm. unfold rounds_result in Hround.
    destruct (findBestGuess_pair _ _ _ _ _ _ _) as [st1|e];
      cbn [mbind result_bind].
    + specialize (IH (<[i := js]> pending) st1).
      rewrite length_insert in IH.
      specialize (IH Hlen (Forall_insert _ _ _ _ Hall Hjs)).
      destruct (findBestGuess_run _ _ _ _ _ _ _) as [[pending' st']|e].
      * destruct IH as (Hl & Hall' & l & Hlog & Hrest).
        split; [done|]. split; [done|].
        exists (disjoint_from filteredGuesses i [j] ++ l).
        split; [by rewrite Hlog, Hround, app_assoc|].
        by rewrite Hperm, <- app_assoc, Hrest.
      * rewrite Hperm. apply Exists_app. by right.
    + rewrite Hperm. apply Exists_app. by left.
Qed.

Lemma findBestGuess_wait_spec pending st :
  length pending ≤ length filteredGuesses →
  Forall (Forall (λ j, j < length filteredGuesses)) pending →
  rounds_result score st (pending_pairs filteredGuesses 0 pending)
    (findBestGuess_wait score less guessBitvecs filteredGuesses pending st).
Proof. intros Hlen Hall. apply findBestGuess_wait_from; [lia|done]. Qed.

End findBestGuess_props.

Lemma Forall_filter_keep {A} (P Q : A → Prop) `{∀ x, Decision (Q x)} l :
  Forall P l → Forall P (filter Q l).
Proof.
  rewrite !Forall_forall. intros HP x [_ Hx]%list_elem_of_filter. by apply HP.
Qed.

Lemma goroutines_length n : length (goroutines n) = n - 1.
Proof. unfold goroutines. by rewrite length_fmap, length_seq. Qed.

Lemma goroutines_rounds n :
  Forall (Forall (λ j, j < n)) (goroutines n).
Proof.
  unfold goroutines. apply Forall_fmap, Forall_forall.
  intros i Hi%elem_of_seq. simpl. apply Forall_forall.
  intros j Hj%elem_of_seq. lia.
Qed.

(** The rounds of a schedule, from the start of the goroutines. *)
Lemma findBestGuess_run_goroutines {V} (score : string → string → result V)
    less guessBitvecs filteredGuesses schedule st :
  Forall2 (λ bv g, letterMask g = Ok bv) guessBitvecs filteredGuesses →
  Forall lowercase_word filteredGuesses →
  match findBestGuess_run score less guessBitvecs filteredGuesses
          schedule (goroutines (length filteredGuesses)) st with
  | Ok (pending', st') =>
      length pending' ≤ length filteredGuesses
      ∧ Forall (Forall (λ j, j < length filteredGuesses)) pending'
      ∧ ∃ l, scored st' = scored st ++ l
             ∧ l ++ pending_pairs filteredGuesses 0 pending'
               ≡ₚ disjoint_pairs filteredGuesses
  | Panic _ =>
      Exists (λ p, is_Ok (score p.1 p.2) = false)
             (disjoint_pairs filteredGuesses)
  end.
Proof.
  intros Hmasks Hfw.
  pose proof (findBestGuess_run_spec score less guessBitvecs filteredGuesses
                Hmasks Hfw schedule (goroutines (length filteredGuesses)) st)
    as Hspec.
  rewrite goroutines_length, pending_pairs_goroutines in Hspec.
  specialize (Hspec ltac:(lia) (goroutines_rounds _)).
  destruct (findBestGuess_run _ _ _ _ _ _ _) as [[pending' st']|e]; [|done].
  destruct Hspec as (Hl & Hall & Hlog). split; [lia|]. done.
Qed.

(** What comes before the goroutines: with fewer than two guesses of five
    distinct letters, the panic of [filteredGuesses[0]] or
    [filteredGuesses[1]]; otherwise the first two are scored, whether or
    not they have a letter in common. *)
Lemma findBestGuess_seed_spec {V} (score : string → string → result V)
    (guesses : list string) :
  Forall lowercase_word guesses →
  let filteredGuesses := filter (λ g, NoDup (bytes g)) guesses in
  ∃ guessBitvecs,
    filterGuesses guesses = Ok (guessBitvecs, filteredGuesses)
    ∧ Forall2 (λ bv g, letterMask g = Ok bv) guessBitvecs filteredGuesses
    ∧ Forall lowercase_word filteredGuesses
    ∧ findBestGuess_seed score guesses
      = match filteredGuesses with
        | g0 :: g1 :: _ =>
            v ← score g0 g1;
            Ok (guessBitvecs, filteredGuesses,
                {| bestGuess1 := g0; bestGuess2 := g1; bestGuessVal := v;
                   scored := [(g0, g1)] |})
        | _ => Panic IndexOutOfRange
        end.
Proof.
  intros Hwords filteredGuesses.
  destruct (filterGuesses_spec guesses Hwords) as (guessBitvecs & Hfilter & Hmasks).
  fold filteredGuesses in Hfilter, Hmasks.
  exists guessBitvecs. split; [done|]. split; [done|].
  split; [by apply Forall_filter_keep|].
  unfold findBestGuess_seed. rewrite Hfilter, bind_Ok.
  by destruct filteredGuesses as [|g0 [|g1 l]].
Qed.


Lemma lowercase_word_decide (w : string) :
  String.length w = 5 →
  forallb (λ ch, (97 <=? nat_of_ascii ch) && (nat_of_ascii ch <=? 122))
          (bytes w) = true →
  lowercase_word w.
Proof.
  intros Hlen Hall. split; [done|]. apply Forall_forall. intros ch Hch.
  rewrite forallb_forall in Hall. apply list_elem_of_In, Hall in Hch.
  apply andb_prop in Hch as [?%Nat.leb_le ?%Nat.leb_le].
  apply letters_elem. lia.
Qed.

Ltac lowercase_words :=
  repeat (apply Forall_cons_2; [apply lowercase_word_decide; reflexivity|]);
  apply Forall_nil_2.


(** The example vocabulary under some schedules.  The seed, "crane" and
    "react", is scored although the two share four letters.  When
    [wg.Wait()] returns before any round has run, the running best is the
    seed and nothing else was scored; the schedule [0; 0; 0] runs the
    three rounds of the first goroutine, of which only the last, "crane"
    with "lofty", is not passed over, and the run time may then see the
    [wg.Add(1)] of the round of "abide" with "lofty"; and when every
    goroutine has run all its rounds, the pairs scored after the seed are
    the two without a common letter. *)
Remark findBestGuess_schedules :
  let score g1 g2 := MaxNumCandidates example_index example_words g1 [g2] in
  scored <$> findBestGuess score Nat.ltb example_words [] true
  = Ok [("crane", "react")]
  ∧ scored <$> findBestGuess score Nat.ltb example_words [0; 0; 0] false
    = Ok [("crane", "react"); ("crane", "lofty")]
  ∧ findBestGuess score Nat.ltb example_words [0; 0; 0] true
    = Panic WaitGroupMisuse
  ∧ scored <$> findBestGuess score Nat.ltb example_words [0; 0; 0; 2] true
    = Ok [("crane", "react"); ("crane", "lofty"); ("abide", "lofty")]
  ∧ scored <$> findBestGuess_handler score Nat.ltb example_words []
    = Ok [("crane", "react"); ("crane", "lofty"); ("abide", "lofty")]
  ∧ scored <$> findBestGuess_handler score Nat.ltb example_words [2; 0]
    = Ok [("crane", "react"); ("abide", "lofty"); ("crane", "lofty")]
  ∧ share_letter "crane" "react".
Proof.
  repeat split; try (vm_compute; reflexivity).
  apply Exists_cons_hd. set_solver.
Qed.

(** A scoring function that always panics: the round on a pair with a
    common letter still returns, and the round on a pair without one
    panics. *)
Remark findBestGuess_pair_no_call :
  let score (g1 g2 : string) : result nat := Panic NilDereference in
  let st := {| bestGuess1 := "crane"; bestGuess2 := "react";
               bestGuessVal := 0; scored := [] |} in
  ∃ guessBitvecs filteredGuesses,
    filterGuesses ["crane"; "react"; "lofty"] = Ok (guessBitvecs, filteredGuesses)
    ∧ findBestGuess_pair score Nat.ltb guessBitvecs filteredGuesses 0 1 st
      = Ok st
    ∧ findBestGuess_pair score Nat.ltb guessBitvecs filteredGuesses 0 2 st
      = Panic NilDereference.
Proof.
  eexists _, _. split; [vm_compute; reflexivity|].
  split; vm_compute; reflexivity.
Qed.

(** C8.  Filtering an empty candidate list returns the empty list, but
    [findBestGuess] panics with an index out of range on an empty guess
    list, on the one empty word that an empty vocabulary file is read as,
    on a single guess, and on every list of 5-letter lowercase guesses of
    which fewer than two have five distinct letters: it reads
    [filteredGuesses[0]] and [filteredGuesses[1]] without looking at the
    length, before any goroutine is started. *)
Theorem findBestGuess_too_few :
  (∀ w, FilterWords w [] = Ok [])
  ∧ (∀ V (score : string → string → result V) less schedule misuse,
       findBestGuess score less [] schedule misuse = Panic IndexOutOfRange
       ∧ findBestGuess score less [String.EmptyString] schedule misuse
         = Panic IndexOutOfRange
       ∧ findBestGuess score less ["crane"] schedule misuse
         = Panic IndexOutOfRange)
  ∧ (∀ V (score : string → string → result V) less guesses schedule misuse,
       Forall lowercase_word guesses →
       length (filter (λ g, NoDup (bytes g)) guesses) < 2 →
       findBestGuess score less guesses schedule misuse
       = Panic IndexOutOfRange).
Proof.
  split; [done|]. split.
  { intros V score less schedule misuse. repeat split; vm_compute; reflexivity. }
  intros V score less guesses schedule misuse Hwords Hlen.
  destruct (findBestGuess_seed_spec score guesses Hwords)
    as (bvs & _ & _ & _ & Hseed).
  unfold findBestGuess. rewrite Hseed.
  destruct (filter (λ g, NoDup (bytes g)) guesses) as [|g0 [|g1 l]]; [done|done|].
  simpl in Hlen. lia.
Qed.

Lemma findBestGuess_too_few_witness :
  findBestGuess (λ _ _, Ok 0) Nat.ltb ["speed"; "crane"] [0] true
  = Panic IndexOutOfRange.
Proof.
  apply (proj2 (proj2 findBestGuess_too_few)).
  - lowercase_words.
  - vm_compute. lia.
Defined.

Lemma buckets_partition_witness :
  ∃ gm gm',
    calculateHints ["crane"; "lofty"] ["crane"; "react"; "speed"] ∅ = Ok gm
    ∧ calculateBitvecs ["crane"; "react"; "speed"] gm = Ok gm'
    ∧ ∀ guess, guess ∈ ["crane"; "lofty"] →
        ∃ gi, gm' !! guess = Some gi
          ∧ (∀ idx answer, ["crane"; "react"; "speed"] !! idx = Some answer →
               ∃ h info,
                 getHint guess answer = Ok h
                 ∧ hintsMap gi !! h = Some info
                 ∧ Bitvec.Get (bitvec info) idx = Ok true
                 ∧ ∀ h' info', hintsMap gi !! h' = Some info' →
                     Bitvec.Get (bitvec info') idx = Ok true → h' = h)
          ∧ (∀ h info idx, hintsMap gi !! h = Some info →
               Bitvec.Get (bitvec info) idx = Ok true →
               idx < length ["crane"; "react"; "speed"]).
Proof.
  apply (buckets_partition ["crane"; "lofty"] ["crane"; "react"; "speed"]);
    repeat (apply Forall_cons_2; [reflexivity|]); apply Forall_nil_2.
Defined.

(** * Further properties *)

(** ** Counting the set bits *)

Lemma length_filter_seq_shift (P : nat → Prop) `{∀ j, Decision (P j)} a n :
  length (filter P (seq a n)) = length (filter (λ j, P (a + j)) (seq 0 n)).
Proof.
  induction n as [|n IH]; [done|].
  rewrite !seq_S, !filter_app, !length_app, IH. f_equal.
  rewrite !filter_cons, !filter_nil. simpl.
  by destruct (decide (P (a + n))).
Qed.

Lemma length_filter_le {A} (P Q : A → Prop)
    `{!∀ x, Decision (P x), !∀ x, Decision (Q x)} (l : list A) :
  (∀ x, x ∈ l → P x → Q x) → length (filter P l) ≤ length (filter Q l).
Proof.
  induction l as [|x l IH]; intros Himp; [done|].
  rewrite !filter_cons.
  assert (IH' : length (filter P l) ≤ length (filter Q l)).
  { apply IH. intros y Hy. apply Himp. set_solver. }
  destruct (decide (P x)) as [HP|HP].
  - rewrite decide_True by (apply Himp; [set_solver|done]). simpl. lia.
  - destruct (decide (Q x)); simpl; lia.
Qed.

Lemma bit_cons_lt w l j : j < 64 → bit (w :: l) j = Z.testbit w (Z.of_nat j).
Proof.
  intros Hj. unfold bit.
  rewrite Nat.div_small, Nat.mod_small by done. done.
Qed.

Lemma bit_cons_ge w l j : bit (w :: l) (64 + j) = bit l j.
Proof.
  unfold bit.
  replace ((64 + j) / 64) with (S (j / 64)).
  2:{ replace (64 + j) with (1 * 64 + j) by lia.
      rewrite Nat.div_add_l by done. done. }
  replace ((64 + j) mod 64) with (j mod 64).
  2:{ replace (64 + j) with (j + 1 * 64) by lia.
      by rewrite Nat.Div0.mod_add. }
  done.
Qed.

Lemma bit_lt Bytes j : bit Bytes j = true → j < 64 * length Bytes.
Proof.
  intros Hb%bit_in_range.
  pose proof (Nat.div_mod_eq j 64). pose proof (Nat.mod_upper_bound j 64).
  lia.
Qed.

Lemma popcount_set_bits Bytes n :
  64 * length Bytes ≤ n → popcount Bytes = length (set_bits Bytes n).
Proof.
  intros Hn. unfold set_bits.
  replace n with (64 * length Bytes + (n - 64 * length Bytes)) by lia.
  rewrite seq_app, filter_app, length_app.
  rewrite (filter_none _ (seq (0 + _) _)).
  2:{ apply Forall_forall. intros j Hj%elem_of_seq Hb%bit_lt. lia. }
  cbn [length]. rewrite Nat.add_0_r. clear n Hn.
  induction Bytes as [|w l IH]; [done|].
  change (popcount (w :: l)) with (OnesCount64 w + popcount l).
  replace (64 * length (w :: l)) with (64 + 64 * length l) by (cbn [length]; lia).
  rewrite seq_app, filter_app, length_app.
  assert (H1 : length (filter (λ j, bit (w :: l) j = true) (seq 0 64))
               = OnesCount64 w).
  { unfold OnesCount64.
    rewrite (filter_ext_elem (λ j, bit (w :: l) j = true)
               (λ i, Z.testbit w (Z.of_nat i) = true) (seq 0 64)); [done|].
    intros j Hj%elem_of_seq. rewrite bit_cons_lt by lia. done. }
  assert (H2 : length (filter (λ j, bit (w :: l) j = true)
                         (seq (0 + 64) (64 * length l)))
               = popcount l).
  { rewrite IH, length_filter_seq_shift.
    rewrite (filter_ext_elem (λ j, bit (w :: l) (0 + 64 + j) = true)
               (λ j, bit l j = true)); [done|].
    intros j _. change (0 + 64 + j) with (64 + j). by rewrite bit_cons_ge. }
  by rewrite H1, H2.
Qed.

Lemma length_filter_or_eq (P : nat → Prop) `{∀ j, Decision (P j)} i n :
  i < n →
  length (filter (λ j, P j ∨ j = i) (seq 0 n))
  = length (filter P (seq 0 n)) + (if decide (P i) then 0 else 1).
Proof.
  intros Hi.
  assert (Hs : ∀ m, seq 0 (i + S m) = seq 0 i ++ i :: seq (S i) m).
  { intros m. by rewrite seq_app. }
  replace n with (i + S (n - S i)) by lia. rewrite Hs.
  rewrite !filter_app, !filter_cons, !length_app.
  rewrite (filter_ext_elem (λ j, P j ∨ j = i) P (seq 0 i)).
  2:{ intros j Hj%elem_of_seq. split; [intros [?|?]; [done|lia]|tauto]. }
  rewrite (filter_ext_elem (λ j, P j ∨ j = i) P (seq (S i) _)).
  2:{ intros j Hj%elem_of_seq. split; [intros [?|?]; [done|lia]|tauto]. }
  rewrite (decide_True (P:=P i ∨ i = i)) by tauto.
  destruct (decide (P i)); cbn [length]; lia.
Qed.

Lemma words_Set_panic Bytes Count i :
  length Bytes ≤ i / 64 → words_Set Bytes Count i = Panic IndexOutOfRange.
Proof.
  intros Hi. unfold words_Set, load. by rewrite lookup_ge_None_2.
Qed.

Lemma words_Set_counted Bytes Count i Bytes' Count' :
  Count = popcount Bytes →
  words_Set Bytes Count i = Ok (Bytes', Count') →
  Count' = popcount Bytes'.
Proof.
  intros HC Hset.
  destruct (decide (i / 64 < length Bytes)) as [Hi|Hi].
  2:{ rewrite words_Set_panic in Hset by lia. done. }
  destruct (words_Set_spec Bytes Count i Hi) as (B' & Hset' & Hlen & Hbit).
  rewrite Hset in Hset'. injection Hset' as <- ->.
  rewrite HC.
  rewrite (popcount_set_bits Bytes (64 * length Bytes)) by done.
  rewrite (popcount_set_bits Bytes' (64 * length Bytes)) by lia.
  unfold set_bits.
  rewrite (filter_ext_elem (λ j, bit Bytes' j = true)
             (λ j, bit Bytes j = true ∨ j = i)).
  2:{ intros j _. rewrite Hbit, orb_true_iff, bool_decide_eq_true. done. }
  rewrite length_filter_or_eq.
  2:{ pose proof (Nat.div_mod_eq i 64). pose proof (Nat.mod_upper_bound i 64).
      lia. }
  f_equal. destruct (bit Bytes i); by case_decide.
Qed.

Lemma popcount_words_New size : popcount (words_New size) = 0.
Proof.
  rewrite (popcount_set_bits _ (64 * length (words_New size))) by done.
  unfold set_bits. rewrite filter_none; [done|].
  apply Forall_forall. intros j _. by rewrite bit_words_New.
Qed.

Lemma popcount_zip_land_le a b :
  popcount (zip_with Z.land a b) ≤ popcount a
  ∧ popcount (zip_with Z.land a b) ≤ popcount b.
Proof.
  pose (n := 64 * (length a + length b)).
  assert (Hz : length (zip_with Z.land a b) ≤ length a `min` length b).
  { rewrite length_zip_with. lia. }
  rewrite (popcount_set_bits (zip_with Z.land a b) n) by (unfold n; lia).
  rewrite (popcount_set_bits a n), (popcount_set_bits b n) by (unfold n; lia).
  split; apply length_filter_le; intros j _; rewrite bit_zip_land;
    intros [? ?]%andb_true_iff; done.
Qed.

Lemma Bitvector_built_counted bv :
  Bitvector_built bv → Bitvector.Count bv = popcount (Bitvector.Bytes bv).
Proof.
  induction 1 as [size|bv i bv' _ IH Hset|a b _ _ _ _].
  - simpl. by rewrite popcount_words_New.
  - unfold Bitvector.Set_ in Hset.
    destruct (words_Set _ _ _) as [[B' C']|] eqn:Hw; [|done].
    simpl in Hset. injection Hset as <-. simpl.
    by eapply words_Set_counted.
  - by rewrite Bitvector_And_spec.
Qed.

Lemma Bitvec_built_counted bv :
  Bitvec_built bv → Bitvec.Count bv = popcount (Bitvec.Bytes bv).
Proof.
  induction 1 as [size|bv i bv' _ IH Hset|a b _ _ _ _].
  - simpl. by rewrite popcount_words_New.
  - unfold Bitvec.Set_ in Hset.
    destruct (words_Set _ _ _) as [[B' C']|] eqn:Hw; [|done].
    simpl in Hset. injection Hset as <-. simpl.
    by eapply words_Set_counted.
  - by rewrite Bitvec_And_spec.
Qed.

Lemma words_Get_other Bytes Bytes' i j :
  length Bytes' = length Bytes →
  (∀ j, bit Bytes' j = bit Bytes j || bool_decide (j = i)) →
  j ≠ i → words_Get Bytes' j = words_Get Bytes j.
Proof.
  intros Hlen Hbit Hne. rewrite !words_Get_spec, Hlen, Hbit.
  by rewrite (bool_decide_eq_false_2 (j = i)), orb_false_r.
Qed.

Lemma words_Set_again Bytes Count i :
  bit Bytes i = true → words_Set Bytes Count i = Ok (Bytes, Count).
Proof.
  intros Hb. pose proof (bit_in_range _ _ Hb) as Hi.
  destruct (words_Set_spec Bytes Count i Hi) as (B' & Hset & _ & _).
  rewrite Hb, Nat.add_0_r in Hset.
  unfold words_Set, load in *.
  destruct (lookup_lt_is_Some_2 Bytes _ Hi) as [w Hw].
  rewrite Hw in *. simpl in *.
  destruct (Z.land w _ =? 0)%Z; [|done].
  unfold store in Hset. rewrite decide_True in Hset by done.
  simpl in Hset. injection Hset as _ Hc. lia.
Qed.

(** X1.  [Set] followed by [Get]: on an index whose word exists, [Set]
    returns, the bit then reads as set, every other bit reads as before,
    the counter grows by one exactly when the bit was clear, the number of
    words (and, for [Bitvec], the [Size]) is unchanged, and setting the
    same index again changes nothing. *)
Theorem Set_then_Get :
  (∀ (bv : Bitvector.t) (i : nat),
     i / 64 < length (Bitvector.Bytes bv) →
     ∃ bv', Bitvector.Set_ bv i = Ok bv'
       ∧ Bitvector.Get bv' i = Ok true
       ∧ (∀ j, j ≠ i → Bitvector.Get bv' j = Bitvector.Get bv j)
       ∧ Bitvector.GetCount bv'
         = Bitvector.GetCount bv
           + (if decide (Bitvector.Get bv i = Ok true) then 0 else 1)
       ∧ length (Bitvector.Bytes bv') = length (Bitvector.Bytes bv)
       ∧ Bitvector.Set_ bv' i = Ok bv')
  ∧ (∀ (bv : Bitvec.t) (i : nat),
       i / 64 < length (Bitvec.Bytes bv) →
       ∃ bv', Bitvec.Set_ bv i = Ok bv'
         ∧ Bitvec.Get bv' i = Ok true
         ∧ (∀ j, j ≠ i → Bitvec.Get bv' j = Bitvec.Get bv j)
         ∧ Bitvec.Count bv'
           = Bitvec.Count bv
             + (if decide (Bitvec.Get bv i = Ok true) then 0 else 1)
         ∧ length (Bitvec.Bytes bv') = length (Bitvec.Bytes bv)
         ∧ Bitvec.Size bv' = Bitvec.Size bv
         ∧ Bitvec.Set_ bv' i = Ok bv').
Proof.
  split; intros bv i Hi.
  - destruct (words_Set_spec _ (Bitvector.Count bv) _ Hi)
      as (B' & Hset & Hlen & Hbit).
    unfold Bitvector.Set_ at 1. rewrite Hset, bind_Ok.
    eexists. split; [done|]. unfold Bitvector.Get, Bitvector.GetCount.
    cbn [Bitvector.Bytes Bitvector.Count].
    assert (Hi' : bit B' i = true).
    { by rewrite Hbit, bool_decide_eq_true_2, orb_true_r. }
    split; [by apply words_Get_true|].
    split; [intros j Hj; by eapply words_Get_other|].
    split.
    { f_equal. destruct (bit (Bitvector.Bytes bv) i) eqn:Hb.
      - rewrite decide_True; [done|]. by apply words_Get_true.
      - rewrite decide_False; [done|].
        rewrite words_Get_true. congruence. }
    split; [done|].
    unfold Bitvector.Set_. cbn [Bitvector.Bytes Bitvector.Count].
    by rewrite words_Set_again.
  - destruct (words_Set_spec _ (Bitvec.Count bv) _ Hi)
      as (B' & Hset & Hlen & Hbit).
    unfold Bitvec.Set_ at 1. rewrite Hset, bind_Ok.
    eexists. split; [done|]. unfold Bitvec.Get.
    cbn [Bitvec.Bytes Bitvec.Count Bitvec.Size].
    assert (Hi' : bit B' i = true).
    { by rewrite Hbit, bool_decide_eq_true_2, orb_true_r. }
    split; [by apply words_Get_true|].
    split; [intros j Hj; by eapply words_Get_other|].
    split.
    { f_equal. destruct (bit (Bitvec.Bytes bv) i) eqn:Hb.
      - rewrite decide_True; [done|]. by apply words_Get_true.
      - rewrite decide_False; [done|].
        rewrite words_Get_true. congruence. }
    split; [done|]. split; [done|].
    unfold Bitvec.Set_. cbn [Bitvec.Bytes Bitvec.Count Bitvec.Size].
    by rewrite words_Set_again.
Qed.

Lemma Set_then_Get_witness :
  ∃ bv', Bitvector.Set_ (Bitvector.New 100) 70 = Ok bv'
    ∧ Bitvector.Get bv' 70 = Ok true
    ∧ (∀ j, j ≠ 70 → Bitvector.Get bv' j = Bitvector.Get (Bitvector.New 100) j)
    ∧ Bitvector.GetCount bv'
      = Bitvector.GetCount (Bitvector.New 100)
        + (if decide (Bitvector.Get (Bitvector.New 100) 70 = Ok true)
           then 0 else 1)
    ∧ length (Bitvector.Bytes bv') = length (Bitvector.Bytes (Bitvector.New 100))
    ∧ Bitvector.Set_ bv' 70 = Ok bv'.
Proof.
  apply (proj1 Set_then_Get (Bitvector.New 100) 70). vm_compute. lia.
Defined.

Lemma words_Set_is_Ok Bytes Count i :
  is_Ok (words_Set Bytes Count i) = bool_decide (i / 64 < length Bytes).
Proof.
  case_bool_decide as Hi.
  - destruct (words_Set_spec Bytes Count i Hi) as (B' & -> & _). done.
  - rewrite words_Set_panic by lia. done.
Qed.

Lemma words_capacity size i :
  i / 64 < length (words_New size) ↔ i < 64 * ((size + 63) / 64).
Proof.
  unfold words_New. rewrite length_replicate.
  pose proof (Nat.div_mod_eq i 64). pose proof (Nat.mod_upper_bound i 64).
  lia.
Qed.

(** X2.  The only bound [Set] and [Get] know is the number of words: they
    panic, with an index out of range, exactly when [index / 64] is not
    below [len(Bytes)].  A bitset made by [New size] therefore accepts every
    index below its capacity [64 * ((size + 63) / 64)], the indices from
    [size] on included, and [Bitvec]'s [Size] is never consulted. *)
Theorem Set_Get_bounds :
  (∀ (bv : Bitvector.t) (i : nat),
     (i / 64 < length (Bitvector.Bytes bv) →
      is_Ok (Bitvector.Set_ bv i) = true ∧ is_Ok (Bitvector.Get bv i) = true)
     ∧ (length (Bitvector.Bytes bv) ≤ i / 64 →
        Bitvector.Set_ bv i = Panic IndexOutOfRange
        ∧ Bitvector.Get bv i = Panic IndexOutOfRange))
  ∧ (∀ (bv : Bitvec.t) (i : nat),
       (i / 64 < length (Bitvec.Bytes bv) →
        is_Ok (Bitvec.Set_ bv i) = true ∧ is_Ok (Bitvec.Get bv i) = true)
       ∧ (length (Bitvec.Bytes bv) ≤ i / 64 →
          Bitvec.Set_ bv i = Panic IndexOutOfRange
          ∧ Bitvec.Get bv i = Panic IndexOutOfRange))
  ∧ (∀ size i : nat,
       is_Ok (Bitvector.Set_ (Bitvector.New size) i)
       = bool_decide (i < 64 * ((size + 63) / 64))
       ∧ is_Ok (Bitvec.Set_ (Bitvec.New size) i)
         = bool_decide (i < 64 * ((size + 63) / 64))
       ∧ Bitvector.Get (Bitvector.New size) i
         = (if decide (i < 64 * ((size + 63) / 64)) then Ok false
            else Panic IndexOutOfRange)
       ∧ Bitvec.Get (Bitvec.New size) i
         = (if decide (i < 64 * ((size + 63) / 64)) then Ok false
            else Panic IndexOutOfRange)).
Proof.
  split; [|split].
  - intros bv i. split.
    + intros Hi. unfold Bitvector.Set_, Bitvector.Get.
      pose proof (words_Set_is_Ok (Bitvector.Bytes bv) (Bitvector.Count bv) i)
        as Hset.
      rewrite bool_decide_eq_true_2 in Hset by done.
      destruct (words_Set _ _ _) as [[B' C']|]; [|done].
      split; [done|]. rewrite words_Get_spec. by rewrite decide_True.
    + intros Hi. unfold Bitvector.Set_, Bitvector.Get.
      rewrite words_Set_panic by done. split; [done|].
      rewrite words_Get_spec. rewrite decide_False by lia. done.
  - intros bv i. split.
    + intros Hi. unfold Bitvec.Set_, Bitvec.Get.
      pose proof (words_Set_is_Ok (Bitvec.Bytes bv) (Bitvec.Count bv) i)
        as Hset.
      rewrite bool_decide_eq_true_2 in Hset by done.
      destruct (words_Set _ _ _) as [[B' C']|]; [|done].
      split; [done|]. rewrite words_Get_spec. by rewrite decide_True.
    + intros Hi. unfold Bitvec.Set_, Bitvec.Get.
      rewrite words_Set_panic by done. split; [done|].
      rewrite words_Get_spec. rewrite decide_False by lia. done.
  - intros size i.
    assert (HS : ∀ C, is_Ok (words_Set (words_New size) C i)
                      = bool_decide (i < 64 * ((size + 63) / 64))).
    { intros C. rewrite words_Set_is_Ok. apply bool_decide_ext.
      apply words_capacity. }
    assert (HG : words_Get (words_New size) i
                 = if decide (i < 64 * ((size + 63) / 64)) then Ok false
                   else Panic IndexOutOfRange).
    { rewrite words_Get_spec, bit_words_New.
      destruct (decide (i / 64 < _)) as [Hi|Hi];
        rewrite words_capacity in Hi; by case_decide. }
    split; [|split; [|split]].
    + unfold Bitvector.Set_, Bitvector.New. cbn [Bitvector.Bytes Bitvector.Count].
      rewrite <- (HS 0). by destruct (words_Set _ _ _) as [[??]|].
    + unfold Bitvec.Set_, Bitvec.New. cbn [Bitvec.Bytes Bitvec.Count].
      rewrite <- (HS 0). by destruct (words_Set _ _ _) as [[??]|].
    + done.
    + done.
Qed.

Lemma Set_Get_bounds_witness :
  (is_Ok (Bitvec.Set_ (Bitvec.New 26) 63) = true
   ∧ is_Ok (Bitvec.Get (Bitvec.New 26) 63) = true)
  ∧ (Bitvec.Set_ (Bitvec.New 26) 224 = Panic IndexOutOfRange
     ∧ Bitvec.Get (Bitvec.New 26) 224 = Panic IndexOutOfRange).
Proof.
  split.
  - apply (proj1 (proj1 (proj2 Set_Get_bounds) (Bitvec.New 26) 63)).
    vm_compute. lia.
  - apply (proj2 (proj1 (proj2 Set_Get_bounds) (Bitvec.New 26) 224)).
    vm_compute. lia.
Defined.

Lemma get_set_bits Bytes n :
  filter (λ j, words_Get Bytes j = Ok true) (seq 0 n) = set_bits Bytes n.
Proof.
  unfold set_bits. apply filter_ext_elem. intros j _. apply words_Get_true.
Qed.

(** X3.  The counter is the number of set bits.  For every bitset built
    from [New] by [Set] and [And], [Count] is the number of indices at
    which [Get] answers [true]; so [GetCount] needs no recount. *)
Theorem Count_is_number_of_set_bits :
  (∀ bv : Bitvector.t,
     Bitvector_built bv →
     Bitvector.GetCount bv
     = length (filter (λ j, Bitvector.Get bv j = Ok true)
                      (seq 0 (64 * length (Bitvector.Bytes bv)))))
  ∧ (∀ bv : Bitvec.t,
       Bitvec_built bv →
       Bitvec.Count bv
       = length (filter (λ j, Bitvec.Get bv j = Ok true)
                        (seq 0 (64 * length (Bitvec.Bytes bv))))).
Proof.
  split; intros bv Hbv.
  - unfold Bitvector.GetCount, Bitvector.Get.
    rewrite get_set_bits, <- popcount_set_bits by done.
    by apply Bitvector_built_counted.
  - unfold Bitvec.Get.
    rewrite get_set_bits, <- popcount_set_bits by done.
    by apply Bitvec_built_counted.
Qed.

Lemma Count_is_number_of_set_bits_witness :
  let bv := {| Bitvector.Bytes := [0; 64]%Z; Bitvector.Count := 1 |} in
  Bitvector.GetCount bv
  = length (filter (λ j, Bitvector.Get bv j = Ok true)
                   (seq 0 (64 * length (Bitvector.Bytes bv)))).
Proof.
  apply (proj1 Count_is_number_of_set_bits).
  apply (Bitvector_built_Set (Bitvector.New 100) 70); [constructor|].
  vm_compute. reflexivity.
Defined.

(** X4.  [And] is the intersection: a bit of the result reads as set
    exactly when it does in both operands, and for operands built from
    [New] by [Set] and [And] the result's counter is at most either
    operand's, so a chain of [And]s never grows the candidate count. *)
Theorem And_is_intersection :
  (∀ a b : Bitvector.t,
     (∀ j, Bitvector.Get (Bitvector.And a b) j = Ok true
           ↔ Bitvector.Get a j = Ok true ∧ Bitvector.Get b j = Ok true)
     ∧ (Bitvector_built a → Bitvector_built b →
        Bitvector.GetCount (Bitvector.And a b)
        ≤ Bitvector.GetCount a `min` Bitvector.GetCount b))
  ∧ (∀ a b : Bitvec.t,
       (∀ j, Bitvec.Get (Bitvec.And a b) j = Ok true
             ↔ Bitvec.Get a j = Ok true ∧ Bitvec.Get b j = Ok true)
       ∧ (Bitvec_built a → Bitvec_built b →
          Bitvec.Count (Bitvec.And a b)
          ≤ Bitvec.Count a `min` Bitvec.Count b)).
Proof.
  split; intros a b; split.
  - intros j. unfold Bitvector.Get. rewrite !words_Get_true.
    rewrite Bitvector_And_spec. cbn [Bitvector.Bytes].
    rewrite bit_zip_land. apply andb_true_iff.
  - intros Ha%Bitvector_built_counted Hb%Bitvector_built_counted.
    unfold Bitvector.GetCount. rewrite Bitvector_And_spec, Ha, Hb.
    cbn [Bitvector.Count].
    pose proof (popcount_zip_land_le (Bitvector.Bytes a) (Bitvector.Bytes b)).
    lia.
  - intros j. unfold Bitvec.Get. rewrite !words_Get_true.
    rewrite Bitvec_And_spec. cbn [Bitvec.Bytes].
    rewrite bit_zip_land. apply andb_true_iff.
  - intros Ha%Bitvec_built_counted Hb%Bitvec_built_counted.
    rewrite Bitvec_And_spec, Ha, Hb. cbn [Bitvec.Count].
    pose proof (popcount_zip_land_le (Bitvec.Bytes a) (Bitvec.Bytes b)).
    lia.
Qed.

Lemma And_is_intersection_witness :
  let a := {| Bitvec.Bytes := [6]%Z; Bitvec.Size := 26; Bitvec.Count := 2 |} in
  let b := {| Bitvec.Bytes := [4]%Z; Bitvec.Size := 26; Bitvec.Count := 1 |} in
  Bitvec.Count (Bitvec.And a b) ≤ Bitvec.Count a `min` Bitvec.Count b.
Proof.
  apply (proj2 (proj2 And_is_intersection _ _)).
  - apply (Bitvec_built_Set
             {| Bitvec.Bytes := [2]%Z; Bitvec.Size := 26; Bitvec.Count := 1 |} 2);
      [|vm_compute; reflexivity].
    apply (Bitvec_built_Set (Bitvec.New 26) 1); [constructor|].
    vm_compute. reflexivity.
  - apply (Bitvec_built_Set (Bitvec.New 26) 2); [constructor|].
    vm_compute. reflexivity.
Defined.

(** ** More on the feedback codec *)

Lemma bytes_inj s1 s2 : bytes s1 = bytes s2 → s1 = s2.
Proof.
  unfold bytes. intros H.
  rewrite <- (String.string_of_list_ascii_of_string s1),
          <- (String.string_of_list_ascii_of_string s2).
  by rewrite H.
Qed.

Lemma tag_of_2 answer ch a_i : tag_of answer ch a_i = 2%Z ↔ a_i = ch.
Proof.
  unfold tag_of. case_decide; [done|]. by destruct (bool_decide (ch ∈ answer)).
Qed.

Lemma tag_of_0 answer ch a_i :
  a_i ∈ answer → tag_of answer ch a_i = 0%Z ↔ ch ∉ answer.
Proof.
  intros Ha. unfold tag_of. case_decide as Heq.
  - subst. split; [done|]. intros Hn. done.
  - case_bool_decide; split; try done.
Qed.

(** X5.  The two extreme codes.  For a guess and an answer of five
    single-byte characters, [getHint] returns 242 (all Correct) exactly
    when the guess is the answer, and 0 (all Absent) exactly when no letter
    of the guess occurs in the answer. *)
Theorem getHint_extremes (guess answer : string) :
  String.length guess = 5 → String.length answer = 5 →
  single_byte guess → single_byte answer →
  (getHint guess answer = Ok 242%Z ↔ guess = answer)
  ∧ (getHint guess answer = Ok 0%Z
     ↔ ∀ ch, ch ∈ bytes guess → ch ∉ bytes answer).
Proof.
  intros Hg Ha Hsg Hsa.
  unfold getHint. rewrite getHint_tags_5 by done.
  destruct (bytes_length_5 _ Hg) as (g0 & g1 & g2 & g3 & g4 & Eg).
  destruct (bytes_length_5 _ Ha) as (a0 & a1 & a2 & a3 & a4 & Ea).
  assert (Hinj : guess = answer ↔ bytes guess = bytes answer).
  { split; [by intros ->|apply bytes_inj]. }
  rewrite Hinj, Eg, Ea. cbn [zip_with fmap result_fmap].
  set (t0 := tag_of [a0; a1; a2; a3; a4] g0 a0).
  set (t1 := tag_of [a0; a1; a2; a3; a4] g1 a1).
  set (t2 := tag_of [a0; a1; a2; a3; a4] g2 a2).
  set (t3 := tag_of [a0; a1; a2; a3; a4] g3 a3).
  set (t4 := tag_of [a0; a1; a2; a3; a4] g4 a4).
  assert (Hall : Forall (λ t, t ∈ [0; 1; 2]%Z) [t0; t1; t2; t3; t4]).
  { repeat (apply Forall_cons; split; [apply tag_of_elem|]). apply Forall_nil_2. }
  destruct (base3_roundtrip _ _ _ _ _ Hall) as (Henc & _).
  cbv zeta in Henc. rewrite Henc.
  assert (Hsum : base3_sum [t0; t1; t2; t3; t4]
                 = (81 * t0 + 27 * t1 + 9 * t2 + 3 * t3 + t4)%Z).
  { unfold base3_sum. cbn [imap foldr]. unfold compose. simpl. lia. }
  rewrite Hsum.
  assert (Hb : ∀ t, t ∈ [0; 1; 2]%Z → (0 ≤ t ≤ 2)%Z).
  { intros t Ht. set_unfold. lia. }
  apply Forall_cons in Hall as [H0%Hb Hall].
  apply Forall_cons in Hall as [H1%Hb Hall].
  apply Forall_cons in Hall as [H2%Hb Hall].
  apply Forall_cons in Hall as [H3%Hb Hall].
  apply Forall_cons in Hall as [H4%Hb _].
  split.
  - split.
    + intros [= Heq].
      assert (t0 = 2 ∧ t1 = 2 ∧ t2 = 2 ∧ t3 = 2 ∧ t4 = 2)%Z
        as (E0 & E1 & E2 & E3 & E4) by lia.
      apply tag_of_2 in E0, E1, E2, E3, E4. congruence.
    + intros [= -> -> -> -> ->].
      assert (t0 = 2 ∧ t1 = 2 ∧ t2 = 2 ∧ t3 = 2 ∧ t4 = 2)%Z
        as (-> & -> & -> & -> & ->); [|done].
      unfold t0, t1, t2, t3, t4. rewrite !tag_of_2. done.
  - split.
    + intros [= Heq].
      assert (t0 = 0 ∧ t1 = 0 ∧ t2 = 0 ∧ t3 = 0 ∧ t4 = 0)%Z
        as (E0 & E1 & E2 & E3 & E4) by lia.
      apply tag_of_0 in E0; [|set_solver]. apply tag_of_0 in E1; [|set_solver].
      apply tag_of_0 in E2; [|set_solver]. apply tag_of_0 in E3; [|set_solver].
      apply tag_of_0 in E4; [|set_solver].
      intros ch Hch. set_unfold in Hch. naive_solver.
    + intros Hno.
      assert (t0 = 0 ∧ t1 = 0 ∧ t2 = 0 ∧ t3 = 0 ∧ t4 = 0)%Z
        as (-> & -> & -> & -> & ->); [|done].
      unfold t0, t1, t2, t3, t4.
      rewrite !tag_of_0 by set_solver.
      repeat split; apply Hno; set_solver.
Qed.

Lemma getHint_extremes_witness :
  (getHint "crane" "crane" = Ok 242%Z ↔ "crane" = "crane")
  ∧ (getHint "crane" "crane" = Ok 0%Z
     ↔ ∀ ch, ch ∈ bytes "crane" → ch ∉ bytes "crane").
Proof.
  apply getHint_extremes;
    [reflexivity|reflexivity|apply single_byte_decide; reflexivity..].
Defined.

(** What every round of a loop over a string keeps, the loop keeps. *)
Lemma range_string_from_preserves {St} (P : St → Prop)
    (body : nat → Z → St → result St) i skip s st st' :
  P st →
  (∀ k ch st st', body k ch st = Ok st' → P st → P st') →
  range_string_from body i skip s st = Ok st' → P st'.
Proof.
  intros HP Hbody. revert i skip st HP.
  induction s as [|c s IH]; intros i skip st HP; cbn [range_string_from].
  - by intros [= <-].
  - destruct skip as [|skip]; [|by apply IH].
    destruct (decoderune (byte_val <$> c :: s)) as [ch size].
    destruct (body i ch st) as [st1|e] eqn:Hb; [|done].
    rewrite bind_Ok. apply IH. by eapply Hbody.
Qed.

Lemma getHint_charHints_shape guess answer tags :
  getHint_charHints guess answer = Ok tags →
  length tags = 5 ∧ Forall (λ t, t ∈ [0; 1; 2]%Z) tags.
Proof.
  unfold getHint_charHints, range_string.
  apply (range_string_from_preserves
           (λ st, length st = 5 ∧ Forall (λ t, t ∈ [0; 1; 2]%Z) st)).
  - split; [done|]. apply Forall_replicate. set_solver.
  - intros k ch st st' Hbody [Hlen Hall]. unfold getHint_body in Hbody.
    destruct (load (bytes answer) k) as [a_k|]; [|done].
    rewrite bind_Ok in Hbody.
    assert (Hstore : ∀ v, v ∈ [0; 1; 2]%Z → store st k v = Ok st' →
              length st' = 5 ∧ Forall (λ t, t ∈ [0; 1; 2]%Z) st').
    { intros v Hv. unfold store.
      destruct (decide (k < length st)); [|done]. intros [= <-].
      rewrite length_insert. split; [done|]. by apply Forall_insert. }
    destruct (decide (byte_val a_k = uint8 ch));
      [by apply (Hstore 2%Z); [set_solver|]|].
    destruct (ContainsRune (bytes answer) ch);
      [by apply (Hstore 1%Z); [set_solver|]|].
    by injection Hbody as <-.
Qed.

(** X6.  The range of [getHint].  Whatever its arguments, single-byte or
    not and of any lengths, when [getHint] returns it has computed five
    tags, each 0, 1 or 2; its code is their base-3 value, below 243, and
    both decoders, the digit loop of [Hint.ColoredWord] and the padded
    base-3 string of [Hint.String], give the five tags back. *)
Theorem getHint_code_range (guess answer : string) (h : Z) :
  getHint guess answer = Ok h →
  ∃ tags,
    getHint_charHints guess answer = Ok tags
    ∧ length tags = 5
    ∧ Forall (λ t, t ∈ [0; 1; 2]%Z) tags
    ∧ h = base3_sum tags
    ∧ (0 ≤ h < 243)%Z
    ∧ ColoredWord_digits h = tags
    ∧ String_digits h = tags.
Proof.
  unfold getHint.
  destruct (getHint_charHints guess answer) as [tags|e] eqn:Htags; [|done].
  intros [= <-]. exists tags. split; [done|].
  destruct (getHint_charHints_shape _ _ _ Htags) as [Hlen Hall].
  destruct tags as [|t0 [|t1 [|t2 [|t3 [|t4 [|? ?]]]]]]; try done.
  destruct (base3_roundtrip _ _ _ _ _ Hall) as (Henc & Hr & Hc & Hs).
  cbv zeta in *. rewrite Henc. done.
Qed.

Lemma getHint_code_range_witness :
  ∃ tags,
    getHint_charHints "ab" "ab" = Ok tags
    ∧ length tags = 5
    ∧ Forall (λ t, t ∈ [0; 1; 2]%Z) tags
    ∧ 216%Z = base3_sum tags
    ∧ (0 ≤ 216 < 243)%Z
    ∧ ColoredWord_digits 216 = tags
    ∧ String_digits 216 = tags.
Proof. apply (getHint_code_range "ab" "ab"). reflexivity. Defined.

Lemma digits_checked :
  forallb (λ n,
    let h := Z.of_nat n in
    let digits := ColoredWord_digits h in
    bool_decide (length digits = 5)
    && forallb (λ d, bool_decide (d ∈ [0; 1; 2]%Z)) digits
    && bool_decide (getHint_encode digits = (h mod 243)%Z)
    && (if decide (h < 243)%Z
        then bool_decide (String_digits h = digits)
        else bool_decide (length (String_digits h) = 6)))
    (seq 0 256) = true.
Proof. vm_compute. reflexivity. Qed.

Lemma WriteRune_single_byte c :
  nat_of_ascii c < 128 → WriteRune (byte_val c) = String c String.EmptyString.
Proof.
  intros Hc. unfold WriteRune, AppendRune, byte_val.
  assert ((Z.of_nat (nat_of_ascii c) <=? 0x7F)%Z = true) as ->
    by (apply Z.leb_le; lia).
  cbn [fmap list_fmap String.string_of_list_ascii].
  by rewrite Nat2Z.id, ascii_nat_embedding.
Qed.

(** X7.  [Hint.ColoredWord].  A word that does not have 5 bytes is
    returned unchanged.  For any [uint8] hint every digit the function
    derives is 0, 1 or 2 (one of the three colours is always written) and
    the digits are those of [h mod 243]; on every word of 5 bytes the
    function returns, and when the 5 bytes are single-byte characters the
    result is the five coloured blocks in order.  [Hint.String] prints the
    same five digits when [h < 243], and six digits otherwise. *)
Theorem ColoredWord_spec (h : Z) (word : string) :
  (0 ≤ h < 256)%Z →
  let digits := ColoredWord_digits h in
  (String.length word ≠ 5 → ColoredWord h word = Ok word)
  ∧ length digits = 5
  ∧ Forall (λ d, d ∈ [0; 1; 2]%Z) digits
  ∧ getHint_encode digits = (h mod 243)%Z
  ∧ (String.length word = 5 → is_Ok (ColoredWord h word) = true)
  ∧ (String.length word = 5 → single_byte word →
     ColoredWord h word
     = Ok (foldl String.append String.EmptyString
             (zip_with ColoredWord_block digits (bytes word))))
  ∧ (if decide (h < 243)%Z then String_digits h = digits
     else length (String_digits h) = 6).
Proof.
  intros Hh digits.
  pose proof digits_checked as Hchk.
  rewrite forallb_forall in Hchk.
  specialize (Hchk (Z.to_nat h)).
  rewrite Z2Nat.id in Hchk by lia.
  assert (Hin : In (Z.to_nat h) (seq 0 256)).
  { apply in_seq. lia. }
  specialize (Hchk Hin). cbv zeta in Hchk. fold digits in Hchk.
  apply andb_prop in Hchk as [Hchk Hstr].
  apply andb_prop in Hchk as [Hchk Henc].
  apply andb_prop in Hchk as [Hlen Hall].
  apply bool_decide_eq_true in Hlen, Henc.
  split; [|split; [|split; [|split; [|split; [|split]]]]].
  - intros Hw. unfold ColoredWord. by rewrite decide_True.
  - done.
  - apply Forall_forall. intros d Hd.
    rewrite forallb_forall in Hall.
    apply list_elem_of_In, Hall, bool_decide_eq_true in Hd. done.
  - done.
  - intros Hw. unfold ColoredWord. rewrite decide_False by lia. cbv zeta.
    fold digits. unfold range_string.
    destruct (range_string_from_inv (λ _ : string, True)
                (λ i char result,
                   d ← load digits i;
                   Ok (result +:+ ColoredWord_colour d
                              +:+ WriteRune char +:+ " " +:+ reset))
                0 0 (bytes word) String.EmptyString I) as (r & -> & _); [|done].
    intros k ch st Hk _. rewrite length_bytes in Hk.
    destruct (lookup_lt_is_Some_2 digits k) as [d Hd]; [lia|].
    rewrite (load_Ok _ _ _ Hd), bind_Ok. by eexists.
  - intros Hw Hsb. unfold ColoredWord. rewrite decide_False by lia. cbv zeta.
    fold digits. unfold range_string.
    rewrite (range_string_from_single_byte _ _ _ _ Hsb).
    unfold single_byte in Hsb.
    destruct (bytes_length_5 _ Hw) as (c0 & c1 & c2 & c3 & c4 & Hb).
    rewrite Hb in Hsb |- *.
    destruct digits as [|d0 [|d1 [|d2 [|d3 [|d4 [|? ?]]]]]]; try done.
    repeat (apply Forall_cons_1 in Hsb as [?%WriteRune_single_byte Hsb]).
    cbn [for_range load lookup list_lookup mbind result_bind zip_with foldl].
    unfold ColoredWord_block. by repeat match goal with
                                        | H : WriteRune _ = _ |- _ =>
                                            rewrite H; clear H
                                        end.
  - fold digits in Hstr.
    destruct (decide (h < 243)%Z); by apply bool_decide_eq_true in Hstr.
Qed.

Lemma ColoredWord_spec_witness :
  let digits := ColoredWord_digits 250 in
  (String.length "crane" ≠ 5 → ColoredWord 250 "crane" = Ok "crane")
  ∧ length digits = 5
  ∧ Forall (λ d, d ∈ [0; 1; 2]%Z) digits
  ∧ getHint_encode digits = (250 mod 243)%Z
  ∧ (String.length "crane" = 5 → is_Ok (ColoredWord 250 "crane") = true)
  ∧ (String.length "crane" = 5 → single_byte "crane" →
     ColoredWord 250 "crane"
     = Ok (foldl String.append String.EmptyString
             (zip_with ColoredWord_block digits (bytes "crane"))))
  ∧ (if decide (250 < 243)%Z then String_digits 250 = digits
     else length (String_digits 250) = 6).
Proof. apply (ColoredWord_spec 250 "crane"). lia. Defined.

(** A word of 5 bytes that are not 5 characters gets fewer blocks: the
    two bytes 195, 169 are one rune, written back as it was read, in the
    colour of its first byte's digit. *)
Remark ColoredWord_runes :
  let e_acute := String "195" (String "169" String.EmptyString) in
  ColoredWord 242 ("caf" +:+ e_acute)
  = Ok (ColoredWord_block 2 "c" +:+ ColoredWord_block 2 "a"
        +:+ ColoredWord_block 2 "f"
        +:+ greenBg +:+ e_acute +:+ " " +:+ reset).
Proof. vm_compute. reflexivity. Qed.

(** ** More on the candidate index *)

Lemma calculateHints_loop_freq answers guess (code : string → Z) l gi gi' :
  (∀ a, a ∈ l → getHint guess a = Ok (code a)) →
  for_each (calculateHints_answer answers guess) l gi = Ok gi' →
  (∀ h, default 0 (freq <$> hintsMap gi' !! h)
        = default 0 (freq <$> hintsMap gi !! h)
          + length (filter (λ a, code a = h) l))
  ∧ (∀ h, is_Some (hintsMap gi' !! h) →
          is_Some (hintsMap gi !! h) ∨ ∃ a, a ∈ l ∧ code a = h).
Proof.
  revert gi. induction l as [|x l IH]; intros gi Hcode Hrun.
  - rewrite for_each_nil in Hrun. injection Hrun as <-.
    split; [intros h; rewrite filter_nil; simpl; lia|auto].
  - rewrite for_each_cons in Hrun.
    rewrite (calculateHints_answer_Ok _ _ _ _ (code x)) in Hrun
      by (apply Hcode; set_solver).
    rewrite bind_Ok in Hrun.
    apply IH in Hrun as [Hfreq Hdom]; [|intros a Ha; apply Hcode; set_solver].
    cbn [hintsMap] in Hfreq, Hdom. split.
    + intros h. rewrite Hfreq, filter_cons.
      destruct (decide (code x = h)) as [<-|Hne].
      * destruct (hintsMap gi !! code x) as [info0|] eqn:H0;
          rewrite lookup_insert_eq; cbn; lia.
      * destruct (hintsMap gi !! code x) as [info0|] eqn:H0;
          rewrite lookup_insert_ne by done; lia.
    + intros h Hh. destruct (Hdom h Hh) as [Hs|(a & Ha & Hc)].
      * destruct (decide (code x = h)) as [<-|Hne].
        -- right. exists x. split; [set_solver|done].
        -- left. destruct (hintsMap gi !! code x);
             by rewrite lookup_insert_ne in Hs.
      * right. exists a. split; [set_solver|done].
Qed.

Lemma set_loop_built {A} (P : A → Prop) `{∀ x, Decision (P x)}
    (l : list A) start bv bv' :
  for_range (λ i x bv, if decide (P x) then Bitvec.Set_ bv i else Ok bv)
            start l bv = Ok bv' →
  Bitvec_built bv → Bitvec_built bv'.
Proof.
  revert start bv. induction l as [|x l IH]; intros start bv Hrun Hbv.
  - cbn in Hrun. by injection Hrun as <-.
  - cbn [for_range] in Hrun.
    destruct (decide (P x)).
    + destruct (Bitvec.Set_ bv start) as [bv1|] eqn:Hset; [|done].
      rewrite bind_Ok in Hrun. eapply IH; [done|].
      by eapply Bitvec_built_Set.
    + rewrite bind_Ok in Hrun. by eapply IH.
Qed.

Lemma calculateBitvecs_hint_built answers gi hint info info' :
  calculateBitvecs_hint answers gi hint info = Ok info' →
  freq info' = freq info
  ∧ (Bitvec_built (bitvec info) → Bitvec_built (bitvec info')).
Proof.
  unfold calculateBitvecs_hint.
  destruct (for_range _ _ _ _) as [bv|] eqn:Hrun; [|done].
  rewrite bind_Ok. intros [= <-]. split; [done|]. cbn [bitvec].
  by eapply (set_loop_built (λ a, default 0%Z (answerHints gi !! a) = hint)).
Qed.

#[local] Instance from_option_decision {A} (P : A → Prop)
    `{∀ x, Decision (P x)} (o : option A) : Decision (from_option P False o).
Proof. destruct o; apply _. Defined.

Lemma length_filter_lookup {A} (P : A → Prop) `{∀ x, Decision (P x)}
    (l : list A) :
  length (filter (λ j, from_option P False (l !! j)) (seq 0 (length l)))
  = length (filter P l).
Proof.
  induction l as [|x l IH] using rev_ind; [done|].
  rewrite length_app. cbn [length]. rewrite Nat.add_1_r, seq_S.
  rewrite !filter_app, !length_app.
  rewrite (filter_ext_elem (λ j, from_option P False ((l ++ [x]) !! j))
             (λ j, from_option P False (l !! j)) (seq 0 (length l))).
  2:{ intros j Hj%elem_of_seq. by rewrite lookup_app_l by lia. }
  rewrite IH. f_equal. rewrite !filter_cons, !filter_nil.
  rewrite Nat.add_0_l.
  assert (Hx : (l ++ [x]) !! length l = Some x).
  { rewrite lookup_app_r by lia. by rewrite Nat.sub_diag. }
  destruct (decide (P x)) as [HP|HP].
  - rewrite decide_True; [done|]. by rewrite Hx.
  - rewrite decide_False; [done|]. by rewrite Hx.
Qed.

(** The number of indices of a list whose element satisfies [P]. *)
Lemma length_filter_indices {A} (P : A → Prop) `{∀ x, Decision (P x)}
    (Q : nat → Prop) `{∀ j, Decision (Q j)} (l : list A) n :
  length l ≤ n →
  (∀ j, Q j ↔ ∃ a, l !! j = Some a ∧ P a) →
  length (filter Q (seq 0 n)) = length (filter P l).
Proof.
  intros Hn HQ.
  replace n with (length l + (n - length l)) by lia.
  rewrite seq_app, filter_app, length_app.
  rewrite (filter_none Q (seq _ (n - length l))).
  2:{ apply Forall_forall. intros j Hj%elem_of_seq [a [Ha _]]%HQ.
      apply lookup_lt_Some in Ha. lia. }
  cbn [length]. rewrite Nat.add_0_r, <- (length_filter_lookup P l).
  f_equal. apply filter_ext_elem. intros j _. rewrite HQ.
  destruct (l !! j); cbn; naive_solver.
Qed.

(** What [calculateHints] and [calculateBitvecs] leave in the entry of one
    guess. *)
Lemma guess_index_spec answers guess :
  Forall (λ w, String.length w = 5) answers → String.length guess = 5 →
  ∃ gi0 gi,
    calculateHints_guess answers guess = Ok gi0
    ∧ calculateBitvecs_guess answers gi0 = Ok gi
    ∧ (∀ a, answerHints gi !! a
            = if decide (a ∈ answers) then to_option (getHint guess a)
              else None)
    ∧ (∀ h, is_Some (hintsMap gi !! h)
            ↔ ∃ a, a ∈ answers ∧ getHint guess a = Ok h)
    ∧ ∀ h info, hintsMap gi !! h = Some info →
        Bitvec_built (bitvec info)
        ∧ freq info = length (filter (λ a, getHint guess a = Ok h) answers)
        ∧ ∀ j, bit (Bitvec.Bytes (bitvec info)) j = true
               ↔ ∃ a, answers !! j = Some a ∧ getHint guess a = Ok h.
Proof.
  intros Has Hg. rewrite Forall_forall in Has.
  pose (code := λ a, getHint_code guess a).
  assert (Hcode : ∀ a, a ∈ answers → getHint guess a = Ok (code a)).
  { intros a Ha. apply getHint_5_Ok; auto. }
  assert (Hiff : ∀ a h, a ∈ answers → getHint guess a = Ok h ↔ code a = h).
  { intros a h Ha. rewrite Hcode by done. split; congruence. }
  destruct (calculateHints_loop answers guess code answers
              {| answerHints := ∅; hintsMap := ∅ |} Hcode)
    as (gi0 & Hrun0 & Hah & Hbv & Hdom).
  destruct (calculateHints_loop_freq answers guess code answers _ gi0
              Hcode Hrun0) as [Hfreq Hdom'].
  cbn [answerHints hintsMap] in *.
  assert (Hnew : ∀ h info, hintsMap gi0 !! h = Some info →
                   bitvec info = Bitvec.New (length answers)).
  { intros h info Hh. destruct (Hbv h info Hh) as [?|(i0 & Hi0 & _)]; [done|].
    by rewrite lookup_empty in Hi0. }
  assert (Hah' : ∀ a, a ∈ answers → answerHints gi0 !! a = Some (code a)).
  { intros a Ha. by rewrite Hah, decide_True. }
  destruct (for_map_Ok (calculateBitvecs_hint answers gi0) (hintsMap gi0))
    as (hm & Hmap & Hhm).
  { intros h info Hh.
    destruct (calculateBitvecs_hint_spec answers gi0 h info) as (? & -> & _);
      [by eapply Hnew|done]. }
  exists gi0, {| answerHints := answerHints gi0; hintsMap := hm |}.
  split; [done|]. split.
  { unfold calculateBitvecs_guess. by rewrite Hmap. }
  cbn [answerHints hintsMap].
  assert (Hinv : ∀ h info', hm !! h = Some info' →
            ∃ info, hintsMap gi0 !! h = Some info
                    ∧ calculateBitvecs_hint answers gi0 h info = Ok info').
  { intros h info' Hh. rewrite Hhm in Hh.
    destruct (hintsMap gi0 !! h) as [info|]; [|done]. simpl in Hh.
    exists info. split; [done|].
    destruct (calculateBitvecs_hint answers gi0 h info); simpl in Hh; congruence. }
  split; [|split].
  - intros a. rewrite Hah. case_decide as Ha; [|apply lookup_empty].
    by rewrite Hcode.
  - intros h. split.
    + intros [info' Hh]. destruct (Hinv h info' Hh) as (info & Hi & _).
      destruct (Hdom' h) as [Hs|(a & Ha & Hc)]; [by eexists| |].
      * rewrite lookup_empty in Hs. by destruct Hs.
      * exists a. split; [done|]. by apply Hiff.
    + intros (a & Ha & Hc). apply Hiff in Hc; [|done].
      destruct (Hdom h) as [info Hi]; [right; eauto|].
      rewrite Hhm, Hi. simpl.
      destruct (calculateBitvecs_hint_spec answers gi0 h info) as (? & -> & _);
        [by eapply Hnew|]. simpl. eauto.
  - intros h info' Hh. destruct (Hinv h info' Hh) as (info & Hi & Hrun).
    destruct (calculateBitvecs_hint_built _ _ _ _ _ Hrun) as [Hf Hb].
    split; [|split].
    + apply Hb. rewrite (Hnew h info Hi). constructor.
    + rewrite Hf. specialize (Hfreq h). rewrite Hi, lookup_empty in Hfreq.
      cbn in Hfreq. rewrite Hfreq. f_equal. apply filter_ext_elem.
      intros a Ha. symmetry. by apply Hiff.
    + intros j.
      destruct (calculateBitvecs_hint_spec answers gi0 h info)
        as (i1 & Hrun1 & Hbit); [by eapply Hnew|].
      rewrite Hrun in Hrun1. injection Hrun1 as <-. rewrite Hbit.
      split; intros (a & Ha & Hc); exists a; (split; [done|]).
      * apply Hiff; [by eapply list_elem_of_lookup_2|].
        rewrite Hah' in Hc; [done|]. by eapply list_elem_of_lookup_2.
      * rewrite Hah'; [|by eapply list_elem_of_lookup_2]. simpl.
        apply Hiff; [by eapply list_elem_of_lookup_2|done].
Qed.

(** The whole index. *)
Lemma index_spec guesses answers :
  Forall (λ w, String.length w = 5) guesses →
  Forall (λ w, String.length w = 5) answers →
  ∃ gm gm',
    calculateHints guesses answers ∅ = Ok gm
    ∧ calculateBitvecs answers gm = Ok gm'
    ∧ (∀ g, is_Some (gm' !! g) ↔ g ∈ guesses)
    ∧ ∀ guess gi, gm' !! guess = Some gi →
        (∀ a, answerHints gi !! a
              = if decide (a ∈ answers) then to_option (getHint guess a)
                else None)
        ∧ (∀ h, is_Some (hintsMap gi !! h)
                ↔ ∃ a, a ∈ answers ∧ getHint guess a = Ok h)
        ∧ ∀ h info, hintsMap gi !! h = Some info →
            Bitvec_built (bitvec info)
            ∧ freq info
              = length (filter (λ a, getHint guess a = Ok h) answers)
            ∧ ∀ j, bit (Bitvec.Bytes (bitvec info)) j = true
                   ↔ ∃ a, answers !! j = Some a ∧ getHint guess a = Ok h.
Proof.
  intros Hgs Has. rewrite Forall_forall in Hgs.
  destruct (calculateHints_spec guesses answers ∅) as (gm & Hgm & Hlook).
  { intros g Hg.
    destruct (guess_index_spec answers g Has (Hgs g Hg)) as (? & ? & -> & _).
    done. }
  assert (Hgi : ∀ g gi0, gm !! g = Some gi0 →
            g ∈ guesses ∧ calculateHints_guess answers g = Ok gi0).
  { intros g gi0 Hg. rewrite Hlook in Hg.
    case_decide; [|by rewrite lookup_empty in Hg].
    split; [done|].
    destruct (calculateHints_guess answers g); simpl in Hg; congruence. }
  destruct (for_map_Ok (λ _ gi, calculateBitvecs_guess answers gi) gm)
    as (gm' & Hgm' & Hlook').
  { intros g gi0 Hg. destruct (Hgi g gi0 Hg) as [Hin Hrun].
    destruct (guess_index_spec answers g Has (Hgs g Hin))
      as (gi0' & gi & Hrun0 & Hrun1 & _).
    rewrite Hrun in Hrun0. injection Hrun0 as <-. by rewrite Hrun1. }
  exists gm, gm'. split; [done|]. split; [done|].
  fold (calculateBitvecs answers gm) in Hgm'.
  assert (Hentry : ∀ g, g ∈ guesses →
            ∃ gi0 gi, calculateHints_guess answers g = Ok gi0
                      ∧ calculateBitvecs_guess answers gi0 = Ok gi
                      ∧ gm' !! g = Some gi).
  { intros g Hg.
    destruct (guess_index_spec answers g Has (Hgs g Hg))
      as (gi0 & gi & Hrun0 & Hrun1 & _).
    exists gi0, gi. split; [done|]. split; [done|].
    rewrite Hlook', Hlook, decide_True by done. rewrite Hrun0. simpl.
    by rewrite Hrun1. }
  split.
  - intros g. split.
    + intros [gi Hg]. rewrite Hlook' in Hg.
      destruct (gm !! g) as [gi0|] eqn:Hg0; [|done].
      by destruct (Hgi g gi0 Hg0).
    + intros Hg. destruct (Hentry g Hg) as (? & gi & _ & _ & ->). eauto.
  - intros guess gi Hg.
    assert (Hin : guess ∈ guesses).
    { rewrite Hlook' in Hg. destruct (gm !! guess) as [gi0|] eqn:Hg0; [|done].
      by destruct (Hgi guess gi0 Hg0). }
    destruct (guess_index_spec answers guess Has (Hgs guess Hin))
      as (gi0 & gi1 & Hrun0 & Hrun1 & Hfacts).
    destruct (Hentry guess Hin) as (gi0' & gi' & Hrun0' & Hrun1' & Hg').
    rewrite Hrun0 in Hrun0'. injection Hrun0' as <-.
    rewrite Hrun1 in Hrun1'. injection Hrun1' as <-.
    rewrite Hg in Hg'. injection Hg' as ->. done.
Qed.

Lemma built_Count_indices {A} (P : A → Prop) `{∀ x, Decision (P x)}
    (l : list A) bv :
  Bitvec_built bv →
  (∀ j, bit (Bitvec.Bytes bv) j = true ↔ ∃ a, l !! j = Some a ∧ P a) →
  Bitvec.Count bv = length (filter P l).
Proof.
  intros Hb Hbit. rewrite (Bitvec_built_counted _ Hb).
  rewrite (popcount_set_bits _ (64 * length (Bitvec.Bytes bv) + length l))
    by lia.
  unfold set_bits. apply length_filter_indices; [lia|done].
Qed.

Section index_props.
Context (guesses answers : list string) (gm' : gmap string GuessInfo).
Hypothesis Hglen : Forall (λ w, String.length w = 5) guesses.
Hypothesis Hlen : Forall (λ w, String.length w = 5) answers.
Hypothesis Hkeys : ∀ g, is_Some (gm' !! g) ↔ g ∈ guesses.
Hypothesis Hfacts : ∀ guess gi, gm' !! guess = Some gi →
  (∀ a, answerHints gi !! a
        = if decide (a ∈ answers) then to_option (getHint guess a) else None)
  ∧ (∀ h, is_Some (hintsMap gi !! h)
          ↔ ∃ a, a ∈ answers ∧ getHint guess a = Ok h)
  ∧ ∀ h info, hintsMap gi !! h = Some info →
      Bitvec_built (bitvec info)
      ∧ freq info = length (filter (λ a, getHint guess a = Ok h) answers)
      ∧ ∀ j, bit (Bitvec.Bytes (bitvec info)) j = true
             ↔ ∃ a, answers !! j = Some a ∧ getHint guess a = Ok h.

Lemma index_lookup_hint guess h :
  guess ∈ guesses →
  (∃ a, a ∈ answers ∧ getHint guess a = Ok h) →
  ∀ answer, (if decide (answer ∈ answers) then getHint guess answer = Ok h
             else h = 0%Z) →
  ∃ bv, lookupBitvec gm' guess answer = Ok bv
    ∧ Bitvec_built bv
    ∧ ∀ j, bit (Bitvec.Bytes bv) j = true
           ↔ ∃ a, answers !! j = Some a ∧ getHint guess a = Ok h.
Proof.
  intros [gi Hgi]%Hkeys Hex answer Hh.
  destruct (Hfacts _ _ Hgi) as (Hah & Hdom & Hinfo).
  destruct (proj2 (Hdom h) Hex) as [info Hi].
  destruct (Hinfo h info Hi) as (Hb & _ & Hbit).
  exists (bitvec info). unfold lookupBitvec. rewrite Hgi, Hah.
  case_decide as Ha.
  - rewrite Hh. cbn. by rewrite Hi.
  - subst h. cbn. by rewrite Hi.
Qed.

Lemma index_getHint guess answer :
  guess ∈ guesses → answer ∈ answers → is_Ok (getHint guess answer) = true.
Proof.
  intros Hg Ha. rewrite Forall_forall in Hglen. rewrite Forall_forall in Hlen.
  by rewrite getHint_5_Ok by auto.
Qed.

Lemma index_lookup guess answer :
  guess ∈ guesses → answer ∈ answers →
  ∃ bv, lookupBitvec gm' guess answer = Ok bv
    ∧ Bitvec_built bv
    ∧ ∀ j, bit (Bitvec.Bytes bv) j = true
           ↔ ∃ a, answers !! j = Some a
                  ∧ getHint guess a = getHint guess answer.
Proof.
  intros Hg Ha. pose proof (index_getHint guess answer Hg Ha) as Hok.
  destruct (getHint guess answer) as [h|] eqn:Hh; [|done].
  apply (index_lookup_hint guess h Hg); [eauto|].
  by rewrite decide_True.
Qed.

Lemma remaining_app seen more answer :
  remaining answers (seen ++ more) answer ≤ remaining answers seen answer.
Proof.
  unfold remaining. apply length_filter_le. intros a _ Hc.
  unfold consistent in *. by apply Forall_app in Hc as [? _].
Qed.

Lemma remaining_pos gs answer :
  answer ∈ answers → 0 < remaining answers gs answer.
Proof.
  intros Ha. unfold remaining.
  assert (Hin : answer ∈ filter (consistent gs answer) answers).
  { apply list_elem_of_filter. split; [|done].
    unfold consistent. by apply Forall_forall. }
  destruct (filter _ answers); [by apply elem_of_nil in Hin|cbn; lia].
Qed.

Lemma narrow_spec answer seen rest b :
  answer ∈ answers → Forall (λ g, g ∈ guesses) rest →
  Bitvec_built b →
  (∀ j, bit (Bitvec.Bytes b) j = true
        ↔ ∃ a, answers !! j = Some a ∧ consistent seen answer a) →
  ∃ broke b',
    narrow gm' answer rest b = Ok (broke, b')
    ∧ (if broke : bool then remaining answers (seen ++ rest) answer ≤ 2
       else Bitvec.Count b' = remaining answers (seen ++ rest) answer).
Proof.
  intros Ha. revert seen b.
  induction rest as [|g rest IH]; intros seen b Hrest Hb Hbit.
  - exists false, b. split; [done|]. rewrite app_nil_r.
    by apply built_Count_indices.
  - cbn [narrow]. apply Forall_cons in Hrest as [Hg Hrest].
    case_decide as Hc.
    + exists true, b. split; [done|].
      pose proof (remaining_app seen (g :: rest) answer).
      rewrite (built_Count_indices (consistent seen answer) answers b) in Hc
        by done.
      unfold remaining in *. lia.
    + destruct (index_lookup g answer Hg Ha) as (other & -> & Hob & Hobit).
      rewrite bind_Ok.
      destruct (IH (seen ++ [g]) (Bitvec.And b other)) as (broke & b' & Hrun & Hres).
      * done.
      * by constructor.
      * intros j. rewrite Bitvec_And_spec. cbn [Bitvec.Bytes].
        rewrite bit_zip_land, andb_true_iff, Hbit, Hobit.
        unfold consistent. setoid_rewrite Forall_app.
        setoid_rewrite Forall_singleton.
        split.
        -- intros [(a & Hj & Hs) (a' & Hj' & Hs')].
           exists a. split; [done|]. split; [done|]. congruence.
        -- intros (a & Hj & Hs & Hs'). split; exists a; done.
      * exists broke, b'. split; [done|].
        by rewrite <- app_assoc in Hres.
Qed.

Lemma answer_contribution firstGuess others answer :
  firstGuess ∈ guesses → Forall (λ g, g ∈ guesses) others →
  answer ∈ answers →
  ∃ c,
    (∀ tot, AvgNumCandidates_answer gm' firstGuess others answer tot
            = Ok (tot + c))
    ∧ (∀ ret, MaxNumCandidates_answer gm' firstGuess others answer ret
              = Ok (ret `max` c))
    ∧ 1 ≤ c ≤ remaining answers (firstGuess :: others) answer
    ∧ (2 < remaining answers (firstGuess :: others) answer →
       c = remaining answers (firstGuess :: others) answer).
Proof.
  intros Hf Ho Ha.
  destruct (index_lookup firstGuess answer Hf Ha) as (b0 & Hl & Hb & Hbit).
  destruct (narrow_spec answer [firstGuess] others b0 Ha Ho Hb)
    as (broke & b' & Hrun & Hres).
  { intros j. rewrite Hbit. unfold consistent.
    by setoid_rewrite Forall_singleton. }
  cbn [app] in Hres.
  pose proof (remaining_pos (firstGuess :: others) answer Ha) as Hpos.
  exists (if broke then 1 else Bitvec.Count b').
  split; [|split; [|split]].
  - intros tot. unfold AvgNumCandidates_answer.
    rewrite Hl, bind_Ok, Hrun, bind_Ok. by destruct broke.
  - intros ret. unfold MaxNumCandidates_answer.
    rewrite Hl, bind_Ok, Hrun, bind_Ok. by destruct broke.
  - destruct broke; lia.
  - destruct broke; lia.
Qed.

Lemma scoring_totals firstGuess others l tot ret :
  firstGuess ∈ guesses → Forall (λ g, g ∈ guesses) others →
  Forall (λ a, a ∈ answers) l →
  ∃ tot' ret',
    for_each (AvgNumCandidates_answer gm' firstGuess others) l tot = Ok tot'
    ∧ for_each (MaxNumCandidates_answer gm' firstGuess others) l ret = Ok ret'
    ∧ tot + length l ≤ tot' ≤ tot + length l * length answers
    ∧ ret ≤ ret' ≤ ret `max` length answers
    ∧ (l ≠ [] → 1 ≤ ret').
Proof.
  intros Hf Ho. revert tot ret.
  induction l as [|answer l IH]; intros tot ret Hl.
  - exists tot, ret. rewrite !for_each_nil. cbn [length].
    split; [done|]. split; [done|]. split; [lia|]. split; [lia|done].
  - apply Forall_cons in Hl as [Ha Hl].
    destruct (answer_contribution firstGuess others answer Hf Ho Ha)
      as (c & Havg & Hmax & Hc & _).
    assert (Hn : remaining answers (firstGuess :: others) answer
                 ≤ length answers) by apply length_filter.
    destruct (IH (tot + c) (ret `max` c) Hl)
      as (tot' & ret' & Hr1 & Hr2 & Ht & Hr & _).
    exists tot', ret'. rewrite !for_each_cons, Havg, Hmax, !bind_Ok.
    split; [done|]. split; [done|]. cbn [length].
    split; [nia|]. split; [lia|]. intros _. lia.
Qed.

End index_props.

(** X8.  Bucket sizes.  After [calculateHints] and [calculateBitvecs] on
    words of length 5, every bucket of every guess has [freq] equal to
    the number of answers (counted with repetitions) whose feedback is the
    bucket's hint, its bitset's [Count] is the same number, and no bucket is
    empty. *)
Theorem bucket_sizes (guesses answers : list string) :
  Forall (λ w, String.length w = 5) guesses →
  Forall (λ w, String.length w = 5) answers →
  ∃ gm gm',
    calculateHints guesses answers ∅ = Ok gm
    ∧ calculateBitvecs answers gm = Ok gm'
    ∧ ∀ guess gi h info,
        gm' !! guess = Some gi → hintsMap gi !! h = Some info →
        freq info = length (filter (λ a, getHint guess a = Ok h) answers)
        ∧ Bitvec.Count (bitvec info) = freq info
        ∧ 0 < freq info.
Proof.
  intros Hgs Has.
  destruct (index_spec guesses answers Hgs Has)
    as (gm & gm' & Hgm & Hgm' & Hkeys & Hfacts).
  exists gm, gm'. split; [done|]. split; [done|].
  intros guess gi h info Hgi Hi.
  destruct (Hfacts _ _ Hgi) as (_ & Hdom & Hinfo).
  destruct (Hinfo _ _ Hi) as (Hb & Hf & Hbit).
  split; [done|]. split.
  - rewrite Hf. by apply built_Count_indices.
  - rewrite Hf. destruct (proj1 (Hdom h)) as (a & Ha & Hc); [by eexists|].
    assert (Hin : a ∈ filter (λ a, getHint guess a = Ok h) answers).
    { by apply list_elem_of_filter. }
    destruct (filter _ answers); [by apply elem_of_nil in Hin|cbn; lia].
Qed.

Lemma bucket_sizes_witness :
  ∃ gm gm',
    calculateHints ["crane"; "lofty"] ["crane"; "react"; "speed"] ∅ = Ok gm
    ∧ calculateBitvecs ["crane"; "react"; "speed"] gm = Ok gm'
    ∧ ∀ guess gi h info,
        gm' !! guess = Some gi → hintsMap gi !! h = Some info →
        freq info
        = length (filter (λ a, getHint guess a = Ok h)
                         ["crane"; "react"; "speed"])
        ∧ Bitvec.Count (bitvec info) = freq info
        ∧ 0 < freq info.
Proof.
  apply (bucket_sizes ["crane"; "lofty"] ["crane"; "react"; "speed"]);
    repeat constructor.
Defined.

(** X9.  [lookupBitvec] on the built index.  For a guess of the guess
    list and an answer of the answer list it returns the bucket of the
    answers that give the guess the same feedback, which holds the answer
    itself.  A guess outside the guess list is a nil dereference.  An
    answer outside the answer list reads as hint 0: the lookup gives the
    all-Absent bucket of the guess if some answer has that feedback, and is
    a nil dereference otherwise. *)
Theorem lookupBitvec_spec (guesses answers : list string) :
  Forall (λ w, String.length w = 5) guesses →
  Forall (λ w, String.length w = 5) answers →
  ∃ gm gm',
    calculateHints guesses answers ∅ = Ok gm
    ∧ calculateBitvecs answers gm = Ok gm'
    ∧ (∀ guess answer idx,
         guess ∈ guesses → answers !! idx = Some answer →
         ∃ bv, lookupBitvec gm' guess answer = Ok bv
           ∧ Bitvec.Get bv idx = Ok true
           ∧ ∀ j, Bitvec.Get bv j = Ok true
                  ↔ ∃ a, answers !! j = Some a
                         ∧ getHint guess a = getHint guess answer)
    ∧ (∀ guess answer,
         guess ∉ guesses →
         lookupBitvec gm' guess answer = Panic NilDereference)
    ∧ (∀ guess answer,
         guess ∈ guesses → answer ∉ answers →
         if decide (Exists (λ a, getHint guess a = Ok 0%Z) answers)
         then ∃ bv, lookupBitvec gm' guess answer = Ok bv
                ∧ ∀ j, Bitvec.Get bv j = Ok true
                       ↔ ∃ a, answers !! j = Some a
                              ∧ getHint guess a = Ok 0%Z
         else lookupBitvec gm' guess answer = Panic NilDereference).
Proof.
  intros Hgs Has.
  destruct (index_spec guesses answers Hgs Has)
    as (gm & gm' & Hgm & Hgm' & Hkeys & Hfacts).
  exists gm, gm'. split; [done|]. split; [done|]. split; [|split].
  - intros guess answer idx Hg Hidx.
    assert (Ha : answer ∈ answers) by by eapply list_elem_of_lookup_2.
    destruct (index_lookup guesses answers gm' Hgs Has Hkeys Hfacts
                guess answer Hg Ha) as (bv & Hl & _ & Hbit).
    exists bv. split; [done|]. split.
    + apply Bitvec_Get_true, Hbit. eauto.
    + intros j. by rewrite Bitvec_Get_true.
  - intros guess answer Hg. unfold lookupBitvec.
    destruct (gm' !! guess) as [gi|] eqn:Hgi; [|done].
    exfalso. apply Hg, Hkeys. by eexists.
  - intros guess answer Hg Ha. case_decide as Hex.
    + apply Exists_exists in Hex.
      destruct (index_lookup_hint guesses answers gm' Hkeys Hfacts
                  guess 0%Z Hg Hex answer) as (bv & Hl & _ & Hbit).
      { by rewrite decide_False. }
      exists bv. split; [done|]. intros j. by rewrite Bitvec_Get_true.
    + destruct (proj2 (Hkeys guess) Hg) as [gi Hgi].
      destruct (Hfacts _ _ Hgi) as (Hah & Hdom & _).
      unfold lookupBitvec. rewrite Hgi, Hah, decide_False by done. cbn.
      destruct (hintsMap gi !! 0%Z) as [info|] eqn:Hi; [|done].
      exfalso. apply Hex, Exists_exists, Hdom. by eexists.
Qed.

Lemma lookupBitvec_spec_witness :
  ∃ gm gm',
    calculateHints ["crane"; "lofty"] ["crane"; "react"; "speed"] ∅ = Ok gm
    ∧ calculateBitvecs ["crane"; "react"; "speed"] gm = Ok gm'
    ∧ (∀ guess answer idx,
         guess ∈ ["crane"; "lofty"] →
         ["crane"; "react"; "speed"] !! idx = Some answer →
         ∃ bv, lookupBitvec gm' guess answer = Ok bv
           ∧ Bitvec.Get bv idx = Ok true
           ∧ ∀ j, Bitvec.Get bv j = Ok true
                  ↔ ∃ a, ["crane"; "react"; "speed"] !! j = Some a
                         ∧ getHint guess a = getHint guess answer)
    ∧ (∀ guess answer,
         guess ∉ ["crane"; "lofty"] →
         lookupBitvec gm' guess answer = Panic NilDereference)
    ∧ (∀ guess answer,
         guess ∈ ["crane"; "lofty"] →
         answer ∉ ["crane"; "react"; "speed"] →
         if decide (Exists (λ a, getHint guess a = Ok 0%Z)
                           ["crane"; "react"; "speed"])
         then ∃ bv, lookupBitvec gm' guess answer = Ok bv
                ∧ ∀ j, Bitvec.Get bv j = Ok true
                       ↔ ∃ a, ["crane"; "react"; "speed"] !! j = Some a
                              ∧ getHint guess a = Ok 0%Z
         else lookupBitvec gm' guess answer = Panic NilDereference).
Proof.
  apply (lookupBitvec_spec ["crane"; "lofty"] ["crane"; "react"; "speed"]);
    repeat constructor.
Defined.

(** X10.  What one answer contributes to a score.  On the built index,
    for a first guess and further guesses of the guess list and an answer
    of the answer list, one round of [AvgNumCandidates] adds, and one round
    of [MaxNumCandidates] takes the maximum with, a number [c] between 1
    and the number of answers that give all these guesses the feedback the
    answer gives; [c] is exactly that number whenever it is above 2. *)
Theorem candidates_remaining (guesses answers : list string)
    (firstGuess : string) (others : list string) (answer : string) :
  Forall (λ w, String.length w = 5) guesses →
  Forall (λ w, String.length w = 5) answers →
  firstGuess ∈ guesses → Forall (λ g, g ∈ guesses) others →
  answer ∈ answers →
  ∃ gm gm',
    calculateHints guesses answers ∅ = Ok gm
    ∧ calculateBitvecs answers gm = Ok gm'
    ∧ ∃ c,
        (∀ tot, AvgNumCandidates_answer gm' firstGuess others answer tot
                = Ok (tot + c))
        ∧ (∀ ret, MaxNumCandidates_answer gm' firstGuess others answer ret
                  = Ok (ret `max` c))
        ∧ 1 ≤ c ≤ remaining answers (firstGuess :: others) answer
        ∧ (2 < remaining answers (firstGuess :: others) answer →
           c = remaining answers (firstGuess :: others) answer).
Proof.
  intros Hgs Has Hf Ho Ha.
  destruct (index_spec guesses answers Hgs Has)
    as (gm & gm' & Hgm & Hgm' & Hkeys & Hfacts).
  exists gm, gm'. split; [done|]. split; [done|].
  by apply (answer_contribution guesses answers gm' Hgs Has Hkeys Hfacts).
Qed.

Lemma candidates_remaining_witness :
  ∃ gm gm',
    calculateHints example_words example_words ∅ = Ok gm
    ∧ calculateBitvecs example_words gm = Ok gm'
    ∧ ∃ c,
        (∀ tot, AvgNumCandidates_answer gm' "lofty" ["speed"] "crane" tot
                = Ok (tot + c))
        ∧ (∀ ret, MaxNumCandidates_answer gm' "lofty" ["speed"] "crane" ret
                  = Ok (ret `max` c))
        ∧ 1 ≤ c ≤ remaining example_words ("lofty" :: ["speed"]) "crane"
        ∧ (2 < remaining example_words ("lofty" :: ["speed"]) "crane" →
           c = remaining example_words ("lofty" :: ["speed"]) "crane").
Proof.
  apply (candidates_remaining example_words example_words);
    [repeat constructor|repeat constructor|set_solver| |set_solver].
  apply Forall_singleton. set_solver.
Defined.

(** X11.  The scores are total and bounded.  On the built index, for a
    first guess and further guesses of the guess list, [AvgNumCandidates]
    and [MaxNumCandidates] return: no lookup fails.  The sum that
    [AvgNumCandidates] divides by [len(answers)] lies between
    [len(answers)] and [len(answers)] squared, and [MaxNumCandidates] lies
    between 1 and [max 1 len(answers)].  With no answers at all the sum
    and the divisor are both 0, whatever the index holds. *)
Theorem scores_bounded (guesses answers : list string)
    (firstGuess : string) (others : list string) :
  Forall (λ w, String.length w = 5) guesses →
  Forall (λ w, String.length w = 5) answers →
  firstGuess ∈ guesses → Forall (λ g, g ∈ guesses) others →
  (∃ gm gm' tot m,
     calculateHints guesses answers ∅ = Ok gm
     ∧ calculateBitvecs answers gm = Ok gm'
     ∧ AvgNumCandidates gm' answers firstGuess others
       = Ok (tot, length answers)
     ∧ length answers ≤ tot ≤ length answers * length answers
     ∧ MaxNumCandidates gm' answers firstGuess others = Ok m
     ∧ 1 ≤ m ≤ 1 `max` length answers)
  ∧ (∀ gm0 g gs, AvgNumCandidates gm0 [] g gs = Ok (0, 0)
                 ∧ MaxNumCandidates gm0 [] g gs = Ok 1).
Proof.
  intros Hgs Has Hf Ho. split; [|done].
  destruct (index_spec guesses answers Hgs Has)
    as (gm & gm' & Hgm & Hgm' & Hkeys & Hfacts).
  destruct (scoring_totals guesses answers gm' Hgs Has Hkeys Hfacts
              firstGuess others answers 0 1 Hf Ho)
    as (tot & m & Havg & Hmax & Ht & Hm & _).
  { by apply Forall_forall. }
  exists gm, gm', tot, m. split; [done|]. split; [done|].
  unfold AvgNumCandidates, MaxNumCandidates. rewrite Havg, Hmax, bind_Ok.
  split; [done|]. split; [lia|]. split; [done|]. lia.
Qed.

Lemma scores_bounded_witness :
  (∃ gm gm' tot m,
     calculateHints example_words example_words ∅ = Ok gm
     ∧ calculateBitvecs example_words gm = Ok gm'
     ∧ AvgNumCandidates gm' example_words "lofty" ["speed"]
       = Ok (tot, length example_words)
     ∧ length example_words ≤ tot
       ≤ length example_words * length example_words
     ∧ MaxNumCandidates gm' example_words "lofty" ["speed"] = Ok m
     ∧ 1 ≤ m ≤ 1 `max` length example_words)
  ∧ (∀ gm0 g gs, AvgNumCandidates gm0 [] g gs = Ok (0, 0)
                 ∧ MaxNumCandidates gm0 [] g gs = Ok 1).
Proof.
  apply (scores_bounded example_words example_words);
    [repeat constructor|repeat constructor|set_solver|].
  apply Forall_singleton. set_solver.
Defined.

(** ** The result of the guess-pair search *)

Lemma disjoint_from_elem filteredGuesses i js p :
  p ∈ disjoint_from filteredGuesses i js →
  ∃ j, j ∈ js ∧ p = (filteredGuesses !!! i, filteredGuesses !!! j)
       ∧ ¬ share_letter (filteredGuesses !!! i) (filteredGuesses !!! j).
Proof.
  unfold disjoint_from. intros (j & Hp & Hj)%list_elem_of_bind.
  exists j. split; [done|]. case_decide; [by apply elem_of_nil in Hp|].
  by apply list_elem_of_singleton in Hp.
Qed.

Lemma disjoint_pairs_elem filteredGuesses p :
  p ∈ disjoint_pairs filteredGuesses →
  p.1 ∈ filteredGuesses ∧ p.2 ∈ filteredGuesses ∧ ¬ share_letter p.1 p.2.
Proof.
  unfold disjoint_pairs. intros (i & Hp & Hi%elem_of_seq)%list_elem_of_bind.
  apply disjoint_from_elem in Hp as (j & Hj%elem_of_seq & -> & Hno).
  simpl. split; [|split; [|done]]; apply list_elem_of_lookup_total_2; lia.
Qed.

Section findBestGuess_best.
Context {V : Type}.
Variable score : string → string → result V.
Variable less : V → V → bool.
Hypothesis less_irrefl : ∀ v, less v v = false.
Hypothesis less_trans :
  ∀ u v w, less u v = true → less v w = true → less u w = true.

Variable guessBitvecs : list Bitvec.t.
Variable filteredGuesses : list string.
Hypothesis masks :
  Forall2 (λ bv g, letterMask g = Ok bv) guessBitvecs filteredGuesses.
Hypothesis score_total :
  ∀ g1 g2, g1 ∈ filteredGuesses → g2 ∈ filteredGuesses →
           is_Ok (score g1 g2) = true.

(** The invariant of the search: the running best is a best one, and
    only pairs of filtered guesses have been scored. *)
Let search_inv (st : search) : Prop :=
  best_so_far score less st
  ∧ ∀ g1 g2, (g1, g2) ∈ scored st →
             g1 ∈ filteredGuesses ∧ g2 ∈ filteredGuesses.

Lemma findBestGuess_pair_best i j st :
  i < length filteredGuesses → j < length filteredGuesses →
  search_inv st →
  ∃ st',
    findBestGuess_pair score less guessBitvecs filteredGuesses i j st = Ok st'
    ∧ search_inv st'.
Proof.
  unfold search_inv. intros Hi Hj [(Hval & Hin & Hmin) Hfrom].
  destruct (lookup_lt_is_Some_2 filteredGuesses i Hi) as [gi Hgi].
  destruct (lookup_lt_is_Some_2 filteredGuesses j Hj) as [gj Hgj].
  destruct (Forall2_lookup_r _ _ _ _ _ masks Hgi) as (bi & Hbi & Hmi).
  destruct (Forall2_lookup_r _ _ _ _ _ masks Hgj) as (bj & Hbj & Hmj).
  pose proof (list_elem_of_lookup_2 _ _ _ Hgi) as Hgi'.
  pose proof (list_elem_of_lookup_2 _ _ _ Hgj) as Hgj'.
  unfold findBestGuess_pair.
  rewrite (load_Ok _ _ _ Hgi), (load_Ok _ _ _ Hgj).
  rewrite (load_Ok _ _ _ Hbi), (load_Ok _ _ _ Hbj), !bind_Ok.
  unfold search_inv.
  case_decide as Hc.
  { exists st. split; [done|]. split; [|done]. by split. }
  pose proof (score_total gi gj Hgi' Hgj') as Hs.
  destruct (score gi gj) as [guessVal|] eqn:Hscore; [|done]. rewrite bind_Ok.
  assert (Hfrom' : ∀ g1 g2, (g1, g2) ∈ scored st ++ [(gi, gj)] →
                     g1 ∈ filteredGuesses ∧ g2 ∈ filteredGuesses).
  { intros g1 g2 [Hg|Hg]%elem_of_app; [by apply Hfrom|].
    apply list_elem_of_singleton in Hg. by injection Hg as -> ->. }
  destruct (less guessVal (bestGuessVal st)) eqn:Hless; eexists;
    (split; [done|]); (split; [|done]); unfold best_so_far; cbn;
    (split; [done|]).
  - split; [set_solver|].
    intros g1 g2 v [Hg|Hg]%elem_of_app Hv.
    + destruct (less v guessVal) eqn:Hlt; [|done].
      rewrite <- (Hmin g1 g2 v Hg Hv). symmetry. by eapply less_trans.
    + apply list_elem_of_singleton in Hg. injection Hg as -> ->.
      rewrite Hscore in Hv. injection Hv as <-. apply less_irrefl.
  - split; [set_solver|].
    intros g1 g2 v [Hg|Hg]%elem_of_app Hv; [by eapply Hmin|].
    apply list_elem_of_singleton in Hg. injection Hg as -> ->.
    rewrite Hscore in Hv. by injection Hv as <-.
Qed.

Lemma findBestGuess_inner_best i js st :
  i < length filteredGuesses →
  Forall (λ j, j < length filteredGuesses) js →
  search_inv st →
  ∃ st',
    for_each (findBestGuess_pair score less guessBitvecs filteredGuesses i)
             js st = Ok st'
    ∧ search_inv st'.
Proof.
  intros Hi Hjs. revert st.
  induction Hjs as [|j js Hj Hjs IH]; intros st Hst; [by exists st|].
  rewrite for_each_cons.
  destruct (findBestGuess_pair_best i j st Hi Hj Hst) as (st1 & -> & Hst1).
  rewrite bind_Ok. by apply IH.
Qed.

(** The invariant under the rounds that are left, ... *)
Lemma findBestGuess_wait_best_from start pending st :
  start + length pending ≤ length filteredGuesses →
  Forall (Forall (λ j, j < length filteredGuesses)) pending →
  search_inv st →
  ∃ st',
    for_range (λ i js st,
                 for_each (findBestGuess_pair score less guessBitvecs
                                              filteredGuesses i) js st)
              start pending st = Ok st'
    ∧ search_inv st'.
Proof.
  intros Hlen Hall. revert start st Hlen.
  induction Hall as [|js pending Hjs Hall IH]; intros start st Hlen Hst;
    [by exists st|].
  simpl in Hlen. cbn [for_range].
  destruct (findBestGuess_inner_best start js st ltac:(lia) Hjs Hst)
    as (st1 & -> & Hst1).
  rewrite bind_Ok. apply IH; [lia|done].
Qed.

(** ... and under the rounds of a schedule. *)
Lemma findBestGuess_run_best schedule pending st :
  length pending ≤ length filteredGuesses →
  Forall (Forall (λ j, j < length filteredGuesses)) pending →
  search_inv st →
  ∃ pending' st',
    findBestGuess_run score less guessBitvecs filteredGuesses
      schedule pending st = Ok (pending', st')
    ∧ length pending' = length pending
    ∧ Forall (Forall (λ j, j < length filteredGuesses)) pending'
    ∧ search_inv st'.
Proof.
  revert pending st.
  induction schedule as [|i schedule IH]; intros pending st Hlen Hall Hst.
  - by exists pending, st.
  - cbn [findBestGuess_run].
    destruct (pending !! i) as [[|j js]|] eqn:Hi; [by apply IH| |by apply IH].
    pose proof (lookup_lt_Some _ _ _ Hi) as Hlt.
    assert (Hjs : Forall (λ j, j < length filteredGuesses) (j :: js)).
    { rewrite Forall_forall in Hall. apply Hall.
      by eapply list_elem_of_lookup_2. }
    apply Forall_cons_1 in Hjs as [Hj Hjs].
    destruct (findBestGuess_pair_best i j st ltac:(lia) Hj Hst)
      as (st1 & -> & Hst1).
    rewrite bind_Ok.
    destruct (IH (<[i := js]> pending) st1) as (pending' & st' & Hrun & Hl & Hall' & Hst');
      [by rewrite length_insert|by apply Forall_insert|done|].
    exists pending', st'. by rewrite Hl, length_insert in *.
Qed.

End findBestGuess_best.

(** Both searches return, whatever the schedule, unless the run time sees
    a misuse of the wait group, and their running best is then a best one
    of the pairs that they have scored. *)
Lemma findBestGuess_best {V : Type}
    (score : string → string → result V) (less : V → V → bool)
    (guesses : list string) (schedule : list nat) :
  Forall lowercase_word guesses →
  (∀ g1 g2, g1 ∈ guesses → g2 ∈ guesses → is_Ok (score g1 g2) = true) →
  (∀ v, less v v = false) →
  (∀ u v w, less u v = true → less v w = true → less u w = true) →
  let filteredGuesses := filter (λ g, NoDup (bytes g)) guesses in
  2 ≤ length filteredGuesses →
  ∃ st st',
    findBestGuess score less guesses schedule false = Ok st
    ∧ findBestGuess_handler score less guesses schedule = Ok st'
    ∧ best_so_far score less st
    ∧ best_so_far score less st'
    ∧ ∀ g1 g2, (g1, g2) ∈ scored st ∨ (g1, g2) ∈ scored st' →
        g1 ∈ filteredGuesses ∧ g2 ∈ filteredGuesses.
Proof.
  intros Hwords Hscore Hirr Htrans filteredGuesses Hlen.
  destruct (findBestGuess_seed_spec score guesses Hwords)
    as (guessBitvecs & Hfilter & Hmasks & Hfw & Hseed).
  fold filteredGuesses in Hfilter, Hmasks, Hfw, Hseed.
  assert (Hsub : ∀ g, g ∈ filteredGuesses → g ∈ guesses).
  { intros g Hg. by apply list_elem_of_filter in Hg as [_ ?]. }
  assert (Htotal : ∀ g1 g2, g1 ∈ filteredGuesses → g2 ∈ filteredGuesses →
                     is_Ok (score g1 g2) = true) by auto.
  unfold findBestGuess, findBestGuess_handler. rewrite Hseed.
  destruct filteredGuesses as [|g0 [|g1 rest]] eqn:Hfg;
    [simpl in Hlen; lia|simpl in Hlen; lia|].
  pose proof (Htotal g0 g1 ltac:(set_solver) ltac:(set_solver)) as Hs.
  destruct (score g0 g1) as [v|] eqn:Hv; [|done]. rewrite !bind_Ok.
  destruct (findBestGuess_run_best score less Hirr Htrans guessBitvecs
              (g0 :: g1 :: rest) Hmasks Htotal schedule
              (goroutines (length (g0 :: g1 :: rest)))
              {| bestGuess1 := g0; bestGuess2 := g1; bestGuessVal := v;
                 scored := [(g0, g1)] |})
    as (pending' & st & -> & Hl & Hall & Hbest & Hfrom).
  { rewrite goroutines_length. lia. }
  { apply goroutines_rounds. }
  { split.
    - unfold best_so_far. cbn. split; [done|]. split; [set_solver|].
      intros g1' g2' v' Hg%list_elem_of_singleton Hv'.
      injection Hg as -> ->. rewrite Hv in Hv'. injection Hv' as <-.
      apply Hirr.
    - cbn. intros g1' g2' Hg%list_elem_of_singleton.
      injection Hg as -> ->. set_solver. }
  rewrite !bind_Ok.
  destruct (findBestGuess_wait_best_from score less Hirr Htrans guessBitvecs
              (g0 :: g1 :: rest) Hmasks Htotal 0 pending' st)
    as (st' & Hwait & Hbest' & Hfrom').
  { rewrite Hl, goroutines_length. simpl. lia. }
  { done. }
  { by split. }
  exists st, st'. split; [done|]. split; [done|]. split; [done|].
  split; [done|]. intros g1' g2' [Hg|Hg]; [by apply Hfrom|by apply Hfrom'].
Qed.

(** X12.  The running best when [wg.Wait()] returns.  For guesses of five
    lowercase letters of which at least two have five distinct letters, a
    scoring function that returns on the guesses and an order [<] that is
    irreflexive and transitive, both searches return under every schedule
    (in [api/wordle.go], unless the run time sees a misuse of the wait
    group); the value of the running best is the score of its pair, that
    pair is one of the pairs scored, and no pair scored has a smaller
    score.  In the later revision, which waits for every goroutine, no
    pair of guesses without a common letter has a smaller score than the
    running best.  In [api/wordle.go] [wg.Wait()] can return before any
    round has run: the running best is then the seed, the first two
    guesses, whatever the other pairs score. *)
Theorem findBestGuess_minimal {V : Type}
    (score : string → string → result V) (less : V → V → bool)
    (guesses : list string) (schedule : list nat) :
  Forall lowercase_word guesses →
  (∀ g1 g2, g1 ∈ guesses → g2 ∈ guesses → is_Ok (score g1 g2) = true) →
  (∀ v, less v v = false) →
  (∀ u v w, less u v = true → less v w = true → less u w = true) →
  let filteredGuesses := filter (λ g, NoDup (bytes g)) guesses in
  2 ≤ length filteredGuesses →
  ∃ st st' st0,
    findBestGuess score less guesses schedule false = Ok st
    ∧ best_so_far score less st
    ∧ findBestGuess_handler score less guesses schedule = Ok st'
    ∧ best_so_far score less st'
    ∧ (∀ g1 g2 v, (g1, g2) ∈ disjoint_pairs filteredGuesses →
         score g1 g2 = Ok v → less v (bestGuessVal st') = false)
    ∧ (∀ misuse, findBestGuess score less guesses [] misuse = Ok st0)
    ∧ (bestGuess1 st0, bestGuess2 st0)
      = (filteredGuesses !!! 0, filteredGuesses !!! 1)
    ∧ scored st0 = [(filteredGuesses !!! 0, filteredGuesses !!! 1)].
Proof.
  intros Hwords Hscore Hirr Htrans filteredGuesses Hlen.
  destruct (findBestGuess_best score less guesses schedule
              Hwords Hscore Hirr Htrans Hlen)
    as (st & st' & Hrun & Hrun' & Hbest & Hbest' & _).
  fold filteredGuesses in Hlen.
  destruct (findBestGuess_seed_spec score guesses Hwords)
    as (guessBitvecs & Hfilter & Hmasks & Hfw & Hseed).
  fold filteredGuesses in Hfilter, Hmasks, Hfw, Hseed.
  destruct filteredGuesses as [|g0 [|g1 rest]] eqn:Hfg;
    [simpl in Hlen; lia|simpl in Hlen; lia|].
  assert (Hin0 : g0 ∈ guesses ∧ g1 ∈ guesses).
  { assert (Hg : ∀ g, g ∈ g0 :: g1 :: rest → g ∈ guesses).
    { intros g. rewrite <- Hfg. unfold filteredGuesses.
      by intros [_ ?]%list_elem_of_filter. }
    split; apply Hg; set_solver. }
  pose proof (Hscore g0 g1 (proj1 Hin0) (proj2 Hin0)) as Hs.
  destruct (score g0 g1) as [v|] eqn:Hv; [|done].
  exists st, st'. eexists. split; [done|]. split; [done|]. split; [done|].
  split; [done|]. split; [|split; [|split]].
  - intros g1' g2' v' Hpair Hv'.
    destruct Hbest' as (_ & _ & Hmin). apply (Hmin g1' g2' v'); [|done].
    revert Hrun'. unfold findBestGuess_handler. rewrite Hseed, ?Hv, !bind_Ok.
    pose proof (findBestGuess_run_goroutines score less guessBitvecs
                  (g0 :: g1 :: rest) schedule
                  {| bestGuess1 := g0; bestGuess2 := g1; bestGuessVal := v;
                     scored := [(g0, g1)] |} Hmasks Hfw) as Hspec.
    destruct (findBestGuess_run _ _ _ _ _ _ _) as [[pending' st1]|e]; [|done].
    rewrite bind_Ok. intros Hwait.
    destruct Hspec as (Hl & Hall & l & Hlog & Hperm).
    pose proof (findBestGuess_wait_spec score less guessBitvecs
                  (g0 :: g1 :: rest) Hmasks Hfw pending' st1 Hl Hall) as Hw.
    rewrite Hwait in Hw. unfold rounds_result in Hw.
    rewrite Hw, Hlog, <- app_assoc, Hperm. set_solver.
  - intros misuse. unfold findBestGuess. rewrite Hseed, ?Hv, !bind_Ok. cbn.
    by rewrite andb_false_r.
  - done.
  - done.
Qed.

Lemma findBestGuess_minimal_witness :
  let score := λ g1 g2, MaxNumCandidates example_index example_words g1 [g2] in
  let filteredGuesses := filter (λ g, NoDup (bytes g)) example_words in
  ∃ st st' st0,
    findBestGuess score Nat.ltb example_words [1; 0] false = Ok st
    ∧ best_so_far score Nat.ltb st
    ∧ findBestGuess_handler score Nat.ltb example_words [1; 0] = Ok st'
    ∧ best_so_far score Nat.ltb st'
    ∧ (∀ g1 g2 v, (g1, g2) ∈ disjoint_pairs filteredGuesses →
         score g1 g2 = Ok v → Nat.ltb v (bestGuessVal st') = false)
    ∧ (∀ misuse, findBestGuess score Nat.ltb example_words [] misuse = Ok st0)
    ∧ (bestGuess1 st0, bestGuess2 st0)
      = (filteredGuesses !!! 0, filteredGuesses !!! 1)
    ∧ scored st0 = [(filteredGuesses !!! 0, filteredGuesses !!! 1)].
Proof.
  apply (findBestGuess_minimal
           (λ g1 g2, MaxNumCandidates example_index example_words g1 [g2])
           Nat.ltb example_words [1; 0]).
  - lowercase_words.
  - intros g1 g2 Hg1 Hg2. unfold example_words in Hg1, Hg2.
    repeat (apply elem_of_cons in Hg1 as [->|Hg1]);
      try (by apply elem_of_nil in Hg1);
      repeat (apply elem_of_cons in Hg2 as [->|Hg2]);
      try (by apply elem_of_nil in Hg2);
      vm_compute; reflexivity.
  - intros v. apply Nat.ltb_irrefl.
  - intros u v w Huv%Nat.ltb_lt Hvw%Nat.ltb_lt. apply Nat.ltb_lt. lia.
  - vm_compute. lia.
Defined.

(** With the guesses "fjord", "nymph" and "climb" and five answers that
    end in "atch", the seed, "fjord" with "nymph", leaves 4 candidates,
    and "fjord" with "climb" tells the five answers apart: the later
    revision ends on the better pair, and [api/wordle.go], when
    [wg.Wait()] returns at once, on the seed. *)
Remark findBestGuess_early :
  let guesses := ["fjord"; "nymph"; "climb"] in
  let answers := ["batch"; "catch"; "hatch"; "latch"; "match"] in
  ∃ gm,
    (gm0 ← calculateHints guesses answers ∅; calculateBitvecs answers gm0)
    = Ok gm
    ∧ let score g1 g2 := MaxNumCandidates gm answers g1 [g2] in
      (λ st, (bestGuess1 st, bestGuess2 st, bestGuessVal st))
        <$> findBestGuess score Nat.ltb guesses [] false
      = Ok ("fjord", "nymph", 4)
      ∧ (λ st, (bestGuess1 st, bestGuess2 st, bestGuessVal st))
          <$> findBestGuess_handler score Nat.ltb guesses []
        = Ok ("fjord", "climb", 1).
Proof.
  eexists. split; [vm_compute; reflexivity|].
  split; vm_compute; reflexivity.
Qed.

(** X13.  The program end to end.  On word lists of five lowercase
    letters, with at least two guesses of five distinct letters,
    [calculateHints], [calculateBitvecs] and then [findBestGuess] with the
    score [MaxNumCandidates] all return, under every schedule of the
    goroutines of the search: no index leaves its slice and no lookup
    meets a nil entry, so that the one panic left to the program is the
    run time's when it sees the wait group misused.  When [wg.Wait()]
    returns, the value of the running best is the [MaxNumCandidates] of
    its pair, it lies between 1 and [max 1 len(answers)], and no pair
    scored by then has a smaller value. *)
Theorem main_returns (guesses answers : list string) (schedule : list nat) :
  Forall lowercase_word guesses →
  Forall (λ w, String.length w = 5) answers →
  2 ≤ length (filter (λ g, NoDup (bytes g)) guesses) →
  ∃ gm gm' st,
    calculateHints guesses answers ∅ = Ok gm
    ∧ calculateBitvecs answers gm = Ok gm'
    ∧ let score := λ g1 g2, MaxNumCandidates gm' answers g1 [g2] in
      findBestGuess score Nat.ltb guesses schedule false = Ok st
      ∧ (∀ misuse, findBestGuess score Nat.ltb guesses schedule misuse = Ok st
                   ∨ findBestGuess score Nat.ltb guesses schedule misuse
                     = Panic WaitGroupMisuse)
      ∧ best_so_far score Nat.ltb st
      ∧ 1 ≤ bestGuessVal st ≤ 1 `max` length answers.
Proof.
  intros Hwords Has Hlen.
  assert (Hgs : Forall (λ w, String.length w = 5) guesses).
  { eapply Forall_impl; [done|]. by intros w [? _]. }
  destruct (index_spec guesses answers Hgs Has)
    as (gm & gm' & Hgm & Hgm' & Hkeys & Hfacts).
  pose (score := λ g1 g2, MaxNumCandidates gm' answers g1 [g2]).
  assert (Hscore : ∀ g1 g2, g1 ∈ guesses → g2 ∈ guesses →
            ∃ m, score g1 g2 = Ok m ∧ 1 ≤ m ≤ 1 `max` length answers).
  { intros g1 g2 Hg1 Hg2.
    destruct (scoring_totals guesses answers gm' Hgs Has Hkeys Hfacts
                g1 [g2] answers 0 1 Hg1)
      as (tot & m & _ & Hmax & _ & Hm & _).
    { by apply Forall_singleton. }
    { by apply Forall_forall. }
    exists m. split; [done|]. lia. }
  destruct (findBestGuess_best score Nat.ltb guesses schedule Hwords)
    as (st & st' & Hrun & _ & Hbest & _ & Hfrom).
  { intros g1 g2 Hg1 Hg2. by destruct (Hscore g1 g2 Hg1 Hg2) as (m & -> & _). }
  { intros v. apply Nat.ltb_irrefl. }
  { intros u v w Huv%Nat.ltb_lt Hvw%Nat.ltb_lt. apply Nat.ltb_lt. lia. }
  { done. }
  exists gm, gm', st. split; [done|]. split; [done|]. cbv zeta. fold score.
  split; [done|]. split.
  { intros misuse. revert Hrun. unfold findBestGuess.
    destruct (findBestGuess_seed score guesses) as [[[gB fG] st0]|]; [|done].
    rewrite !bind_Ok.
    destruct (findBestGuess_run _ _ _ _ _ _ _) as [[pending st1]|]; [|done].
    rewrite !bind_Ok. cbn [andb]. intros [= <-].
    destruct (misuse && _ && _); [by right|by left]. }
  split; [done|].
  destruct Hbest as (Hval & Hin & _).
  destruct (Hfrom _ _ (or_introl Hin))
    as [[_ H1]%list_elem_of_filter [_ H2]%list_elem_of_filter].
  destruct (Hscore _ _ H1 H2) as (m & Hm & Hb).
  rewrite Hval in Hm. by injection Hm as ->.
Qed.

Lemma main_returns_witness :
  ∃ gm gm' st,
    calculateHints example_words example_words ∅ = Ok gm
    ∧ calculateBitvecs example_words gm = Ok gm'
    ∧ let score := λ g1 g2, MaxNumCandidates gm' example_words g1 [g2] in
      findBestGuess score Nat.ltb example_words [2; 0; 0] false = Ok st
      ∧ (∀ misuse,
           findBestGuess score Nat.ltb example_words [2; 0; 0] misuse = Ok st
           ∨ findBestGuess score Nat.ltb example_words [2; 0; 0] misuse
             = Panic WaitGroupMisuse)
      ∧ best_so_far score Nat.ltb st
      ∧ 1 ≤ bestGuessVal st ≤ 1 `max` length example_words.
Proof.
  apply (main_returns example_words example_words [2; 0; 0]).
  - lowercase_words.
  - repeat constructor.
  - vm_compute. lia.
Defined.

(** ** Where the loops panic *)

(** A loop panics when one of its rounds panics from every state that
    the earlier rounds can leave. *)
Lemma for_each_Panic {A St} (body : A → St → result St) (Inv : St → Prop)
    (e : runtime_error) l s :
  (∀ x s s', Inv s → body x s = Ok s' → Inv s') →
  (∀ x s e', body x s = Panic e' → e' = e) →
  Exists (λ x, ∀ s, Inv s → body x s = Panic e) l →
  Inv s →
  for_each body l s = Panic e.
Proof.
  intros Hpres Hkind Hex. revert s.
  induction l as [|x l IH]; intros s Hs; [by apply Exists_nil in Hex|].
  rewrite for_each_cons.
  destruct (body x s) as [s'|e'] eqn:Hb.
  - rewrite bind_Ok. apply Exists_cons in Hex as [Hx|Hex].
    + rewrite Hx in Hb by done. done.
    + apply IH; [done|]. by eapply Hpres.
  - cbn. f_equal. by eapply Hkind.
Qed.

Lemma load_Panic_kind {A} (l : list A) i e : load l i = Panic e → e = IndexOutOfRange.
Proof. unfold load. destruct (l !! i); congruence. Qed.

Lemma words_Set_Panic_kind Bytes Count i e :
  words_Set Bytes Count i = Panic e → e = IndexOutOfRange.
Proof.
  destruct (decide (i / 64 < length Bytes)) as [Hi|Hi].
  - destruct (words_Set_spec Bytes Count i Hi) as (? & -> & _). done.
  - rewrite words_Set_panic by lia. congruence.
Qed.

Lemma Bitvec_Set_Panic_kind bv i e :
  Bitvec.Set_ bv i = Panic e → e = IndexOutOfRange.
Proof.
  unfold Bitvec.Set_.
  destruct (words_Set _ _ _) as [[??]|e'] eqn:Hw; [done|].
  apply words_Set_Panic_kind in Hw. cbn. congruence.
Qed.

Lemma Bitvec_Set_length bv i bv' :
  Bitvec.Set_ bv i = Ok bv' →
  length (Bitvec.Bytes bv') = length (Bitvec.Bytes bv).
Proof.
  intros Hset.
  destruct (decide (i / 64 < length (Bitvec.Bytes bv))) as [Hi|Hi].
  - destruct (Bitvec_Set_bits bv i Hi) as (bv1 & Hset1 & Hlen & _).
    rewrite Hset in Hset1. by injection Hset1 as ->.
  - unfold Bitvec.Set_ in Hset. rewrite words_Set_panic in Hset by lia. done.
Qed.

Lemma letter_index_lt_64 ch :
  letter_index ch < 64 ↔ 97 ≤ nat_of_ascii ch ≤ 160.
Proof.
  unfold letter_index. pose proof (nat_ascii_bounded ch).
  destruct (decide (97 ≤ nat_of_ascii ch)).
  - replace (nat_of_ascii ch + 256 - 97)
      with (nat_of_ascii ch - 97 + 1 * 256) by lia.
    rewrite Nat.Div0.mod_add, Nat.mod_small; lia.
  - rewrite Nat.mod_small; lia.
Qed.

(** X14.  The domain of the letter mask.  The loop of [findBestGuess] that
    builds the 26-bit letter set of a guess returns exactly when the guess
    has at least 5 bytes and each of its first five bytes lies between
    ['a'] (97) and byte 160: the byte subtraction [guess[i] - 'a'] wraps,
    and [Set] only rejects indices from 64 on.  The set then holds the
    letter indices of these bytes, and has [Count] 5 exactly when they are
    distinct.  On any other guess, an upper-case word for one, the loop
    panics with an index out of range. *)
Theorem letterMask_domain (guess : string) :
  let ok := 5 ≤ String.length guess
            ∧ Forall (λ ch, 97 ≤ nat_of_ascii ch ≤ 160) (take 5 (bytes guess)) in
  (ok → ∃ bv, letterMask guess = Ok bv
          ∧ (∀ j, Bitvec.Get bv j = Ok true
                  ↔ ∃ ch, ch ∈ take 5 (bytes guess) ∧ letter_index ch = j)
          ∧ (Bitvec.Count bv = 5 ↔ NoDup (take 5 (bytes guess))))
  ∧ (¬ ok → letterMask guess = Panic IndexOutOfRange).
Proof.
  intros ok. split.
  - intros [Hlen Hall].
    destruct (letterMask_spec guess Hlen) as (bv & Hrun & Hbit & Hcount).
    { eapply Forall_impl; [done|]. intros ch. apply letter_index_lt_64. }
    exists bv. split; [done|]. split; [|done].
    intros j. by rewrite Bitvec_Get_true.
  - intros Hnot. unfold letterMask.
    apply (for_each_Panic _ (λ bv, length (Bitvec.Bytes bv) = 1)).
    + intros i bv bv' Hbv Hb.
      destruct (load (bytes guess) i) as [ch|]; [|done].
      rewrite bind_Ok in Hb. by rewrite (Bitvec_Set_length _ _ _ Hb).
    + intros i bv e Hb.
      destruct (load (bytes guess) i) as [ch|] eqn:Hl.
      * rewrite bind_Ok in Hb. by eapply Bitvec_Set_Panic_kind.
      * cbn in Hb. injection Hb as <-. by eapply load_Panic_kind.
    + destruct (decide (5 ≤ String.length guess)) as [Hlen|Hlen].
      * assert (Hbad : Exists (λ ch, ¬ (97 ≤ nat_of_ascii ch ≤ 160))
                         (take 5 (bytes guess))).
        { apply not_Forall_Exists; [apply _|]. intros Hall. by apply Hnot. }
        apply Exists_exists in Hbad as (ch & Hch & Hout).
        apply list_elem_of_lookup in Hch as [i Hi].
        apply lookup_take_Some in Hi as [Hi Hi5].
        apply Exists_exists. exists i. split; [apply elem_of_seq; lia|].
        intros bv Hbv. rewrite (load_Ok _ _ _ Hi), bind_Ok.
        unfold Bitvec.Set_. rewrite words_Set_panic; [done|].
        rewrite Hbv. rewrite <- letter_index_lt_64 in Hout.
        apply Nat.div_le_lower_bound; lia.
      * apply Exists_exists. exists (String.length guess).
        split; [apply elem_of_seq; lia|].
        intros bv _. unfold load.
        rewrite lookup_ge_None_2 by (rewrite length_bytes; lia). done.
    + done.
Qed.

Lemma letterMask_domain_witness :
  letterMask "CRANE" = Panic IndexOutOfRange.
Proof.
  apply (proj2 (letterMask_domain "CRANE")).
  intros [_ Hall]. apply Forall_cons in Hall as [Hc _].
  vm_compute in Hc. lia.
Defined.

(** X15.  The greens of [hint.New].  For a guess and an answer of at
    least 5 bytes [hint.New] returns, and its [greens] are the positions
    0..4 at which the two words hold the same byte, each with that byte,
    in increasing order.  When either word is shorter than 5 bytes it
    panics with an index out of range. *)
Theorem hint_New_greens (guess answer : string) :
  (5 ≤ String.length guess → 5 ≤ String.length answer →
   ∃ h, hint.New guess answer = Ok h
        ∧ hint.greens h = matching_greens (bytes guess) (bytes answer))
  ∧ (String.length guess < 5 ∨ String.length answer < 5 →
     hint.New guess answer = Panic IndexOutOfRange).
Proof.
  split.
  - rewrite <- !length_bytes. intros Hg Ha. unfold hint.New, matching_greens.
    destruct (bytes guess) as [|g0 [|g1 [|g2 [|g3 [|g4 gs]]]]];
      cbn [length] in Hg; try lia.
    destruct (bytes answer) as [|a0 [|a1 [|a2 [|a3 [|a4 as_]]]]];
      cbn [length] in Ha; try lia.
    cbn -[replicate]. unfold hint.New_greens. cbn -[replicate].
    repeat case_decide; cbn -[replicate]; eexists; (split; [reflexivity|]);
      reflexivity.
  - rewrite <- !length_bytes. intros Hshort. unfold hint.New.
    set (g := bytes guess) in *. set (a := bytes answer) in *.
    change (for_range (λ _ i h, hint.New_greens g a i h) 0 (seq 0 5) hint.zero)
      with (for_each (hint.New_greens g a) (seq 0 5) hint.zero).
    rewrite (for_each_Panic _ (λ h, length (hint.sequence h) = 5)
               IndexOutOfRange); [done| | | |done].
    + intros i h h' Hh. unfold hint.New_greens.
      destruct (load g i) as [g_i|]; [|done]. rewrite bind_Ok.
      destruct (load a i) as [a_i|]; [|done]. rewrite bind_Ok.
      unfold store. destruct (decide (i < _)) as [Hlt|Hlt]; [|done].
      rewrite bind_Ok. intros [= <-]. cbn. rewrite length_insert.
      by case_decide.
    + intros i h e. unfold hint.New_greens.
      destruct (load g i) as [g_i|] eqn:Hgi.
      2:{ cbn. intros [= <-]. by eapply load_Panic_kind. }
      rewrite bind_Ok.
      destruct (load a i) as [a_i|] eqn:Hai.
      2:{ cbn. intros [= <-]. by eapply load_Panic_kind. }
      rewrite bind_Ok. unfold store.
      destruct (decide (i < _)) as [Hlt|Hlt]; [done|]. cbn. congruence.
    + apply Exists_exists. exists (length g `min` length a).
      split; [apply elem_of_seq; lia|].
      intros h _. unfold hint.New_greens, load.
      destruct (decide (length g ≤ length a)) as [Hle|Hle].
      * rewrite (lookup_ge_None_2 g) by lia. done.
      * destruct (g !! _); [|done]. rewrite bind_Ok.
        rewrite (lookup_ge_None_2 a) by lia. done.
Qed.

Lemma hint_New_greens_witness :
  (∃ h, hint.New "trees" "tress" = Ok h
        ∧ hint.greens h = matching_greens (bytes "trees") (bytes "tress"))
  ∧ hint.New "tree" "roate" = Panic IndexOutOfRange.
Proof.
  split.
  - apply (proj1 (hint_New_greens "trees" "tress")); vm_compute; lia.
  - apply (proj2 (hint_New_greens "tree" "roate")). left. vm_compute. lia.
Defined.

(** ** The table of letter constraints *)

Lemma ascending_filter a n (l : list nat) :
  StronglySorted lt l → Forall (λ x, a ≤ x < a + n) l →
  l = filter (λ x, x ∈ l) (seq a n).
Proof.
  revert a l. induction n as [|n IH]; intros a l Hs Hb.
  - destruct l as [|x l]; [done|]. apply Forall_cons in Hb as [? _]. lia.
  - cbn [seq]. rewrite filter_cons.
    destruct l as [|x l].
    { rewrite decide_False by apply not_elem_of_nil.
      rewrite filter_none; [done|]. apply Forall_forall.
      intros ? _. apply not_elem_of_nil. }
    apply StronglySorted_inv in Hs as [Hs Hx].
    apply Forall_cons in Hb as [Hxb Hb].
    rewrite Forall_forall in Hx. rewrite Forall_forall in Hb.
    destruct (decide (x = a)) as [->|Hne].
    + rewrite decide_True by set_solver. f_equal.
      rewrite (IH (S a) l) at 1; [|done|].
      2:{ apply Forall_forall. intros y Hy.
          specialize (Hx y Hy). specialize (Hb y Hy). lia. }
      apply filter_ext_elem. intros y Hy%elem_of_seq. set_solver by lia.
    + rewrite decide_False.
      2:{ intros [?|Ha]%elem_of_cons; [lia|]. specialize (Hx a Ha). lia. }
      apply (IH (S a) (x :: l)).
      * constructor; [done|]. by apply Forall_forall.
      * apply Forall_cons. split; [lia|]. apply Forall_forall.
        intros y Hy. specialize (Hx y Hy). specialize (Hb y Hy). lia.
Qed.

Lemma ascending_pattern l :
  ascending l →
  l = pattern_positions (pattern_of (λ i, bool_decide (i ∈ l))).
Proof.
  intros [Hs Hb]. unfold pattern_positions.
  rewrite (ascending_filter 0 5 l) at 1; [|done|].
  2:{ eapply Forall_impl; [done|]. intros; cbn in *; lia. }
  apply filter_ext_elem. intros i Hi.
  rewrite pattern_at_of by done. by rewrite bool_decide_eq_true.
Qed.

Lemma table_shape_checked :
  forallb (λ info,
    IsValid info
    && bool_decide (Frequency info ≤ 3)
    && bool_decide (ascending (MustBeInPositions info))
    && bool_decide (ascending (CantBeInPositions info)))
    GenerateAllLetterInfos = true.
Proof. vm_compute. reflexivity. Qed.

Lemma table_complete_checked :
  forallb (λ pm,
    forallb (λ pc,
      forallb (λ f,
        forallb (λ e,
          let info := {| MustBeInPositions := pattern_positions pm;
                         CantBeInPositions := pattern_positions pc;
                         Frequency := f;
                         FrequencyIsExact := e |} in
          if IsValid info then bool_decide (info ∈ GenerateAllLetterInfos)
          else true)
          [false; true]) (seq 0 4)) patterns) patterns = true.
Proof. vm_compute. reflexivity. Qed.

(** X16.  What the table holds.  [GenerateAllLetterInfos] lists exactly
    the constraints that are valid ([IsValid]), have a frequency of at
    most 3, and whose two position lists are lists of positions 0..4 in
    increasing order.  It lists none of them twice. *)
Theorem GenerateAllLetterInfos_spec :
  (∀ info : LetterInfo,
     info ∈ GenerateAllLetterInfos
     ↔ IsValid info = true
       ∧ Frequency info ≤ 3
       ∧ ascending (MustBeInPositions info)
       ∧ ascending (CantBeInPositions info))
  ∧ NoDup GenerateAllLetterInfos.
Proof.
  split.
  - intros info. split.
    + intros Hin. pose proof table_shape_checked as Hall.
      rewrite forallb_forall in Hall.
      apply list_elem_of_In, Hall in Hin.
      apply andb_prop in Hin as [Hin Hc].
      apply andb_prop in Hin as [Hin Hm].
      apply andb_prop in Hin as [Hv Hf].
      apply bool_decide_eq_true in Hc, Hm, Hf. done.
    + intros (Hv & Hf & Hm & Hc).
      pose proof table_complete_checked as Hall.
      rewrite forallb_forall in Hall.
      specialize (Hall _ (proj1 (list_elem_of_In _ _)
        (pattern_of_patterns (λ i, bool_decide (i ∈ MustBeInPositions info))))).
      rewrite forallb_forall in Hall.
      specialize (Hall _ (proj1 (list_elem_of_In _ _)
        (pattern_of_patterns (λ i, bool_decide (i ∈ CantBeInPositions info))))).
      rewrite forallb_forall in Hall.
      specialize (Hall (Frequency info)).
      rewrite forallb_forall in Hall.
      specialize (Hall ltac:(apply in_seq; lia) (FrequencyIsExact info)).
      cbv zeta in Hall.
      rewrite <- !ascending_pattern in Hall by done.
      destruct info as [must cant f e]. cbn [MustBeInPositions
        CantBeInPositions Frequency FrequencyIsExact] in *.
      rewrite Hv in Hall.
      assert (He : In e [false; true]) by (destruct e; cbn; auto).
      apply Hall in He. by apply bool_decide_eq_true in He.
  - apply (bool_decide_eq_true (NoDup GenerateAllLetterInfos)).
    vm_compute. reflexivity.
Qed.

Lemma GenerateAllLetterInfos_spec_witness :
  {| MustBeInPositions := [1]; CantBeInPositions := [0; 3];
     Frequency := 2; FrequencyIsExact := false |} ∈ GenerateAllLetterInfos.
Proof.
  apply (proj1 GenerateAllLetterInfos_spec).
  split; [reflexivity|]. split; [cbn; lia|].
  split; refine (proj1 (bool_decide_eq_true _) _); vm_compute; reflexivity.
Defined.

Lemma hashToIndex_loop (l : list LetterInfo) (start : nat)
    (m : gmap (list nat * list nat * nat * bool) nat) :
  NoDup (LetterInfo_Hash <$> l) →
  (∀ info, info ∈ l → m !! LetterInfo_Hash info = None) →
  let m' := foldl (λ hashToIndex '(i, info),
                     <[LetterInfo_Hash info := i]> hashToIndex)
                  m (imap (λ i, pair (start + i)) l) in
  (∀ i info, l !! i = Some info → m' !! LetterInfo_Hash info = Some (start + i))
  ∧ (∀ h, (∀ info, info ∈ l → LetterInfo_Hash info ≠ h) → m' !! h = m !! h)
  ∧ size m' = size m + length l.
Proof.
  revert start m. induction l as [|x l IH]; intros start m Hnd Hfresh m'.
  - subst m'. cbn. split; [intros i info Hi; by rewrite lookup_nil in Hi|].
    split; [done|lia].
  - apply NoDup_cons in Hnd as [Hx Hnd]. subst m'. cbn [imap foldl].
    rewrite Nat.add_0_r.
    rewrite (imap_ext _ (λ i, pair (S start + i))).
    2:{ intros i y _. cbn. f_equal. lia. }
    destruct (IH (S start) (<[LetterInfo_Hash x := start]> m) Hnd)
      as (Hlook & Hother & Hsize).
    { intros info Hin. rewrite lookup_insert_ne; [apply Hfresh; set_solver|].
      intros Heq. apply Hx. rewrite Heq. by apply list_elem_of_fmap_2. }
    cbv zeta in Hlook, Hother, Hsize. split; [|split].
    + intros [|i] info Hi.
      * injection Hi as ->. rewrite Hother, lookup_insert_eq, Nat.add_0_r; [done|].
        intros info' Hin Heq. apply Hx. rewrite <- Heq.
        by apply list_elem_of_fmap_2.
      * rewrite (Hlook i info Hi). f_equal. lia.
    + intros h Hh. rewrite Hother by (intros info Hin; apply Hh; set_solver).
      rewrite lookup_insert_ne; [done|]. apply Hh. set_solver.
    + rewrite Hsize, map_size_insert_None by (apply Hfresh; set_solver).
      cbn [length]. lia.
Qed.

Lemma table_hashes_checked :
  bool_decide (NoDup (LetterInfo_Hash <$> GenerateAllLetterInfos)) = true.
Proof. vm_compute. reflexivity. Qed.

(** X17.  No two entries of the table have the same canonical form.  The
    loop of [PrecomputeMain] therefore maps the hash of entry [i] to [i]
    and gives [hashToIndex] as many keys as there are entries, so that the
    program takes the branch that reports no collisions.  The 8-byte
    SHA-256 prefix is taken to be free of collisions on the canonical
    strings. *)
Theorem hashToIndex_spec :
  let allInfos := GenerateAllLetterInfos in
  let hashToIndex := PrecomputeMain_hashToIndex allInfos in
  NoDup (LetterInfo_Hash <$> allInfos)
  ∧ (∀ i info, allInfos !! i = Some info →
               hashToIndex !! LetterInfo_Hash info = Some i)
  ∧ size hashToIndex = length allInfos.
Proof.
  intros allInfos hashToIndex.
  assert (Hnd : NoDup (LetterInfo_Hash <$> allInfos)).
  { exact (proj1 (bool_decide_eq_true _) table_hashes_checked). }
  split; [done|].
  destruct (hashToIndex_loop allInfos 0 ∅ Hnd) as (Hlook & _ & Hsize).
  { intros info _. apply lookup_empty. }
  cbv zeta in Hlook, Hsize. split.
  - intros i info Hi. apply (Hlook i info Hi).
  - rewrite map_size_empty in Hsize. exact Hsize.
Qed.

Lemma forallb_Permutation {A} (f : A → bool) l1 l2 :
  l1 ≡ₚ l2 → forallb f l1 = forallb f l2.
Proof.
  intros Hp. apply eq_true_iff_eq. rewrite !forallb_forall.
  split; intros H x Hx; apply H; apply list_elem_of_In;
    apply list_elem_of_In in Hx; [by rewrite Hp|by rewrite <- Hp].
Qed.

Lemma Canonical_Permutation info info' :
  Canonical info = Canonical info' →
  MustBeInPositions info ≡ₚ MustBeInPositions info'
  ∧ CantBeInPositions info ≡ₚ CantBeInPositions info'
  ∧ Frequency info = Frequency info'
  ∧ FrequencyIsExact info = FrequencyIsExact info'.
Proof.
  unfold Canonical, sort_Ints. intros [= Hm Hc Hf He].
  split; [|split; [|done]].
  - by rewrite <- (merge_sort_Permutation (≤) (MustBeInPositions info)), Hm,
      merge_sort_Permutation.
  - by rewrite <- (merge_sort_Permutation (≤) (CantBeInPositions info)), Hc,
      merge_sort_Permutation.
Qed.

(** X18.  Keys with one hash stand for one test.  If two constraint keys
    have the same hash (the same letter and the same canonical form: the
    position lists may be in any order), and the positions of one are
    positions of a 5-letter word, then [TestLetterConstraint] gives the
    same answer for both on every word of at least 5 bytes.  So the entry
    that [BuildPrecomputedConstraints] skips as a duplicate would have had
    the bitset already stored. *)
Theorem Hash_determines_test (word : string) (k k' : LetterConstraintKey) :
  5 ≤ String.length word → in_range (Info k) → Hash k = Hash k' →
  Letter k = Letter k'
  ∧ TestLetterConstraint word (Letter k) (Info k)
    = TestLetterConstraint word (Letter k') (Info k').
Proof.
  intros Hw Hr. unfold Hash. intros [= Hl Hc].
  split; [done|]. rewrite <- Hl.
  assert (Hcan : Canonical (Info k) = Canonical (Info k')).
  { unfold Canonical. congruence. }
  destruct (Canonical_Permutation _ _ Hcan) as (Hm & Hcn & Hf & He).
  assert (Hr' : in_range (Info k')).
  { destruct Hr as [Hr1 Hr2]. split; [by rewrite <- Hm|by rewrite <- Hcn]. }
  rewrite !TestLetterConstraint_spec by done. f_equal.
  unfold tests. rewrite Hf, He.
  rewrite (forallb_Permutation _ _ _ Hm), (forallb_Permutation _ _ _ Hcn).
  done.
Qed.

Lemma Hash_determines_test_witness :
  let k := {| Letter := "e"%char;
              Info := {| MustBeInPositions := [4; 2]; CantBeInPositions := [0];
                         Frequency := 2; FrequencyIsExact := false |} |} in
  let k' := {| Letter := "e"%char;
               Info := {| MustBeInPositions := [2; 4]; CantBeInPositions := [0];
                          Frequency := 2; FrequencyIsExact := false |} |} in
  Letter k = Letter k'
  ∧ TestLetterConstraint "speed" (Letter k) (Info k)
    = TestLetterConstraint "speed" (Letter k') (Info k').
Proof.
  apply Hash_determines_test.
  - vm_compute. lia.
  - split; repeat constructor.
  - vm_compute. reflexivity.
Defined.

(** ** What [AnalyzeWordle] records *)

Lemma analysis_checked :
  forallb (λ gp,
    forallb (λ tp,
      let g := pattern_at gp in
      let t := pattern_at tp in
      let info := letter_info g t in
      if bool_decide (0 < pattern_count gp) then
        bool_decide (MustBeInPositions info = green_positions g t)
        && bool_decide (CantBeInPositions info
                        = if decide (pattern_count tp = 0) then []
                          else other_positions g t)
        && bool_decide (Frequency info
                        = pattern_count gp `min` pattern_count tp)
        && bool_decide (FrequencyIsExact info
                        = bool_decide (pattern_count tp < pattern_count gp)
                          || bool_decide (length (green_positions g t)
                                          = pattern_count gp `min` pattern_count tp))
        && IsValid info
        && bool_decide (pattern_satisfies tp info
                        = negb (undercounted g t (pattern_count gp)
                                             (pattern_count tp)))
      else true)
      patterns) patterns = true.
Proof. vm_compute. reflexivity. Qed.

Lemma green_positions_ext g g' t t' :
  (∀ i, i ∈ seq 0 5 → g i = g' i) → (∀ i, i ∈ seq 0 5 → t i = t' i) →
  green_positions g t = green_positions g' t'.
Proof.
  intros Hg Ht. apply filter_ext_elem. intros i Hi.
  by rewrite Hg, Ht.
Qed.

Lemma other_positions_ext g g' t t' :
  (∀ i, i ∈ seq 0 5 → g i = g' i) → (∀ i, i ∈ seq 0 5 → t i = t' i) →
  other_positions g t = other_positions g' t'.
Proof.
  intros Hg Ht. apply filter_ext_elem. intros i Hi.
  by rewrite Hg, Ht.
Qed.

Lemma forallb_ext_elem {A} (f f' : A → bool) l :
  (∀ x, x ∈ l → f x = f' x) → forallb f l = forallb f' l.
Proof.
  induction l as [|x l IH]; intros Hext; [done|]. cbn.
  rewrite Hext by set_solver. f_equal. apply IH. intros; apply Hext. set_solver.
Qed.

(** The entry of a letter of the guess, in closed form. *)
Lemma analysis_entry (g t : list ascii) c :
  0 < count5 g c →
  let info := letter_info (holds g c) (holds t c) in
  MustBeInPositions info = green_positions (holds g c) (holds t c)
  ∧ CantBeInPositions info
    = (if decide (count5 t c = 0) then []
       else other_positions (holds g c) (holds t c))
  ∧ Frequency info = count5 g c `min` count5 t c
  ∧ FrequencyIsExact info
    = bool_decide (count5 t c < count5 g c)
      || bool_decide (length (green_positions (holds g c) (holds t c))
                      = count5 g c `min` count5 t c)
  ∧ IsValid info = true
  ∧ satisfies t c info
    = negb (undercounted (holds g c) (holds t c) (count5 g c) (count5 t c)).
Proof.
  intros Hpos info.
  set (gp := pattern_of (holds g c)). set (tp := pattern_of (holds t c)).
  assert (Hg : ∀ i, i ∈ seq 0 5 → holds g c i = pattern_at gp i).
  { intros i Hi. symmetry. by apply pattern_at_of. }
  assert (Ht : ∀ i, i ∈ seq 0 5 → holds t c i = pattern_at tp i).
  { intros i Hi. symmetry. by apply pattern_at_of. }
  assert (Hgc : pattern_count gp = count5 g c).
  { unfold gp. by rewrite pattern_count_of, <- count5_holds. }
  assert (Htc : pattern_count tp = count5 t c).
  { unfold tp. by rewrite pattern_count_of, <- count5_holds. }
  unfold info, undercounted.
  rewrite (letter_info_ext _ (pattern_at gp) _ (pattern_at tp)) by done.
  rewrite (green_positions_ext _ (pattern_at gp) _ (pattern_at tp)) by done.
  rewrite (other_positions_ext _ (pattern_at gp) _ (pattern_at tp)) by done.
  pose proof analysis_checked as Hall. rewrite forallb_forall in Hall.
  specialize (Hall gp ltac:(apply list_elem_of_In, pattern_of_patterns)).
  rewrite forallb_forall in Hall.
  specialize (Hall tp ltac:(apply list_elem_of_In, pattern_of_patterns)).
  cbv zeta in Hall. unfold undercounted in Hall. rewrite Hgc, Htc in Hall.
  rewrite bool_decide_eq_true_2 in Hall by done.
  apply andb_prop in Hall as [Hall Hs]. apply andb_prop in Hall as [Hall Hv].
  apply andb_prop in Hall as [Hall He]. apply andb_prop in Hall as [Hall Hf].
  apply andb_prop in Hall as [Hm Hc].
  apply bool_decide_eq_true in Hm, Hc, Hf, He, Hs.
  split; [done|]. split; [done|]. split; [done|]. split; [done|].
  split; [done|].
  rewrite <- Hs. unfold satisfies, pattern_satisfies.
  rewrite <- Htc.
  set (info' := letter_info (pattern_at gp) (pattern_at tp)) in *.
  assert (Hr : Forall (λ i, i ∈ seq 0 5) (MustBeInPositions info')
               ∧ Forall (λ i, i ∈ seq 0 5) (CantBeInPositions info')).
  { rewrite Hm, Hc. split.
    - apply Forall_forall. intros i Hi. by apply list_elem_of_filter in Hi as [_ ?].
    - case_decide; [constructor|]. apply Forall_forall. intros i Hi.
      by apply list_elem_of_filter in Hi as [_ ?]. }
  destruct Hr as [Hr1 Hr2]. rewrite Forall_forall in Hr1, Hr2.
  f_equal; [f_equal|].
  - apply forallb_ext_elem. intros i Hi. apply Ht, Hr1, Hi.
  - apply forallb_ext_elem. intros i Hi. f_equal. apply Ht, Hr2, Hi.
Qed.

Lemma AnalyzeWordle_fields target guess analysis :
  AnalyzeWordle target guess = Ok analysis →
  Target analysis = target ∧ Guess analysis = guess.
Proof.
  unfold AnalyzeWordle. cbv zeta.
  destruct (letter_counts _) as [tf|]; [|done]. rewrite bind_Ok.
  destruct (for_each (AnalyzeWordle_init _) _ _) as [li|]; [|done].
  rewrite bind_Ok.
  destruct (for_each (AnalyzeWordle_first _ _) _ _) as [st|]; [|done].
  rewrite bind_Ok.
  destruct (for_each (AnalyzeWordle_second _ _ _) _ _) as [st'|]; [|done].
  rewrite bind_Ok. by intros [= <-].
Qed.

Lemma elem_of_take_5 (w : list ascii) c :
  c ∈ take 5 w ↔ ∃ i, i ∈ seq 0 5 ∧ w !! i = Some c.
Proof.
  rewrite list_elem_of_lookup. split.
  - intros [i Hi]. apply lookup_take_Some in Hi as [Hi Hlt].
    exists i. split; [apply elem_of_seq; lia|done].
  - intros (i & Hi%elem_of_seq & Hw). exists i.
    apply lookup_take_Some. split; [done|lia].
Qed.

Lemma count5_pos_iff (w : list ascii) c : 0 < count5 w c ↔ c ∈ take 5 w.
Proof.
  rewrite elem_of_take_5. split.
  - unfold count5. intros Hpos.
    destruct (filter _ _) as [|i l] eqn:Hf; [cbn in Hpos; lia|].
    assert (Hi : i ∈ filter (λ i, w !! i = Some c) (seq 0 5)).
    { rewrite Hf. set_solver. }
    apply list_elem_of_filter in Hi as [? ?]. eauto.
  - intros (i & Hi & Hw). by eapply count5_pos.
Qed.

Lemma analysis_entry_in_range (g t : list ascii) c :
  0 < count5 g c → in_range (letter_info (holds g c) (holds t c)).
Proof.
  intros Hpos. destruct (analysis_entry g t c Hpos) as (Hm & Hc & _).
  cbv zeta in *. split.
  - rewrite Hm. apply Forall_forall. intros i [_ Hi%elem_of_seq]%list_elem_of_filter.
    lia.
  - rewrite Hc. case_decide; [constructor|]. apply Forall_forall.
    intros i [_ Hi%elem_of_seq]%list_elem_of_filter. lia.
Qed.

(** X19.  What [AnalyzeWordle] records.  For a target and a guess of at
    least 5 bytes the analysis has one entry for each distinct letter among
    the first five of the guess, and for such a letter: the must-positions
    are the positions where guess and target both hold it; the
    cant-positions are the other positions of the letter in the guess, but
    none at all when the target does not hold the letter; the frequency is
    the smaller of the letter's counts in guess and target; the frequency
    is exact when the guess holds the letter more often than the target, or
    when its must-positions are as many as the frequency; the entry is
    valid ([IsValid]); [InTarget] says whether the target holds the letter;
    and every position where the target holds the letter is a possible
    position ([CouldBeInPosition], [PossiblePositions]). *)
Theorem AnalyzeWordle_entries (target guess : string) :
  5 ≤ String.length target → 5 ≤ String.length guess →
  ∃ analysis,
    AnalyzeWordle target guess = Ok analysis
    ∧ Target analysis = target ∧ Guess analysis = guess
    ∧ (∀ c, is_Some (LetterInfos analysis !! c) ↔ c ∈ take 5 (bytes guess))
    ∧ ∀ c info, LetterInfos analysis !! c = Some info →
        let g := holds (bytes guess) c in
        let t := holds (bytes target) c in
        let gcount := count5 (bytes guess) c in
        let tcount := count5 (bytes target) c in
        MustBeInPositions info = green_positions g t
        ∧ CantBeInPositions info
          = (if decide (tcount = 0) then [] else other_positions g t)
        ∧ Frequency info = gcount `min` tcount
        ∧ FrequencyIsExact info
          = bool_decide (tcount < gcount)
            || bool_decide (length (green_positions g t) = gcount `min` tcount)
        ∧ IsValid info = true
        ∧ InTarget info = bool_decide (c ∈ take 5 (bytes target))
        ∧ ∀ pos, pos < 5 → bytes target !! pos = Some c →
                 CouldBeInPosition info pos = true
                 ∧ pos ∈ PossiblePositions info.
Proof.
  intros Ht Hg.
  destruct (AnalyzeWordle_spec target guess Ht Hg) as (a & Hrun & Hent).
  exists a. split; [done|].
  destruct (AnalyzeWordle_fields _ _ _ Hrun) as [HT HG].
  split; [done|]. split; [done|]. split.
  - intros c. rewrite elem_of_take_5. split.
    + intros [info Hi]. by apply Hent in Hi as [? _].
    + intros Hc. eexists. apply Hent. by split.
  - intros c info Hi. apply Hent in Hi as [Hc ->].
    assert (Hpos : 0 < count5 (bytes guess) c).
    { apply count5_pos_iff, elem_of_take_5, Hc. }
    destruct (analysis_entry (bytes guess) (bytes target) c Hpos)
      as (Hm & Hcn & Hf & He & Hv & _).
    cbv zeta in *.
    split; [done|]. split; [done|]. split; [done|]. split; [done|].
    split; [done|]. split.
    + unfold InTarget. rewrite Hf. apply bool_decide_ext.
      rewrite <- count5_pos_iff. lia.
    + intros pos Hlt Hpos'.
      assert (Hcould : CouldBeInPosition
                         (letter_info (holds (bytes guess) c)
                                      (holds (bytes target) c)) pos = true).
      { unfold CouldBeInPosition. apply negb_true_iff, bool_decide_eq_false.
        rewrite Hcn. case_decide; [apply not_elem_of_nil|].
        intros [Hin _]%list_elem_of_filter.
        apply andb_true_iff in Hin as [_ Hn%negb_true_iff].
        unfold holds in Hn. by rewrite bool_decide_eq_true_2 in Hn. }
      split; [done|]. unfold PossiblePositions.
      apply list_elem_of_filter. split; [done|]. apply elem_of_seq. lia.
Qed.

Lemma AnalyzeWordle_entries_witness :
  ∃ analysis,
    AnalyzeWordle "abide" "speed" = Ok analysis
    ∧ Target analysis = "abide" ∧ Guess analysis = "speed"
    ∧ (∀ c, is_Some (LetterInfos analysis !! c) ↔ c ∈ take 5 (bytes "speed"))
    ∧ ∀ c info, LetterInfos analysis !! c = Some info →
        let g := holds (bytes "speed") c in
        let t := holds (bytes "abide") c in
        let gcount := count5 (bytes "speed") c in
        let tcount := count5 (bytes "abide") c in
        MustBeInPositions info = green_positions g t
        ∧ CantBeInPositions info
          = (if decide (tcount = 0) then [] else other_positions g t)
        ∧ Frequency info = gcount `min` tcount
        ∧ FrequencyIsExact info
          = bool_decide (tcount < gcount)
            || bool_decide (length (green_positions g t) = gcount `min` tcount)
        ∧ IsValid info = true
        ∧ InTarget info = bool_decide (c ∈ take 5 (bytes "abide"))
        ∧ ∀ pos, pos < 5 → bytes "abide" !! pos = Some c →
                 CouldBeInPosition info pos = true
                 ∧ pos ∈ PossiblePositions info.
Proof. apply (AnalyzeWordle_entries "abide" "speed"); vm_compute; lia. Defined.

Lemma passes_target (target guess : string) analysis :
  5 ≤ String.length target → 5 ≤ String.length guess →
  AnalyzeWordle target guess = Ok analysis →
  map_Forall (λ _ info, in_range info) (LetterInfos analysis)
  ∧ (passes analysis target
     ↔ Forall (λ c, undercounted (holds (bytes guess) c) (holds (bytes target) c)
                      (count5 (bytes guess) c) (count5 (bytes target) c)
                    = false)
              (take 5 (bytes guess))).
Proof.
  intros Ht Hg Hrun.
  destruct (AnalyzeWordle_spec target guess Ht Hg) as (a & Hrun' & Hent).
  rewrite Hrun in Hrun'. injection Hrun' as <-.
  split.
  - intros c info Hi. apply Hent in Hi as [Hc ->].
    apply analysis_entry_in_range, count5_pos_iff, elem_of_take_5, Hc.
  - unfold passes. rewrite Forall_forall. split.
    + intros Hall c Hc.
      assert (Hi : LetterInfos analysis !! c
                   = Some (letter_info (holds (bytes guess) c)
                                       (holds (bytes target) c))).
      { apply Hent. split; [by apply elem_of_take_5|done]. }
      specialize (Hall c _ Hi). cbn in Hall.
      destruct (analysis_entry (bytes guess) (bytes target) c)
        as (_ & _ & _ & _ & _ & Hs); [by apply count5_pos_iff|].
      cbv zeta in Hs. rewrite Hs in Hall. by apply negb_true_iff in Hall.
    + intros Hall c info Hi. apply Hent in Hi as [Hc ->].
      destruct (analysis_entry (bytes guess) (bytes target) c)
        as (_ & _ & _ & _ & _ & Hs);
        [by apply count5_pos_iff, elem_of_take_5|].
      cbv zeta in Hs. rewrite Hs. apply negb_true_iff, Hall.
      by apply elem_of_take_5.
Qed.

(** X20.  When the target fails its own analysis.  For a target and a
    guess of at least 5 bytes, the target satisfies the constraints that
    [AnalyzeWordle] derives from it exactly when no letter of the guess is
    undercounted: a letter all of whose occurrences in the guess are at
    correct positions, while the target holds it more often.  For such a
    letter the last loop of [AnalyzeWordle] marks the frequency as exact,
    and [WordSatisfiesConstraints] rejects the target. *)
Theorem target_survives (target guess : string) :
  5 ≤ String.length target → 5 ≤ String.length guess →
  ∃ analysis,
    AnalyzeWordle target guess = Ok analysis
    ∧ WordSatisfiesConstraints analysis target
      = Ok (bool_decide
              (Forall (λ c, undercounted (holds (bytes guess) c)
                              (holds (bytes target) c)
                              (count5 (bytes guess) c)
                              (count5 (bytes target) c) = false)
                      (take 5 (bytes guess)))).
Proof.
  intros Ht Hg.
  destruct (AnalyzeWordle_spec target guess Ht Hg) as (a & Hrun & _).
  exists a. split; [done|].
  destruct (passes_target target guess a Ht Hg Hrun) as [Hr Hp].
  rewrite WordSatisfiesConstraints_spec by done. f_equal.
  by apply bool_decide_ext.
Qed.

Lemma target_survives_witness :
  ∃ analysis,
    AnalyzeWordle "eerie" "extra" = Ok analysis
    ∧ WordSatisfiesConstraints analysis "eerie" = Ok false.
Proof.
  destruct (target_survives "eerie" "extra") as (analysis & Hrun & Hsat);
    [vm_compute; lia|vm_compute; lia|].
  exists analysis. split; [exact Hrun|]. rewrite Hsat. reflexivity.
Defined.

(** A target that fails: the guess "extra" against the target "eerie"
    leaves no candidate, the target included. *)
Remark target_dropped :
  structural_path "eerie" "extra" ["eerie"; "crane"] = Ok [].
Proof. vm_compute. reflexivity. Qed.

Lemma list_eq_5 (w t : list ascii) :
  length w = 5 → length t = 5 →
  (∀ i, i < 5 → w !! i = t !! i) → w = t.
Proof.
  intros Hw Ht Heq. apply list_eq. intros i.
  destruct (decide (i < 5)); [by apply Heq|].
  by rewrite !lookup_ge_None_2 by lia.
Qed.

(** X21.  Guessing the target leaves the target.  When the guess is the
    target itself (5 bytes), [FilterWords] on candidates of 5 bytes keeps
    exactly the candidates equal to the target. *)
Theorem exact_guess_filters (target : string) (candidates : list string) :
  String.length target = 5 →
  Forall (λ w, String.length w = 5) candidates →
  ∃ analysis,
    AnalyzeWordle target target = Ok analysis
    ∧ FilterWords analysis candidates
      = Ok (filter (λ w, w = target) candidates).
Proof.
  intros Ht Hcs.
  destruct (AnalyzeWordle_spec target target) as (a & Hrun & Hent); [lia..|].
  exists a. split; [done|].
  destruct (passes_target target target a) as [Hr Hp]; [lia|lia|done|].
  rewrite FilterWords_spec; [|by eapply Forall_impl; [done|]; cbn; lia|done].
  f_equal. apply filter_ext_elem. intros w Hw.
  rewrite Forall_forall in Hcs. specialize (Hcs w Hw). split.
  - intros Hpass. apply bytes_inj, list_eq_5; [by rewrite length_bytes..|].
    intros i Hi.
    destruct (lookup_lt_is_Some_2 (bytes target) i) as [c Hc].
    { rewrite length_bytes. lia. }
    rewrite Hc.
    assert (Hin : i ∈ seq 0 5) by (apply elem_of_seq; lia).
    assert (Hinfo : LetterInfos a !! c
                    = Some (letter_info (holds (bytes target) c)
                                        (holds (bytes target) c))).
    { apply Hent. split; [eauto|done]. }
    specialize (Hpass c _ Hinfo). cbn in Hpass.
    destruct (analysis_entry (bytes target) (bytes target) c)
      as (Hm & _); [by eapply count5_pos|].
    cbv zeta in Hm. unfold satisfies in Hpass. rewrite Hm in Hpass.
    apply andb_prop in Hpass as [Hpass _].
    apply andb_prop in Hpass as [_ Hmust].
    rewrite forallb_forall in Hmust.
    assert (Hg : i ∈ green_positions (holds (bytes target) c)
                   (holds (bytes target) c)).
    { apply list_elem_of_filter. split; [|done].
      unfold holds. by rewrite !bool_decide_eq_true_2. }
    apply list_elem_of_In, Hmust in Hg.
    by apply bool_decide_eq_true in Hg.
  - intros ->. apply Hp, Forall_forall. intros c _.
    unfold undercounted. apply andb_false_iff. right.
    apply bool_decide_eq_false. lia.
Qed.

Lemma exact_guess_filters_witness :
  ∃ analysis,
    AnalyzeWordle "eerie" "eerie" = Ok analysis
    ∧ FilterWords analysis ["eerie"; "crane"; "eerie"]
      = Ok (filter (λ w, w = "eerie") ["eerie"; "crane"; "eerie"]).
Proof.
  apply (exact_guess_filters "eerie" ["eerie"; "crane"; "eerie"]).
  - reflexivity.
  - repeat constructor.
Defined.

(** ** Words shorter than 5 bytes *)

Lemma for_each_Panic_kind {A St} (body : A → St → result St)
    (e : runtime_error) l s e' :
  (∀ x s e', body x s = Panic e' → e' = e) →
  for_each body l s = Panic e' → e' = e.
Proof.
  intros Hkind. revert s. induction l as [|x l IH]; intros s; [done|].
  rewrite for_each_cons. destruct (body x s) as [s'|e0] eqn:Hb.
  - rewrite bind_Ok. apply IH.
  - cbn. intros [= <-]. by eapply Hkind.
Qed.

(** A loop over the positions 0..4 that first reads [w[i]] panics on a
    word shorter than 5 bytes. *)
Lemma short_word_loop {St} (w : list ascii) (f : nat → ascii → St → result St)
    (s : St) :
  length w < 5 →
  (∀ i ch s e, f i ch s = Panic e → e = IndexOutOfRange) →
  for_each (λ i s, ch ← load w i; f i ch s) (seq 0 5) s
  = Panic IndexOutOfRange.
Proof.
  intros Hlen Hkind.
  apply (for_each_Panic _ (λ _, True)); [done| | |done].
  - intros i s0 e. destruct (load w i) as [ch|] eqn:Hl.
    + rewrite bind_Ok. apply Hkind.
    + cbn. intros [= <-]. by eapply load_Panic_kind.
  - apply Exists_exists. exists (length w). split; [apply elem_of_seq; lia|].
    intros s0 _. unfold load. by rewrite lookup_ge_None_2.
Qed.

Lemma letter_counts_short (w : list ascii) :
  length w < 5 → letter_counts w = Panic IndexOutOfRange.
Proof.
  intros Hlen. unfold letter_counts.
  apply (short_word_loop w (λ _ ch m, Ok (<[ch := S (count_at m ch)]> m)));
    [done|]. intros; done.
Qed.

Lemma letter_counts_kind (w : list ascii) e :
  letter_counts w = Panic e → e = IndexOutOfRange.
Proof.
  unfold letter_counts. apply for_each_Panic_kind.
  intros i m e'. destruct (load w i) eqn:Hl; [done|].
  cbn. intros [= <-]. by eapply load_Panic_kind.
Qed.

Lemma must_hold_kind (w : list ascii) c positions e :
  must_hold w c positions = Panic e → e = IndexOutOfRange.
Proof.
  induction positions as [|pos rest IH]; [done|]. cbn [must_hold].
  destruct (load w pos) eqn:Hl.
  - rewrite bind_Ok. by case_decide.
  - cbn. intros [= <-]. by eapply load_Panic_kind.
Qed.

Lemma cant_hold_kind (w : list ascii) c positions e :
  cant_hold w c positions = Panic e → e = IndexOutOfRange.
Proof.
  induction positions as [|pos rest IH]; [done|]. cbn [cant_hold].
  destruct (load w pos) eqn:Hl.
  - rewrite bind_Ok. by case_decide.
  - cbn. intros [= <-]. by eapply load_Panic_kind.
Qed.

Lemma satisfies_letter_kind (w : list ascii) wordFreq c info e :
  satisfies_letter w wordFreq c info = Panic e → e = IndexOutOfRange.
Proof.
  unfold satisfies_letter.
  destruct (if FrequencyIsExact info then _ else _); [done|].
  destruct (must_hold w c _) as [[|]|] eqn:Hm.
  - rewrite bind_Ok. apply cant_hold_kind.
  - done.
  - cbn. intros [= <-]. by eapply must_hold_kind.
Qed.

Lemma WordSatisfiesConstraints_kind (w : WordleAnalysis) word e :
  WordSatisfiesConstraints w word = Panic e → e = IndexOutOfRange.
Proof.
  unfold WordSatisfiesConstraints.
  destruct (letter_counts (bytes word)) as [wordFreq|e0] eqn:Hc.
  2:{ cbn. intros [= <-]. by eapply letter_counts_kind. }
  rewrite bind_Ok. revert e.
  apply (map_fold_weak_ind (λ r _, ∀ e, r = Panic e → e = IndexOutOfRange)).
  - done.
  - intros c info m r _ IH e.
    destruct r as [[|]|e0]; cbn.
    + apply satisfies_letter_kind.
    + done.
    + intros [= <-]. by apply IH.
Qed.

(** X22.  Words shorter than 5 bytes.  Every function of the demo program
    that walks a word reads its positions 0..4 without looking at its
    length: [AnalyzeWordle] panics, with an index out of range, when the
    target or the guess is shorter than 5 bytes, [WordSatisfiesConstraints]
    and [TestLetterConstraint] when the word is, whatever the constraints,
    and [FilterWords] as soon as one candidate is, an empty line of the word
    file for one. *)
Theorem short_words_panic :
  (∀ target guess,
     String.length target < 5 ∨ String.length guess < 5 →
     AnalyzeWordle target guess = Panic IndexOutOfRange)
  ∧ (∀ (w : WordleAnalysis) word,
       String.length word < 5 →
       WordSatisfiesConstraints w word = Panic IndexOutOfRange)
  ∧ (∀ (w : WordleAnalysis) candidates,
       Exists (λ word, String.length word < 5) candidates →
       FilterWords w candidates = Panic IndexOutOfRange)
  ∧ (∀ word letter info,
       String.length word < 5 →
       TestLetterConstraint word letter info = Panic IndexOutOfRange).
Proof.
  assert (HW : ∀ (w : WordleAnalysis) word,
            String.length word < 5 →
            WordSatisfiesConstraints w word = Panic IndexOutOfRange).
  { intros w word Hlen. unfold WordSatisfiesConstraints.
    rewrite letter_counts_short by by rewrite length_bytes. done. }
  split; [|split; [done|split]].
  - intros target guess Hshort. unfold AnalyzeWordle. cbv zeta.
    destruct (decide (String.length target < 5)) as [Ht|Ht].
    { rewrite letter_counts_short by by rewrite length_bytes. done. }
    destruct (letter_counts_spec (bytes target)) as (tf & -> & _).
    { rewrite length_bytes. lia. }
    rewrite bind_Ok.
    assert (Hg : length (bytes guess) < 5) by (rewrite length_bytes; lia).
    unfold AnalyzeWordle_init.
    rewrite (short_word_loop (bytes guess)
               (λ _ char letterInfos,
                  match letterInfos !! char with
                  | Some _ => Ok letterInfos
                  | None => Ok (<[char := LetterInfo_zero]> letterInfos)
                  end)); [done|done|].
    intros i ch m e. by destruct (m !! ch).
  - intros w candidates Hex. unfold FilterWords.
    apply (for_each_Panic _ (λ _, True)); [done| | |done].
    + intros word vs e.
      destruct (WordSatisfiesConstraints w word) as [ok|e0] eqn:Hw; [done|].
      cbn. intros [= <-]. by eapply WordSatisfiesConstraints_kind.
    + eapply Exists_impl; [done|]. intros word Hlen vs _.
      by rewrite HW.
  - intros word letter info Hlen. unfold TestLetterConstraint. cbv zeta.
    rewrite (short_word_loop (bytes word)
               (λ _ ch freq, Ok (if decide (ch = letter) then S freq else freq)));
      [done|by rewrite length_bytes|done].
Qed.

Lemma short_words_panic_witness :
  AnalyzeWordle "crane" "audi" = Panic IndexOutOfRange
  ∧ FilterWords {| Target := "crane"; Guess := "audio"; LetterInfos := ∅ |}
                ["crane"; String.EmptyString] = Panic IndexOutOfRange.
Proof.
  split.
  - apply (proj1 short_words_panic). right. vm_compute. lia.
  - apply (proj1 (proj2 (proj2 short_words_panic))).
    apply Exists_cons_tl, Exists_cons_hd. vm_compute. lia.
Defined.

(** ** [MinBy] *)

Section MinBy_props.
Context {T K : Type}.
Variable zero : T.
Variable keyFunc : T → K.
Variable less : K → K → bool.
Hypothesis less_irrefl : ∀ v, less v v = false.
Hypothesis less_trans :
  ∀ u v w, less u v = true → less v w = true → less u w = true.

Lemma MinBy_loop (x0 : T) (done_ todo : list T) (st : T * K) :
  st.2 = keyFunc st.1 →
  st.1 ∈ x0 :: done_ →
  (∀ x, x ∈ done_ → less (keyFunc x) st.2 = false) →
  let st' := foldl (MinBy_update keyFunc less) st todo in
  st'.2 = keyFunc st'.1
  ∧ st'.1 ∈ x0 :: done_ ++ todo
  ∧ ∀ x, x ∈ done_ ++ todo → less (keyFunc x) st'.2 = false.
Proof.
  revert done_ st. induction todo as [|y todo IH]; intros done_ st Hval Hin Hmin.
  - cbn. rewrite app_nil_r. done.
  - cbn [foldl].
    destruct (IH (done_ ++ [y]) (MinBy_update keyFunc less st y))
      as (Hv & Hi & Hm).
    + unfold MinBy_update. cbn. by destruct (less _ _).
    + unfold MinBy_update. cbn. destruct (less _ _); cbn; set_solver.
    + intros x [Hx|Hx]%elem_of_app.
      * unfold MinBy_update. cbn.
        destruct (less (keyFunc y) st.2) eqn:Hy; cbn; [|by apply Hmin].
        destruct (less (keyFunc x) (keyFunc y)) eqn:Hxy; [|done].
        rewrite <- (Hmin x Hx). symmetry. by eapply less_trans.
      * apply list_elem_of_singleton in Hx as ->.
        unfold MinBy_update. cbn.
        destruct (less (keyFunc y) st.2) eqn:Hy; cbn; [apply less_irrefl|done].
    + cbv zeta in *. rewrite <- app_assoc in Hi, Hm. done.
Qed.

Lemma MinBy_minimal (slice schedule : list T) :
  slice ≠ [] → schedule ≡ₚ slice →
  MinBy zero keyFunc less slice schedule ∈ slice
  ∧ ∀ x, x ∈ slice →
      less (keyFunc x) (keyFunc (MinBy zero keyFunc less slice schedule))
      = false.
Proof.
  intros Hne Hperm. destruct slice as [|x0 rest]; [done|]. unfold MinBy.
  destruct (MinBy_loop x0 [] schedule (x0, keyFunc x0)) as (Hv & Hi & Hm);
    [done|set_solver|set_solver|].
  cbv zeta in *. cbn [app] in *. split.
  - apply elem_of_cons in Hi as [->|Hi]; [set_solver|]. by rewrite <- Hperm.
  - intros x Hx. rewrite <- Hv. apply Hm. by rewrite Hperm.
Qed.

End MinBy_props.

(** X23.  [MinBy].  On an empty slice it returns the zero value.  On
    any other slice, whatever the order in which the goroutines take the
    mutex, it returns an element of the slice no element of which has a
    smaller key (for an order [<] that is irreflexive and transitive);
    when [<] orders the keys of any two distinct elements, the result is
    the same for every order.  With tied keys the result does depend on
    the order. *)
Theorem MinBy_spec :
  (∀ T K (zero : T) (keyFunc : T → K) less schedule,
     MinBy zero keyFunc less [] schedule = zero)
  ∧ (∀ T K (zero : T) (keyFunc : T → K) less slice schedule,
       (∀ v, less v v = false) →
       (∀ u v w, less u v = true → less v w = true → less u w = true) →
       slice ≠ [] → schedule ≡ₚ slice →
       MinBy zero keyFunc less slice schedule ∈ slice
       ∧ ∀ x, x ∈ slice →
           less (keyFunc x) (keyFunc (MinBy zero keyFunc less slice schedule))
           = false)
  ∧ (∀ T K (zero : T) (keyFunc : T → K) less slice schedule schedule',
       (∀ v, less v v = false) →
       (∀ u v w, less u v = true → less v w = true → less u w = true) →
       (∀ x y, x ∈ slice → y ∈ slice →
               less (keyFunc x) (keyFunc y) = false →
               less (keyFunc y) (keyFunc x) = false → x = y) →
       schedule ≡ₚ slice → schedule' ≡ₚ slice →
       MinBy zero keyFunc less slice schedule
       = MinBy zero keyFunc less slice schedule')
  ∧ (∃ slice schedule schedule' : list nat,
       schedule ≡ₚ slice ∧ schedule' ≡ₚ slice
       ∧ MinBy 0 (λ n, n / 2) Nat.ltb slice schedule
         ≠ MinBy 0 (λ n, n / 2) Nat.ltb slice schedule').
Proof.
  split; [done|]. split; [|split].
  - intros T K zero keyFunc less slice schedule Hirr Htrans Hne Hperm.
    by apply MinBy_minimal.
  - intros T K zero keyFunc less slice schedule schedule'
      Hirr Htrans Htotal Hp Hp'.
    destruct slice as [|x0 rest]; [done|].
    destruct (MinBy_minimal zero keyFunc less Hirr Htrans (x0 :: rest)
                schedule ltac:(done) Hp) as [Hin Hmin].
    destruct (MinBy_minimal zero keyFunc less Hirr Htrans (x0 :: rest)
                schedule' ltac:(done) Hp') as [Hin' Hmin'].
    apply Htotal; auto.
  - exists [4; 2; 3], [2; 3; 4], [3; 2; 4]. split; [|split].
    + symmetry. apply (Permutation_cons_append [2; 3] 4).
    + etrans; [apply perm_swap|]. symmetry.
      apply (Permutation_cons_append [2; 3] 4).
    + vm_compute. congruence.
Qed.

Lemma MinBy_spec_witness :
  MinBy 0 (λ n, n / 2) Nat.ltb [4; 2; 3] [3; 4; 2] ∈ [4; 2; 3]
  ∧ ∀ x, x ∈ [4; 2; 3] →
      Nat.ltb (x / 2) (MinBy 0 (λ n, n / 2) Nat.ltb [4; 2; 3] [3; 4; 2] / 2)
      = false.
Proof.
  apply (proj1 (proj2 MinBy_spec) nat nat 0 (λ n, n / 2) Nat.ltb
           [4; 2; 3] [3; 4; 2]).
  - intros v. apply Nat.ltb_irrefl.
  - intros u v w Huv%Nat.ltb_lt Hvw%Nat.ltb_lt. apply Nat.ltb_lt. lia.
  - discriminate.
  - etrans; [apply perm_swap|]. apply perm_skip, perm_swap.
Defined.

(** ** The CUDA [getHint] *)

Lemma existsb_ext_elem {A} (f f' : A → bool) l :
  (∀ x, x ∈ l → f x = f' x) → existsb f l = existsb f' l.
Proof.
  induction l as [|x l IH]; intros Hext; [done|]. cbn.
  rewrite Hext by set_solver. f_equal. apply IH. intros; apply Hext. set_solver.
Qed.

Section cuda_props.
Variable guess answer : list ascii.

Lemma cuda_greens_inv : cuda_inv guess answer 0 (cuda_greens guess answer).
Proof.
  unfold cuda_inv, cuda_greens, cuda_tag. cbn [seq foldl].
  split.
  - repeat (destruct (cuda_match guess answer _ _)); reflexivity.
  - intros i Hi. rewrite (bool_decide_eq_false_2 (i < 0)) by lia.
    cbn [andb].
    destruct i as [|[|[|[|[|i]]]]]; [..|lia];
      repeat (destruct (cuda_match guess answer _ _)); reflexivity.
Qed.

Lemma cuda_alreadyUsed_insert h n i x :
  i ≤ n → cuda_alreadyUsed guess (<[n := x]> h) i = cuda_alreadyUsed guess h i.
Proof.
  intros Hle. unfold cuda_alreadyUsed. apply existsb_ext_elem.
  intros k Hk%elem_of_seq. by rewrite list_lookup_total_insert_ne by lia.
Qed.

Lemma cuda_scan_spec h i js :
  cuda_scan guess answer h i js
  = if existsb (λ j, bool_decide (i ≠ j) && bool_decide (h !!! j ≠ 2%Z)
                     && cuda_match guess answer i j) js
       && negb (cuda_alreadyUsed guess h i)
    then <[i := 1%Z]> h else h.
Proof.
  induction js as [|j js IH]; [done|]. cbn [cuda_scan existsb].
  destruct (bool_decide (i ≠ j) && bool_decide (h !!! j ≠ 2%Z) && cuda_match guess answer i j).
  - cbn [orb andb]. destruct (cuda_alreadyUsed guess h i) eqn:Hu; [|done].
    rewrite IH. cbn. by rewrite andb_false_r.
  - cbn [orb]. apply IH.
Qed.

Lemma cuda_tag_2 h n i : cuda_tag guess answer h n i = 2%Z ↔ cuda_match guess answer i i = true.
Proof.
  unfold cuda_tag. destruct (cuda_match guess answer i i); [done|].
  by destruct (_ && _ && _).
Qed.

Lemma cuda_step n h :
  n < 5 → cuda_inv guess answer n h →
  cuda_inv guess answer (S n)
    (if bool_decide (h !!! n = 0%Z)
     then cuda_scan guess answer h n (seq 0 5) else h).
Proof.
  intros Hn [Hlen Hinv].
  assert (Havail :
    existsb (λ j, bool_decide (n ≠ j) && bool_decide (h !!! j ≠ 2%Z)
                  && cuda_match guess answer n j) (seq 0 5)
    = cuda_available guess answer n).
  { unfold cuda_available. apply existsb_ext_elem. intros j Hj%elem_of_seq.
    f_equal. f_equal. rewrite (Hinv j) by lia.
    destruct (cuda_match guess answer j j) eqn:Hm.
    - rewrite bool_decide_eq_false_2; [done|].
      intros Hne. apply Hne. by apply cuda_tag_2.
    - rewrite bool_decide_eq_true_2; [done|].
      rewrite cuda_tag_2. congruence. }
  assert (Hother : ∀ h', length h' = 5 →
            (∀ i, i ≠ n → h' !!! i = h !!! i) →
            (∀ k, k < n → h' !!! k = h !!! k) →
            h' !!! n = cuda_tag guess answer h (S n) n →
            cuda_inv guess answer (S n) h').
  { intros h' Hlen' Hsame Hlow Hn'. split; [done|]. intros i Hi.
    assert (Hused : ∀ i, i ≤ n →
              cuda_alreadyUsed guess h' i = cuda_alreadyUsed guess h i).
    { intros i0 Hi0. unfold cuda_alreadyUsed. apply existsb_ext_elem.
      intros k Hk%elem_of_seq. rewrite Hlow by lia. done. }
    destruct (decide (i = n)) as [->|Hne].
    - rewrite Hn'. unfold cuda_tag. by rewrite Hused.
    - rewrite Hsame, Hinv by (done || lia). unfold cuda_tag.
      destruct (cuda_match guess answer i i); [done|].
      destruct (decide (i < n)) as [Hlt|Hge].
      + rewrite !bool_decide_eq_true_2 by lia. by rewrite Hused by lia.
      + by rewrite !bool_decide_eq_false_2 by lia. }
  pose proof (Hinv n Hn) as Hhn.
  case_bool_decide as H0.
  - rewrite cuda_scan_spec, Havail.
    assert (Hm : cuda_match guess answer n n = false).
    { destruct (cuda_match guess answer n n) eqn:Hm; [|done].
      apply cuda_tag_2 with (h := h) (n := n) in Hm. congruence. }
    destruct (cuda_available guess answer n
              && negb (cuda_alreadyUsed guess h n)) eqn:Hc.
    + apply Hother.
      * by rewrite length_insert.
      * intros i Hi. by rewrite list_lookup_total_insert_ne.
      * intros k Hk. by rewrite list_lookup_total_insert_ne by lia.
      * rewrite list_lookup_total_insert_eq by lia. unfold cuda_tag.
        rewrite Hm, bool_decide_eq_true_2 by lia. cbn [andb].
        by rewrite Hc.
    + apply Hother; [done..|]. rewrite H0. unfold cuda_tag.
      rewrite Hm, bool_decide_eq_true_2 by lia. cbn [andb]. by rewrite Hc.
  - apply Hother; [done..|]. rewrite Hhn. unfold cuda_tag.
    destruct (cuda_match guess answer n n) eqn:Hm; [done|].
    exfalso. apply H0. rewrite Hhn. unfold cuda_tag.
    rewrite Hm, bool_decide_eq_false_2 by lia. done.
Qed.

Lemma cuda_charHints_inv : cuda_inv guess answer 5 (cuda_charHints guess answer).
Proof.
  unfold cuda_charHints, cuda_yellows. cbn [seq foldl].
  do 5 (apply cuda_step; [lia|]). apply cuda_greens_inv.
Qed.

End cuda_props.

Lemma cuda_byte_Some (w : list ascii) i x : w !! i = Some x → cuda_byte w i = x.
Proof. unfold cuda_byte. by intros ->. Qed.

Lemma cuda_available_spec (g a : list ascii) i :
  cuda_available g a i = true
  ↔ ∃ j, j < 5 ∧ i ≠ j ∧ cuda_byte g j ≠ cuda_byte a j
         ∧ cuda_byte g i = cuda_byte a j.
Proof.
  unfold cuda_available, cuda_match. rewrite existsb_exists. split.
  - intros (j & Hj%list_elem_of_In%elem_of_seq & Hc).
    apply andb_prop in Hc as [Hc H3]. apply andb_prop in Hc as [H1 H2].
    apply bool_decide_eq_true in H1, H3.
    apply negb_true_iff, bool_decide_eq_false in H2.
    exists j. split; [lia|done].
  - intros (j & Hj & H1 & H2 & H3). exists j. split.
    + apply list_elem_of_In, elem_of_seq. lia.
    + rewrite (bool_decide_eq_true_2 (i ≠ j)) by done.
      rewrite (bool_decide_eq_false_2 (cuda_byte g j = cuda_byte a j)) by done.
      by rewrite (bool_decide_eq_true_2 (cuda_byte g i = cuda_byte a j)).
Qed.

Lemma cuda_alreadyUsed_spec (g : list ascii) tags i :
  cuda_alreadyUsed g tags i = true
  ↔ ∃ k, k < i ∧ tags !!! k = 1%Z ∧ cuda_byte g k = cuda_byte g i.
Proof.
  unfold cuda_alreadyUsed. rewrite existsb_exists. split.
  - intros (k & Hk%list_elem_of_In%elem_of_seq & Hc).
    apply andb_prop in Hc as [H1 H2]. apply bool_decide_eq_true in H1, H2.
    exists k. split; [lia|done].
  - intros (k & Hk & H1 & H2). exists k. split.
    + apply list_elem_of_In, elem_of_seq. lia.
    + by rewrite !bool_decide_eq_true_2.
Qed.

(** X24.  The CUDA [getHint] and the Go [getHint].  On a guess of five
    distinct single-byte letters and an answer of five single-byte letters
    the device function computes the tags and the code that the Go
    function computes; these are the guesses that the pair search scores.
    On a guess with a repeated letter the two can differ: for "speed"
    against "abide" the Go code is 13, [0; 0; 1; 1; 1], and the CUDA code
    is 10, [0; 0; 1; 0; 1]. *)
Theorem cuda_getHint_agrees (guess answer : string) :
  (String.length guess = 5 → String.length answer = 5 →
   single_byte guess → single_byte answer →
   NoDup (bytes guess) →
   getHint_charHints guess answer
   = Ok (cuda_charHints (bytes guess) (bytes answer))
   ∧ getHint guess answer = Ok (cuda_getHint (bytes guess) (bytes answer)))
  ∧ getHint "speed" "abide" = Ok 13%Z
  ∧ cuda_charHints (bytes "speed") (bytes "abide") = [0; 0; 1; 0; 1]%Z
  ∧ cuda_getHint (bytes "speed") (bytes "abide") = 10%Z.
Proof.
  split; [|by vm_compute].
  intros Hg Ha Hsg Hsa Hnd.
  assert (Htags : cuda_charHints (bytes guess) (bytes answer)
                  = zip_with (tag_of (bytes answer)) (bytes guess) (bytes answer)).
  { destruct (cuda_charHints_inv (bytes guess) (bytes answer)) as [Hlen Hinv].
    rewrite <- length_bytes in Hg, Ha.
    apply list_eq_same_length with 5;
      [rewrite length_zip_with; lia|done|].
    intros i x y Hi Hx Hy.
    apply list_lookup_total_correct in Hx as Hx'. rewrite <- Hx'.
    rewrite Hinv by done.
    apply lookup_zip_with_Some in Hy as (g_i & a_i & -> & Hgi & Hai).
    unfold cuda_tag, tag_of, cuda_match.
    rewrite (cuda_byte_Some _ _ _ Hgi), (cuda_byte_Some _ _ _ Hai).
    destruct (decide (a_i = g_i)) as [->|Hne].
    { by rewrite bool_decide_eq_true_2. }
    rewrite bool_decide_eq_false_2 by congruence.
    rewrite (bool_decide_eq_true_2 (i < 5)) by done. cbn [andb].
    assert (Hused : cuda_alreadyUsed (bytes guess)
                      (cuda_charHints (bytes guess) (bytes answer)) i = false).
    { apply not_true_is_false. rewrite cuda_alreadyUsed_spec.
      intros (k & Hk & _ & Heq).
      destruct (lookup_lt_is_Some_2 (bytes guess) k) as [g_k Hgk]; [lia|].
      rewrite (cuda_byte_Some _ _ _ Hgk), (cuda_byte_Some _ _ _ Hgi) in Heq.
      subst g_k. pose proof (NoDup_lookup _ _ _ _ Hnd Hgk Hgi). lia. }
    rewrite Hused, andb_true_r.
    assert (Hav : cuda_available (bytes guess) (bytes answer) i
                  = bool_decide (g_i ∈ bytes answer)).
    { apply eq_true_iff_eq.
      rewrite cuda_available_spec, bool_decide_eq_true. split.
      - intros (j & Hj & Hij & Hnm & Hm).
        destruct (lookup_lt_is_Some_2 (bytes answer) j) as [a_j Haj]; [lia|].
        rewrite (cuda_byte_Some _ _ _ Hgi), (cuda_byte_Some _ _ _ Haj) in Hm.
        subst a_j. by eapply list_elem_of_lookup_2.
      - intros Hin. apply list_elem_of_lookup in Hin as [j Haj].
        pose proof (lookup_lt_Some _ _ _ Haj) as Hj.
        exists j. split; [lia|].
        assert (Hij : i ≠ j) by (intros ->; congruence).
        split; [done|].
        destruct (lookup_lt_is_Some_2 (bytes guess) j) as [g_j Hgj]; [lia|].
        rewrite (cuda_byte_Some _ _ _ Hgj), (cuda_byte_Some _ _ _ Haj),
          (cuda_byte_Some _ _ _ Hgi).
        split; [|done]. intros ->.
        pose proof (NoDup_lookup _ _ _ _ Hnd Hgi Hgj). lia. }
    by rewrite Hav. }
  split.
  - by rewrite getHint_tags_5, Htags.
  - unfold getHint, cuda_getHint. by rewrite getHint_tags_5, Htags by done.
Qed.

Lemma cuda_getHint_agrees_witness :
  getHint_charHints "crane" "react"
  = Ok (cuda_charHints (bytes "crane") (bytes "react"))
  ∧ getHint "crane" "react" = Ok (cuda_getHint (bytes "crane") (bytes "react")).
Proof.
  apply (proj1 (cuda_getHint_agrees "crane" "react")).
  - reflexivity.
  - reflexivity.
  - apply single_byte_decide. reflexivity.
  - apply single_byte_decide. reflexivity.
  - refine (proj1 (bool_decide_eq_true _) _). vm_compute. reflexivity.
Defined.

(** Counting through an injection. *)
Lemma length_filter_inj (f : nat → nat) (P Q : nat → Prop)
    `{!∀ x, Decision (P x), !∀ x, Decision (Q x)} n :
  (∀ x, x < n → P x → f x < n ∧ Q (f x)) →
  (∀ x y, x < n → y < n → P x → P y → f x = f y → x = y) →
  length (filter P (seq 0 n)) ≤ length (filter Q (seq 0 n)).
Proof.
  intros Hf Hinj.
  rewrite <- (length_fmap f (filter P (seq 0 n))).
  apply submseteq_length, NoDup_submseteq.
  - apply NoDup_fmap_2_strong.
    + intros x y [Hx Hxn%elem_of_seq]%list_elem_of_filter
        [Hy Hyn%elem_of_seq]%list_elem_of_filter. apply Hinj; lia || done.
    + apply NoDup_filter, NoDup_seq.
  - intros y (x & -> & [Hx Hxn%elem_of_seq]%list_elem_of_filter)%list_elem_of_fmap.
    destruct (Hf x) as [? ?]; [lia|done|].
    apply list_elem_of_filter. split; [done|]. apply elem_of_seq. lia.
Qed.

Lemma cuda_tag_elem g a h n i : cuda_tag g a h n i ∈ [0; 1; 2]%Z.
Proof. unfold cuda_tag. repeat case_match; set_solver. Qed.

(** X25.  The CUDA [getHint] respects the letter counts.  On a guess and
    an answer of length 5 every tag is 0, 1 or 2; for every letter, the
    positions of the guess that hold it and are tagged Present or Correct
    are at most as many as its occurrences in the answer; and at most one
    position of any letter is tagged Present. *)
Theorem cuda_getHint_bounded (guess answer : string) :
  String.length guess = 5 → String.length answer = 5 →
  let tags := cuda_charHints (bytes guess) (bytes answer) in
  length tags = 5
  ∧ Forall (λ t, t ∈ [0; 1; 2]%Z) tags
  ∧ (∀ c, tagged c (bytes guess) tags ≤ occurrences c (bytes answer))
  ∧ (∀ i k, k < i → i < 5 → tags !!! k = 1%Z → tags !!! i = 1%Z →
            bytes guess !! k ≠ bytes guess !! i).
Proof.
  intros Hg Ha tags.
  destruct (cuda_charHints_inv (bytes guess) (bytes answer)) as [Hlen Hinv].
  fold tags in Hlen, Hinv.
  rewrite <- length_bytes in Hg, Ha.
  set (g := bytes guess) in *. set (a := bytes answer) in *.
  assert (Hone : ∀ i k, k < i → i < 5 → tags !!! k = 1%Z → tags !!! i = 1%Z →
            cuda_byte g k ≠ cuda_byte g i).
  { intros i k Hk Hi Htk Hti Heq. rewrite Hinv in Hti by done.
    unfold cuda_tag in Hti. destruct (cuda_match g a i i); [done|].
    destruct (bool_decide (i < 5) && cuda_available g a i) eqn:Hc;
      cbn [andb] in Hti; [|done].
    destruct (cuda_alreadyUsed g tags i) eqn:Hu; [done|].
    apply not_true_iff_false in Hu. apply Hu, cuda_alreadyUsed_spec. eauto. }
  split; [done|]. split; [|split].
  - apply Forall_forall. intros t [i Hi]%list_elem_of_lookup.
    pose proof (lookup_lt_Some _ _ _ Hi) as Hlt.
    apply list_lookup_total_correct in Hi. rewrite <- Hi, Hinv by lia.
    apply cuda_tag_elem.
  - intros c.
    (* positions instead of elements *)
    pose (QT := λ j, j < 5 ∧ cuda_byte g j = c ∧ tags !!! j ≠ 0%Z).
    pose (QA := λ j, j < 5 ∧ cuda_byte a j = c).
    assert (HT : tagged c g tags = length (filter QT (seq 0 5))).
    { unfold tagged. symmetry. apply length_filter_indices.
      - rewrite length_zip_with. lia.
      - intros j. unfold QT. split.
        + intros (Hj & Hc & Ht).
          destruct (lookup_lt_is_Some_2 g j) as [x Hx]; [lia|].
          destruct (lookup_lt_is_Some_2 tags j) as [t Htj]; [lia|].
          exists (x, t). split.
          * apply lookup_zip_with_Some. eauto.
          * cbn. rewrite (cuda_byte_Some _ _ _ Hx) in Hc.
            rewrite (list_lookup_total_correct _ _ _ Htj) in Ht. done.
        + intros ([x t] & Hz & Hc & Ht). cbn in Hc, Ht.
          apply lookup_zip_with_Some in Hz as (x' & t' & [= <- <-] & Hx & Htj).
          pose proof (lookup_lt_Some _ _ _ Hx).
          rewrite (cuda_byte_Some _ _ _ Hx),
            (list_lookup_total_correct _ _ _ Htj). split; [lia|done]. }
    assert (HA : occurrences c a = length (filter QA (seq 0 5))).
    { unfold occurrences. symmetry. apply length_filter_indices; [lia|].
      intros j. unfold QA. split.
      - intros (Hj & Hc).
        destruct (lookup_lt_is_Some_2 a j) as [x Hx]; [lia|].
        exists x. split; [done|]. by rewrite (cuda_byte_Some _ _ _ Hx) in Hc.
      - intros (x & Hx & ->). pose proof (lookup_lt_Some _ _ _ Hx).
        split; [lia|]. by apply cuda_byte_Some. }
    rewrite HT, HA.
    (* the first position of [c] in the answer that is not an exact match *)
    pose (free := λ j, cuda_byte a j = c ∧ cuda_byte g j ≠ cuda_byte a j).
    pose (j0 := hd 0 (filter free (seq 0 5))).
    assert (Hj0 : (∃ j, j < 5 ∧ free j) → j0 < 5 ∧ free j0).
    { intros (j & Hj & Hfree). unfold j0.
      assert (Hin : j ∈ filter free (seq 0 5)).
      { apply list_elem_of_filter. split; [done|]. apply elem_of_seq. lia. }
      destruct (filter free (seq 0 5)) as [|j1 l] eqn:Hf;
        [by apply elem_of_nil in Hin|].
      assert (H1 : j1 ∈ filter free (seq 0 5)).
      { rewrite Hf. apply list_elem_of_here. }
      apply list_elem_of_filter in H1 as [? H1%elem_of_seq]. cbn. split; [lia|done]. }
    assert (Hyellow : ∀ i, i < 5 → cuda_byte g i = c → tags !!! i ≠ 0%Z →
              cuda_match g a i i = false → tags !!! i = 1%Z ∧ j0 < 5 ∧ free j0).
    { intros i Hi Hc Ht Hm. rewrite Hinv in Ht |- * by done.
      unfold cuda_tag in *. rewrite Hm in *.
      destruct (bool_decide (i < 5) && cuda_available g a i
                && negb (cuda_alreadyUsed g tags i)) eqn:Hcond; [|done].
      split; [done|]. apply Hj0.
      apply andb_prop in Hcond as [Hcond _].
      apply andb_prop in Hcond as [_ Hav].
      apply cuda_available_spec in Hav as (j & Hj & _ & Hnm & Heq).
      exists j. split; [done|]. split; [congruence|done]. }
    apply (length_filter_inj
             (λ i, if cuda_match g a i i then i else j0)).
    + intros i Hi (_ & Hc & Ht).
      destruct (cuda_match g a i i) eqn:Hm.
      * split; [done|]. split; [done|].
        apply bool_decide_eq_true in Hm. congruence.
      * destruct (Hyellow i Hi Hc Ht Hm) as (_ & ? & [? _]). done.
    + intros x y Hx Hy (_ & Hcx & Htx) (_ & Hcy & Hty).
      destruct (cuda_match g a x x) eqn:Hmx, (cuda_match g a y y) eqn:Hmy.
      * done.
      * intros ->. destruct (Hyellow y Hy Hcy Hty Hmy) as (_ & _ & [_ Hfree]).
        by apply bool_decide_eq_true in Hmx.
      * intros <-. destruct (Hyellow x Hx Hcx Htx Hmx) as (_ & _ & [_ Hfree]).
        by apply bool_decide_eq_true in Hmy.
      * intros _.
        destruct (Hyellow x Hx Hcx Htx Hmx) as (H1x & _).
        destruct (Hyellow y Hy Hcy Hty Hmy) as (H1y & _).
        destruct (Nat.lt_trichotomy x y) as [Hlt|[?|Hlt]]; [|done|].
        -- exfalso. apply (Hone y x Hlt Hy H1x H1y). congruence.
        -- exfalso. apply (Hone x y Hlt Hx H1y H1x). congruence.
  - intros i k Hk Hi Htk Hti Heq.
    destruct (lookup_lt_is_Some_2 g k) as [x Hx]; [lia|].
    destruct (lookup_lt_is_Some_2 g i) as [y Hy]; [lia|].
    apply (Hone i k Hk Hi Htk Hti).
    rewrite (cuda_byte_Some _ _ _ Hx), (cuda_byte_Some _ _ _ Hy).
    fold g in Heq. congruence.
Qed.

Lemma cuda_getHint_bounded_witness :
  let tags := cuda_charHints (bytes "speed") (bytes "abide") in
  length tags = 5
  ∧ Forall (λ t, t ∈ [0; 1; 2]%Z) tags
  ∧ (∀ c, tagged c (bytes "speed") tags ≤ occurrences c (bytes "abide"))
  ∧ (∀ i k, k < i → i < 5 → tags !!! k = 1%Z → tags !!! i = 1%Z →
            bytes "speed" !! k ≠ bytes "speed" !! i).
Proof. apply (cuda_getHint_bounded "speed" "abide"); reflexivity. Defined.
